(** * LegendaryCalc: the expression evaluator [MathParser]

    A shallow embedding of [MathParser.evaluate] and [MathParser._eval]
    (main.py, lines 23-74) together with the host facilities they call:
    [str.strip], [str.replace], [re.sub], [str.count], [ast.parse] in
    ['eval'] mode, the [operator] functions and the [math] functions of
    the function table, and the ['{:.8g}'] formatting [run_math] applies
    to a result.

    Text is a list of bytes, UTF-8 encoded.  The model of the host covers
    ASCII text together with the two symbols the evaluator rewrites (the
    Greek letter pi and the radical sign); where it has no answer (a
    character or token outside the modelled fragment of Python, a libm
    value that is not tabulated) it answers [OutsideModel], and no theorem
    below asserts anything about such a run. *)

From Stdlib Require Import Ascii String List ZArith Lia Bool Arith.
From Stdlib Require Import Floats.
Import ListNotations.

Set Implicit Arguments.
Set Warnings "-register-all".

(** ** Text *)

Definition str : Type := list ascii.

(** [py "abc"] is the Python string ['abc']. *)
Definition py (s : string) : str := list_ascii_of_string s.

Definition ascii_eqb (a b : ascii) : bool := Ascii.eqb a b.

Definition code (c : ascii) : nat := nat_of_ascii c.

Definition is_digit (c : ascii) : bool :=
  (48 <=? code c)%nat && (code c <=? 57)%nat.

Definition is_alpha (c : ascii) : bool :=
  ((65 <=? code c)%nat && (code c <=? 90)%nat)
  || ((97 <=? code c)%nat && (code c <=? 122)%nat).

(** The class [[a-zA-Z_]] of [_trig_re]'s lookbehind; also the characters
    that start a Python name. *)
Definition is_name_start (c : ascii) : bool :=
  is_alpha c || ascii_eqb c "_".

Definition is_name_char (c : ascii) : bool :=
  is_name_start c || is_digit c.

(** ASCII characters for which [str.isspace] holds: TAB, LF, VT, FF, CR,
    the four separators 0x1C-0x1F, and the space.  These are also what
    [\s] matches on ASCII text. *)
Definition is_space (c : ascii) : bool :=
  ((9 <=? code c)%nat && (code c <=? 13)%nat)
  || ((28 <=? code c)%nat && (code c <=? 32)%nat).

Fixpoint str_eqb (a b : str) : bool :=
  match a, b with
  | [], [] => true
  | x :: a', y :: b' => ascii_eqb x y && str_eqb a' b'
  | _, _ => false
  end.

(** [starts_with p s]: [s.startswith(p)]. *)
Fixpoint starts_with (p s : str) : bool :=
  match p, s with
  | [], _ => true
  | x :: p', y :: s' => ascii_eqb x y && starts_with p' s'
  | _ :: _, [] => false
  end.

(** [span p s] splits [s] after its longest prefix of characters
    satisfying [p]. *)
Fixpoint span (p : ascii -> bool) (s : str) : str * str :=
  match s with
  | [] => ([], [])
  | c :: r => if p c then let (a, b) := span p r in (c :: a, b) else ([], s)
  end.

(** [str.count] of a single character. *)
Fixpoint count_char (c : ascii) (s : str) : nat :=
  match s with
  | [] => 0
  | x :: r => (if ascii_eqb x c then 1 else 0) + count_char c r
  end.

(** [str.strip()]. *)
Fixpoint lstrip (s : str) : str :=
  match s with
  | c :: r => if is_space c then lstrip r else s
  | [] => []
  end.

Definition rstrip (s : str) : str := rev (lstrip (rev s)).

Definition strip (s : str) : str := rstrip (lstrip s).

(** [s.replace(old, new)] for a non-empty [old]: occurrences are found
    left to right and do not overlap.  [skip] counts the characters of a
    match that remain to be dropped. *)
Fixpoint replace_from (old new : str) (skip : nat) (s : str) : str :=
  match s with
  | [] => []
  | c :: r =>
      match skip with
      | S k => replace_from old new k r
      | O =>
          if starts_with old s
          then new ++ replace_from old new (length old - 1) r
          else c :: replace_from old new 0 r
      end
  end.

(** With an empty [old], Python puts [new] before every character and at
    the end. *)
Definition replace (old new : str) (s : str) : str :=
  match old with
  | [] => new ++ flat_map (fun c => c :: new) s
  | _ :: _ => replace_from old new 0 s
  end.

(** ** Outcomes *)

(** The exception classes the evaluator and its host raise; messages are
    dropped except for the name a [NameError] carries. *)
Inductive exn : Type :=
| SyntaxError
| ValueError
| TypeError
| KeyError
| AttributeError
| ZeroDivisionError
| OverflowError
| NameError (name : str).

Inductive result (A : Type) : Type :=
| Ok (a : A)
| Raise (e : exn)
| OutsideModel.

Arguments Ok {A} a.
Arguments Raise {A} e.
Arguments OutsideModel {A}.

Definition bind {A B : Type} (r : result A) (k : A -> result B) : result B :=
  match r with
  | Ok a => k a
  | Raise e => Raise e
  | OutsideModel => OutsideModel
  end.

Notation "x <- c1 ;; c2" := (bind c1 (fun x => c2))
  (at level 61, c1 at next level, right associativity).
Notation "' pat <- c1 ;; c2" := (bind c1 (fun x => match x with pat => c2 end))
  (at level 61, pat pattern, c1 at next level, right associativity).

(** ** Values *)

(** The objects a constant of the modelled token fragment can denote.
    Python's [int] is unbounded, its [float] is an IEEE binary64. *)
Inductive value : Type :=
| VInt (n : Z)
| VFloat (f : float)
| VBool (b : bool)
| VNone
| VEllipsis.

Definition math_pi : float := 0x1.921fb54442d18p+1%float.
Definition math_e : float := 0x1.5bf0a8b145769p+1%float.

(** ** Host arithmetic *)

(** An integer as an exact (not normalised) binary float specification. *)
Definition Z2SF (n : Z) : spec_float :=
  match n with
  | Z0 => S754_zero false
  | Zpos p => S754_finite false p 0
  | Zneg p => S754_finite true p 0
  end.

(** [PyLong_AsDouble]: the nearest double, ties to even; an [int] beyond
    the range of a double raises [OverflowError]. *)
Definition PyLong_AsDouble (n : Z) : result float :=
  match binary_normalize prec emax n 0 false with
  | S754_infinity _ => Raise OverflowError
  | f => Ok (SF2Prim f)
  end.

(** [bool] is a subclass of [int]. *)
Definition int_like (v : value) : option Z :=
  match v with
  | VInt n => Some n
  | VBool b => Some (if b then 1 else 0)%Z
  | _ => None
  end.

Definition is_number (v : value) : bool :=
  match v with
  | VInt _ | VFloat _ | VBool _ => true
  | _ => false
  end.

(** [PyFloat_AsDouble] / [CONVERT_TO_DOUBLE]. *)
Definition as_double (v : value) : result float :=
  match v with
  | VFloat f => Ok f
  | VInt n => PyLong_AsDouble n
  | VBool b => PyLong_AsDouble (if b then 1 else 0)
  | _ => Raise TypeError
  end.

(** What the C library supplies.  A function answers [None] where this
    model does not know the library's value. *)
Record Libm : Type := {
  c_sin : float -> option float;
  c_cos : float -> option float;
  c_tan : float -> option float;
  c_asin : float -> option float;
  c_acos : float -> option float;
  c_atan : float -> option float;
  c_log : float -> option float;
  c_log10 : float -> option float;
  c_fmod : float -> float -> option float;
  (** [float.__pow__] on two doubles, special cases included (it may raise
      [ZeroDivisionError] or [OverflowError], or leave the reals). *)
  float_pow : float -> float -> result value
}.

Definition of_libm (o : option float) : result float :=
  match o with
  | Some r => Ok r
  | None => OutsideModel
  end.

(** Binary arithmetic on two objects: [int] with [int] stays exact, a
    [float] operand converts the other one, left operand first. *)
Definition arith (iop : Z -> Z -> result value)
    (fop : float -> float -> result value) (a b : value) : result value :=
  match int_like a, int_like b with
  | Some x, Some y => iop x y
  | _, _ =>
      if is_number a && is_number b
      then x <- as_double a ;; y <- as_double b ;; fop x y
      else Raise TypeError
  end.

Definition op_add : value -> value -> result value :=
  arith (fun x y => Ok (VInt (x + y))) (fun x y => Ok (VFloat (x + y))).

Definition op_sub : value -> value -> result value :=
  arith (fun x y => Ok (VInt (x - y))) (fun x y => Ok (VFloat (x - y))).

Definition op_mul : value -> value -> result value :=
  arith (fun x y => Ok (VInt (x * y))) (fun x y => Ok (VFloat (x * y))).

(** [int / int]: the correctly rounded quotient. *)
Definition long_true_divide (a b : Z) : result value :=
  if (b =? 0)%Z then Raise ZeroDivisionError
  else match SFdiv prec emax (Z2SF a) (Z2SF b) with
       | S754_infinity _ => Raise OverflowError
       | q => Ok (VFloat (SF2Prim q))
       end.

Definition float_div (a b : float) : result value :=
  if (b =? 0)%float then Raise ZeroDivisionError else Ok (VFloat (a / b)).

Definition op_truediv : value -> value -> result value :=
  arith long_true_divide float_div.

(** [int % int] takes the sign of the divisor, as [Z.modulo] does. *)
Definition long_mod (a b : Z) : result value :=
  if (b =? 0)%Z then Raise ZeroDivisionError else Ok (VInt (a mod b)).

(** [float_rem]: C's [fmod], moved to the sign of the divisor. *)
Definition float_rem (L : Libm) (vx wx : float) : result value :=
  if (wx =? 0)%float then Raise ZeroDivisionError
  else
    m <- of_libm (c_fmod L vx wx) ;;
    if (m =? 0)%float
    then Ok (VFloat (if (wx <? 0)%float then neg_zero else zero))
    else if Bool.eqb (wx <? 0)%float (m <? 0)%float
         then Ok (VFloat m)
         else Ok (VFloat (m + wx)).

Definition op_mod (L : Libm) : value -> value -> result value :=
  arith long_mod (float_rem L).

(** [int ** int] is exact for an exponent that is not negative, and is
    handed to [float.__pow__] otherwise. *)
Definition long_pow (L : Libm) (a b : Z) : result value :=
  if (0 <=? b)%Z then Ok (VInt (a ^ b))
  else x <- PyLong_AsDouble a ;; y <- PyLong_AsDouble b ;; float_pow L x y.

Definition op_pow (L : Libm) : value -> value -> result value :=
  arith (long_pow L) (float_pow L).

Definition op_neg (v : value) : result value :=
  match v with
  | VFloat f => Ok (VFloat (- f))
  | _ => match int_like v with
         | Some n => Ok (VInt (- n))
         | None => Raise TypeError
         end
  end.

(** ** The tables of [MathParser.__init__] *)

(** [ast]'s operator classes. *)
Inductive operator : Type :=
| Add | Sub | Mult | Div | FloorDiv | Mod | Pow.

Inductive unaryop : Type :=
| USub | UAdd | Not | Invert.

(** [self.operators], the entries keyed by a binary operator class... *)
Definition operators (L : Libm) (o : operator)
    : option (value -> value -> result value) :=
  match o with
  | Add => Some op_add
  | Sub => Some op_sub
  | Mult => Some op_mul
  | Div => Some op_truediv
  | Pow => Some (op_pow L)
  | Mod => Some (op_mod L)
  | FloorDiv => None
  end.

(** ... and those keyed by a unary one; [ast.UAdd] maps to
    [lambda x: x]. *)
Definition unary_operators (o : unaryop) : option (value -> result value) :=
  match o with
  | USub => Some op_neg
  | UAdd => Some (fun x => Ok x)
  | Not | Invert => None
  end.

(** [self.constants]. *)
Definition constants (id : str) : option value :=
  if str_eqb id (py "pi") then Some (VFloat math_pi)
  else if str_eqb id (py "e") then Some (VFloat math_e)
  else None.

(** [math_1]: call a libm function and turn a NaN or an infinity it made
    out of a finite argument into [ValueError]. *)
Definition math_1 (f : float -> option float) (x : float) : result value :=
  r <- of_libm (f x) ;;
  if is_nan r && negb (is_nan x) then Raise ValueError
  else if is_infinity r && is_finite x then Raise ValueError
  else Ok (VFloat r).

(** [m_log] and [m_log10]: the domain is checked before libm is asked. *)
Definition m_log (clog : float -> option float) (x : float) : option float :=
  if is_finite x then
    if (0 <? x)%float then clog x
    else if (x =? 0)%float then Some neg_infinity
    else Some nan
  else if is_nan x then Some x
  else if (0 <? x)%float then Some x
  else Some nan.

(** [loghelper]: an [int] is tested for positivity as an integer.  (For an
    [int] too large for a double CPython splits off the exponent; that
    branch is outside the model.) *)
Definition loghelper (clog : float -> option float) (a : value)
    : result value :=
  match int_like a with
  | Some n =>
      if (n <=? 0)%Z then Raise ValueError
      else match PyLong_AsDouble n with
           | Ok x => r <- of_libm (m_log clog x) ;; Ok (VFloat r)
           | _ => OutsideModel
           end
  | None => x <- as_double a ;; math_1 (m_log clog) x
  end.

(** A [math] function of exactly one argument: the number of arguments
    is checked before the argument is converted. *)
Definition unary (f : value -> result value) (args : list value)
    : result value :=
  match args with
  | [a] => f a
  | _ => Raise TypeError
  end.

Definition libm_unary (f : float -> option float) : list value -> result value :=
  unary (fun a => x <- as_double a ;; math_1 f x).

(** [math.radians]: [x * (pi / 180)]. *)
Definition math_radians : list value -> result value :=
  unary (fun a => x <- as_double a ;; Ok (VFloat (x * (math_pi / 180))%float)).

(** [math.log(x[, base])]: one or two arguments. *)
Definition math_log (L : Libm) (args : list value) : result value :=
  match args with
  | [x] => loghelper (c_log L) x
  | [x; base] =>
      num <- loghelper (c_log L) x ;;
      den <- loghelper (c_log L) base ;;
      op_truediv num den
  | _ => Raise TypeError
  end.

(** [self.functions]. *)
Definition functions (L : Libm) (fname : str)
    : option (list value -> result value) :=
  if str_eqb fname (py "sin") then Some (libm_unary (c_sin L))
  else if str_eqb fname (py "cos") then Some (libm_unary (c_cos L))
  else if str_eqb fname (py "tan") then Some (libm_unary (c_tan L))
  else if str_eqb fname (py "asin") then Some (libm_unary (c_asin L))
  else if str_eqb fname (py "acos") then Some (libm_unary (c_acos L))
  else if str_eqb fname (py "atan") then Some (libm_unary (c_atan L))
  else if str_eqb fname (py "log") then Some (unary (loghelper (c_log10 L)))
  else if str_eqb fname (py "ln") then Some (math_log L)
  else if str_eqb fname (py "sqrt")
       then Some (libm_unary (fun x => Some (PrimFloat.sqrt x)))
  else if str_eqb fname (py "radians") then Some math_radians
  else None.

(** ** Syntax trees *)

(** The node classes [ast.parse] builds from the modelled tokens.
    [keywords] holds the values of the [**] arguments of a call. *)
Inductive expr : Type :=
| Constant (v : value)
| Name (id : str)
| BinOp (left : expr) (op : operator) (right : expr)
| UnaryOp (op : unaryop) (operand : expr)
| Call (func : expr) (args : list expr) (keywords : list expr)
| Attribute (obj : expr) (attr : str)
| Tuple (elts : list expr)
| Starred (obj : expr).

(** ** [MathParser._eval] *)

Fixpoint _eval (L : Libm) (node : expr) {struct node} : result value :=
  match node with
  | Constant v => Ok v
  | Name id =>
      match constants id with
      | Some v => Ok v
      | None => Raise (NameError id)
      end
  | BinOp l o r =>
      match operators L o with
      | None => Raise KeyError
      | Some f => a <- _eval L l ;; b <- _eval L r ;; f a b
      end
  | UnaryOp o e =>
      match unary_operators o with
      | None => Raise KeyError
      | Some f => a <- _eval L e ;; f a
      end
  | Call func args _ =>
      match func with
      | Name fname =>
          match functions L fname with
          | None => Raise (NameError fname)
          | Some f =>
              vs <- (fix eval_args (l : list expr) : result (list value) :=
                       match l with
                       | [] => Ok []
                       | a :: t =>
                           v <- _eval L a ;; vs <- eval_args t ;; Ok (v :: vs)
                       end) args ;;
              f vs
          end
      | _ => Raise AttributeError
      end
  | Attribute _ _ | Tuple _ | Starred _ => Raise TypeError
  end.

(** The list comprehension of the [ast.Call] branch, named. *)
Fixpoint eval_args (L : Libm) (l : list expr) : result (list value) :=
  match l with
  | [] => Ok []
  | a :: t => v <- _eval L a ;; vs <- eval_args L t ;; Ok (v :: vs)
  end.

(** ** Regular expressions *)

(** The constructs the three patterns of [evaluate] use. *)
Inductive regex : Type :=
| RChar (c : ascii)
| RClass (p : ascii -> bool)
| RSeq (a b : regex)
| RAlt (a b : regex)
| RStar (a : regex)
| RGroup (g : nat) (a : regex)
| RNotBehind (p : ascii -> bool).

Definition captures : Type := list (nat * str).

(** A backtracking matcher in continuation-passing style: alternatives
    are tried in order, a star is greedy.  [prev] is the character before
    the current position, which a lookbehind reads; the continuation
    receives the text the expression matched and the text that is left. *)
Fixpoint rmatch (R : Type) (r : regex) (prev : option ascii) (s : str)
    (caps : captures)
    (k : option ascii -> str -> str -> captures -> option R) {struct r}
    : option R :=
  match r with
  | RChar c =>
      match s with
      | x :: s' => if ascii_eqb x c then k (Some x) [x] s' caps else None
      | [] => None
      end
  | RClass p =>
      match s with
      | x :: s' => if p x then k (Some x) [x] s' caps else None
      | [] => None
      end
  | RSeq a b =>
      rmatch a prev s caps
        (fun p1 m1 s1 c1 =>
           rmatch b p1 s1 c1 (fun p2 m2 s2 c2 => k p2 (m1 ++ m2) s2 c2))
  | RAlt a b =>
      match rmatch a prev s caps k with
      | Some x => Some x
      | None => rmatch b prev s caps k
      end
  | RStar a =>
      (fix star (n : nat) (prev : option ascii) (m : str) (s : str)
         (caps : captures) : option R :=
         match n with
         | O => k prev m s caps
         | S n' =>
             match rmatch a prev s caps
                     (fun p1 m1 s1 c1 =>
                        match m1 with
                        | [] => None
                        | _ :: _ => star n' p1 (m ++ m1) s1 c1
                        end) with
             | Some x => Some x
             | None => k prev m s caps
             end
         end) (length s) prev [] s caps
  | RGroup g a =>
      rmatch a prev s caps (fun p1 m1 s1 c1 => k p1 m1 s1 ((g, m1) :: c1))
  | RNotBehind p =>
      match prev with
      | Some c => if p c then None else k prev [] s caps
      | None => k prev [] s caps
      end
  end.

(** One match attempt at the current position: the groups, the matched
    text, the character before the end of the match and the text left.
    After an empty match the next attempt at the same position must
    advance. *)
Definition match_at (r : regex) (prev : option ascii) (s : str)
    (must_advance : bool) : option (captures * str * option ascii * str) :=
  rmatch r prev s []
    (fun prev' m s' caps =>
       match m with
       | [] => if must_advance then None else Some (caps, m, prev', s')
       | _ :: _ => Some (caps, m, prev', s')
       end).

(** A replacement template: literal characters and group references. *)
Inductive titem : Type :=
| TLit (c : ascii)
| TRef (g : nat).

Fixpoint group (g : nat) (caps : captures) : str :=
  match caps with
  | [] => []
  | (h, t) :: rest => if (h =? g)%nat then t else group g rest
  end.

Fixpoint expand (tpl : list titem) (caps : captures) : str :=
  match tpl with
  | [] => []
  | TLit c :: t => c :: expand t caps
  | TRef g :: t => group g caps ++ expand t caps
  end.

(** [re.sub]: the leftmost match is replaced and the scan resumes where
    it ended; a character no match starts at is copied. *)
Fixpoint sub_loop (fuel : nat) (r : regex) (tpl : list titem)
    (prev : option ascii) (s : str) (must_advance : bool) : str :=
  match fuel with
  | O => s
  | S f =>
      match match_at r prev s must_advance with
      | Some (caps, m, prev', rest) =>
          expand tpl caps ++
          match m with
          | [] => sub_loop f r tpl prev s true
          | _ :: _ => sub_loop f r tpl prev' rest false
          end
      | None =>
          match s with
          | [] => []
          | c :: s' => c :: sub_loop f r tpl (Some c) s' false
          end
      end
  end.

Definition re_sub (r : regex) (tpl : list titem) (s : str) : str :=
  sub_loop (2 * length s + 2) r tpl None s false.

Definition lit (s : string) : list titem := map TLit (py s).

(** [(\d)(pi|e|\()] *)
Definition mul_digit_re : regex :=
  RSeq (RGroup 1 (RClass is_digit))
       (RGroup 2 (RAlt (RSeq (RChar "p") (RChar "i"))
                       (RAlt (RChar "e") (RChar "(")))).

(** [(\))(\d|\()] *)
Definition mul_paren_re : regex :=
  RSeq (RGroup 1 (RChar ")"))
       (RGroup 2 (RAlt (RClass is_digit) (RChar "("))).

(** [\1*\2] *)
Definition mul_tpl : list titem := [TRef 1; TLit "*"; TRef 2].

(** [(?<![a-zA-Z_])(?P<fn>sin|cos|tan)\s*\(] *)
Definition _trig_re : regex :=
  RSeq (RNotBehind is_name_start)
       (RSeq (RGroup 1
                (RAlt (RSeq (RChar "s") (RSeq (RChar "i") (RChar "n")))
                (RAlt (RSeq (RChar "c") (RSeq (RChar "o") (RChar "s")))
                      (RSeq (RChar "t") (RSeq (RChar "a") (RChar "n"))))))
             (RSeq (RStar (RClass is_space)) (RChar "("))).

(** [\g<fn>(radians(] *)
Definition trig_tpl : list titem := TRef 1 :: lit "(radians(".

(** ** The text [evaluate] hands to [ast.parse] *)

(** The two symbols, UTF-8 encoded. *)
Definition sym_pi : str := ["207"; "128"]%char.
Definition sym_sqrt : str := ["226"; "136"; "154"]%char.

Definition normalize (e : str) : str :=
  replace sym_sqrt (py "sqrt") (replace (py "^") (py "**") (replace sym_pi (py "pi") e)).

Definition implicit_mul (e : str) : str :=
  re_sub mul_paren_re mul_tpl (re_sub mul_digit_re mul_tpl e).

Definition degrees_rewrite (use_degrees : bool) (e : str) : str :=
  if use_degrees then re_sub _trig_re trig_tpl e else e.

Definition balance (e : str) : str :=
  let opens := count_char "(" e in
  let closes := count_char ")" e in
  if (closes <? opens)%nat then e ++ repeat ")"%char (opens - closes) else e.

(** Lines 45-54, on the stripped text. *)
Definition preprocess (use_degrees : bool) (e : str) : str :=
  balance (degrees_rewrite use_degrees (implicit_mul (normalize e))).

(** ** Tokens *)

(** The tokens of the modelled fragment of Python: numbers, names, the
    three constant keywords, the ellipsis, and the operators and
    delimiters written with [. + - * / % ( ) ,]. *)
Inductive token : Type :=
| TNum (v : value)
| TName (id : str)
| TTrue | TFalse | TNone | TEllipsis
| TDot | TPlus | TMinus | TStar | TSlash | TDSlash | TPercent | TDStar
| TLPar | TRPar | TComma.

(** The value of a digit string, read left to right. *)
Definition digit_val (c : ascii) : Z := Z.of_nat (code c) - 48.

Definition digits_to_Z (ds : str) : Z :=
  fold_left (fun acc c => acc * 10 + digit_val c)%Z ds 0%Z.

(** The double nearest to [m * 10 ^ e10], as [float()] of a literal
    gives it. *)
Definition float_of_dec (m e10 : Z) : float :=
  if (0 <=? e10)%Z
  then SF2Prim (binary_normalize prec emax (m * 10 ^ e10) 0 false)
  else SF2Prim (SFdiv prec emax (Z2SF m) (Z2SF (10 ^ (- e10)))).

(** Python's keywords other than [True], [False] and [None]; an
    expression that uses one is outside the model. *)
Definition other_keywords : list str :=
  map py ["and"; "as"; "assert"; "async"; "await"; "break"; "class";
          "continue"; "def"; "del"; "elif"; "else"; "except"; "finally";
          "for"; "from"; "global"; "if"; "import"; "in"; "is"; "lambda";
          "nonlocal"; "not"; "or"; "pass"; "raise"; "return"; "try";
          "while"; "with"; "yield"]%string.

Inductive step : Type :=
| SDone
| SSkip (rest : str)
| STok (t : token) (rest : str)
| SErr (e : exn)
| SOut.

Definition lex_name (s : str) : step :=
  let (w, r) := span is_name_char s in
  if str_eqb w (py "True") then STok TTrue r
  else if str_eqb w (py "False") then STok TFalse r
  else if str_eqb w (py "None") then STok TNone r
  else if existsb (str_eqb w) other_keywords then SOut
  else STok (TName w) r.

(** The exponent part [[eE][+-]?digits], when one follows. *)
Definition lex_exponent (s : str) : option Z * str :=
  match s with
  | e :: r =>
      if ascii_eqb e "e" || ascii_eqb e "E" then
        match r with
        | d :: r1 =>
            if is_digit d then
              let (ds, r') := span is_digit r in (Some (digits_to_Z ds), r')
            else if ascii_eqb d "+" || ascii_eqb d "-" then
              match r1 with
              | d1 :: _ =>
                  if is_digit d1 then
                    let (ds, r') := span is_digit r1 in
                    (Some (if ascii_eqb d "-" then - digits_to_Z ds
                           else digits_to_Z ds)%Z, r')
                  else (None, s)
              | [] => (None, s)
              end
            else (None, s)
        | [] => (None, s)
        end
      else (None, s)
  | [] => (None, s)
  end.

(** A decimal integer or float literal.  A literal that a letter or an
    underscore follows directly (a digit separator, a radix prefix, an
    imaginary suffix, a keyword) is outside the model. *)
Definition lex_number (s : str) : step :=
  let (ip, r1) := span is_digit s in
  let '(fp, r2) :=
    match r1 with
    | c :: r =>
        if ascii_eqb c "."
        then let (f, r') := span is_digit r in (Some f, r')
        else (None, r1)
    | [] => (None, r1)
    end in
  let '(ex, r3) := lex_exponent r2 in
  if match r3 with c :: _ => is_name_start c | [] => false end then SOut
  else
    match fp, ex with
    | None, None =>
        match ip with
        | z :: _ :: _ =>
            if ascii_eqb z "0" && negb (forallb (ascii_eqb "0") ip)
            then SErr SyntaxError
            else STok (TNum (VInt (digits_to_Z ip))) r3
        | _ => STok (TNum (VInt (digits_to_Z ip))) r3
        end
    | _, _ =>
        let f := match fp with Some f => f | None => [] end in
        let x := match ex with Some x => x | None => 0%Z end in
        STok (TNum (VFloat (float_of_dec (digits_to_Z (ip ++ f))
                              (x - Z.of_nat (length f))))) r3
    end.

(** A comment runs to the end of the text; one that holds a line break
    or a byte beyond ASCII is outside the model. *)
Definition comment_ok (c : ascii) : bool :=
  (code c <? 128)%nat && negb ((10 <=? code c)%nat && (code c <=? 13)%nat).

Definition lex_step (s : str) : step :=
  match s with
  | [] => SDone
  | c :: r =>
      if ascii_eqb c " " || ascii_eqb c "009" then SSkip r
      else if ascii_eqb c "#" then (if forallb comment_ok r then SDone else SOut)
      else if is_name_start c then lex_name s
      else if is_digit c then lex_number s
      else if ascii_eqb c "." then
        match r with
        | d :: r1 =>
            if is_digit d then lex_number s
            else if ascii_eqb d "." then
              match r1 with
              | d1 :: r2 => if ascii_eqb d1 "." then STok TEllipsis r2
                            else STok TDot r
              | [] => STok TDot r
              end
            else STok TDot r
        | [] => STok TDot r
        end
      else if ascii_eqb c "+" then STok TPlus r
      else if ascii_eqb c "-" then STok TMinus r
      else if ascii_eqb c "*" then
        match r with
        | d :: r1 => if ascii_eqb d "*" then STok TDStar r1 else STok TStar r
        | [] => STok TStar r
        end
      else if ascii_eqb c "/" then
        match r with
        | d :: r1 => if ascii_eqb d "/" then STok TDSlash r1 else STok TSlash r
        | [] => STok TSlash r
        end
      else if ascii_eqb c "%" then STok TPercent r
      else if ascii_eqb c "(" then STok TLPar r
      else if ascii_eqb c ")" then STok TRPar r
      else if ascii_eqb c "," then STok TComma r
      else SOut
  end.

Fixpoint tokenize (fuel : nat) (s : str) : result (list token) :=
  match fuel with
  | O => OutsideModel
  | S n =>
      match lex_step s with
      | SDone => Ok []
      | SSkip r => tokenize n r
      | STok t r => ts <- tokenize n r ;; Ok (t :: ts)
      | SErr e => Raise e
      | SOut => OutsideModel
      end
  end.

(** ** The expression grammar *)

Definition parsed : Type := result (expr * list token).

Definition is_starred (e : expr) : bool :=
  match e with
  | Starred _ => true
  | _ => false
  end.

(** Python's rules [sum], [term], [factor], [power], [primary] and
    [atom], restricted to the tokens above; a function returns the tree
    it read and the tokens that follow it. *)
Fixpoint parse_sum (n : nat) (ts : list token) {struct n} : parsed :=
  match n with
  | O => OutsideModel
  | S n => '(l, r) <- parse_term n ts ;; sum_rest n l r
  end
with sum_rest (n : nat) (l : expr) (ts : list token) {struct n} : parsed :=
  match n with
  | O => OutsideModel
  | S n =>
      match ts with
      | TPlus :: r => '(t, r') <- parse_term n r ;; sum_rest n (BinOp l Add t) r'
      | TMinus :: r => '(t, r') <- parse_term n r ;; sum_rest n (BinOp l Sub t) r'
      | _ => Ok (l, ts)
      end
  end
with parse_term (n : nat) (ts : list token) {struct n} : parsed :=
  match n with
  | O => OutsideModel
  | S n => '(l, r) <- parse_factor n ts ;; term_rest n l r
  end
with term_rest (n : nat) (l : expr) (ts : list token) {struct n} : parsed :=
  match n with
  | O => OutsideModel
  | S n =>
      match ts with
      | TStar :: r => '(t, r') <- parse_factor n r ;; term_rest n (BinOp l Mult t) r'
      | TSlash :: r => '(t, r') <- parse_factor n r ;; term_rest n (BinOp l Div t) r'
      | TDSlash :: r =>
          '(t, r') <- parse_factor n r ;; term_rest n (BinOp l FloorDiv t) r'
      | TPercent :: r => '(t, r') <- parse_factor n r ;; term_rest n (BinOp l Mod t) r'
      | _ => Ok (l, ts)
      end
  end
with parse_factor (n : nat) (ts : list token) {struct n} : parsed :=
  match n with
  | O => OutsideModel
  | S n =>
      match ts with
      | TPlus :: r => '(e, r') <- parse_factor n r ;; Ok (UnaryOp UAdd e, r')
      | TMinus :: r => '(e, r') <- parse_factor n r ;; Ok (UnaryOp USub e, r')
      | _ => parse_power n ts
      end
  end
with parse_power (n : nat) (ts : list token) {struct n} : parsed :=
  match n with
  | O => OutsideModel
  | S n =>
      '(b, r) <- parse_primary n ts ;;
      match r with
      | TDStar :: r' => '(e, r'') <- parse_factor n r' ;; Ok (BinOp b Pow e, r'')
      | _ => Ok (b, r)
      end
  end
with parse_primary (n : nat) (ts : list token) {struct n} : parsed :=
  match n with
  | O => OutsideModel
  | S n => '(a, r) <- parse_atom n ts ;; primary_rest n a r
  end
with primary_rest (n : nat) (a : expr) (ts : list token) {struct n} : parsed :=
  match n with
  | O => OutsideModel
  | S n =>
      match ts with
      | TDot :: TName id :: r => primary_rest n (Attribute a id) r
      | TDot :: _ => Raise SyntaxError
      | TLPar :: TRPar :: r => primary_rest n (Call a [] []) r
      | TLPar :: r =>
          '(args, kws, r') <- parse_args n false r ;;
          primary_rest n (Call a args kws) r'
      | _ => Ok (a, ts)
      end
  end
with parse_atom (n : nat) (ts : list token) {struct n} : parsed :=
  match n with
  | O => OutsideModel
  | S n =>
      match ts with
      | TNum v :: r => Ok (Constant v, r)
      | TName id :: r => Ok (Name id, r)
      | TTrue :: r => Ok (Constant (VBool true), r)
      | TFalse :: r => Ok (Constant (VBool false), r)
      | TNone :: r => Ok (Constant VNone, r)
      | TEllipsis :: r => Ok (Constant VEllipsis, r)
      | TLPar :: TRPar :: r => Ok (Tuple [], r)
      | TLPar :: r =>
          '(e, r1) <- group_item n r ;;
          match r1 with
          | TRPar :: r2 =>
              if is_starred e then Raise SyntaxError else Ok (e, r2)
          | TComma :: r2 =>
              '(es, r3) <- tuple_rest n r2 ;; Ok (Tuple (e :: es), r3)
          | _ => Raise SyntaxError
          end
      | _ => Raise SyntaxError
      end
  end
with group_item (n : nat) (ts : list token) {struct n} : parsed :=
  match n with
  | O => OutsideModel
  | S n =>
      match ts with
      | TStar :: r => '(e, r') <- parse_sum n r ;; Ok (Starred e, r')
      | _ => parse_sum n ts
      end
  end
with tuple_rest (n : nat) (ts : list token) {struct n}
    : result (list expr * list token) :=
  match n with
  | O => OutsideModel
  | S n =>
      match ts with
      | TRPar :: r => Ok ([], r)
      | _ =>
          '(e, r1) <- group_item n ts ;;
          match r1 with
          | TRPar :: r2 => Ok ([e], r2)
          | TComma :: r2 => '(es, r3) <- tuple_rest n r2 ;; Ok (e :: es, r3)
          | _ => Raise SyntaxError
          end
      end
  end
with parse_args (n : nat) (seen_kw : bool) (ts : list token) {struct n}
    : result (list expr * list expr * list token) :=
  match n with
  | O => OutsideModel
  | S n =>
      '(ak, r1) <-
        match ts with
        | TDStar :: r => '(e, r') <- parse_sum n r ;; Ok (([], [e]), r')
        | TStar :: r =>
            if seen_kw then Raise SyntaxError
            else '(e, r') <- parse_sum n r ;; Ok (([Starred e], []), r')
        | _ =>
            if seen_kw then Raise SyntaxError
            else '(e, r') <- parse_sum n ts ;; Ok (([e], []), r')
        end ;;
      let seen := seen_kw || negb (match snd ak with [] => true | _ => false end) in
      match r1 with
      | TRPar :: r2 => Ok (fst ak, snd ak, r2)
      | TComma :: TRPar :: r2 => Ok (fst ak, snd ak, r2)
      | TComma :: r2 =>
          '(args, kws, r3) <- parse_args n seen r2 ;;
          Ok (fst ak ++ args, snd ak ++ kws, r3)
      | _ => Raise SyntaxError
      end
  end.

(** The rule [expressions] of ['eval'] mode: one expression, or a tuple
    written without parentheses; nothing may follow. *)
Fixpoint top_rest (n : nat) (ts : list token) {struct n} : result (list expr) :=
  match n with
  | O => OutsideModel
  | S n =>
      match ts with
      | [] => Ok []
      | _ =>
          '(e, r) <- parse_sum n ts ;;
          match r with
          | [] => Ok [e]
          | TComma :: r' => es <- top_rest n r' ;; Ok (e :: es)
          | _ => Raise SyntaxError
          end
      end
  end.

Definition parse_expressions (n : nat) (ts : list token) : result expr :=
  '(e, r) <- parse_sum n ts ;;
  match r with
  | [] => Ok e
  | TComma :: r' => es <- top_rest n r' ;; Ok (Tuple (e :: es))
  | _ => Raise SyntaxError
  end.

Definition parse_fuel (ts : list token) : nat := 12 * length ts + 12.

(** [ast.parse(text, mode='eval').body].  Text that starts with a blank
    is an [IndentationError], a subclass of [SyntaxError]. *)
Definition ast_parse (text : str) : result expr :=
  match text with
  | c :: _ =>
      if ascii_eqb c " " || ascii_eqb c "009" then Raise SyntaxError
      else ts <- tokenize (length text + 1) text ;;
           parse_expressions (parse_fuel ts) ts
  | [] => Raise SyntaxError
  end.

(** ** [MathParser.evaluate] *)

Definition evaluate (L : Libm) (use_degrees : bool) (expression : str)
    : result value :=
  let expression := strip expression in
  match expression with
  | [] => Raise ValueError
  | _ => node <- ast_parse (preprocess use_degrees expression) ;; _eval L node
  end.

(** ** ['{:.8g}'.format(res)] in [run_math] *)

(** [a / b] for positive [b], rounded to the nearest integer, ties to
    even. *)
Definition round_half_even (a b : Z) : Z :=
  let q := (a / b)%Z in
  match (2 * (a mod b) ?= b)%Z with
  | Lt => q
  | Gt => (q + 1)%Z
  | Eq => if Z.even q then q else (q + 1)%Z
  end.

Definition pow10_le (X N D : Z) : bool :=
  if (0 <=? X)%Z then (10 ^ X * D <=? N)%Z else (D <=? N * 10 ^ (- X))%Z.

(** The largest exponent [X' <= X] with [10 ^ X' <= N / D]. *)
Fixpoint decimal_exponent (fuel : nat) (X N D : Z) : Z :=
  match fuel with
  | O => X
  | S f => if pow10_le X N D then X else decimal_exponent f (X - 1) N D
  end.

Definition digit_char (d : Z) : ascii := ascii_of_nat (48 + Z.to_nat d).

(** The last [n] decimal digits of [q], most significant first. *)
Fixpoint digits_of (n : nat) (q : Z) : str :=
  match n with
  | O => []
  | S k => digits_of k (q / 10) ++ [digit_char (q mod 10)]
  end.

Fixpoint drop_zeros (s : str) : str :=
  match s with
  | c :: r => if ascii_eqb c "0" then drop_zeros r else s
  | [] => []
  end.

Definition zeros (n : nat) : str := repeat "0"%char n.

(** The positive number [N / D] to eight significant digits, in the
    general format: fixed notation for a decimal exponent from -4 to 7,
    scientific notation otherwise; trailing zeros are removed. *)
Definition format_pos (N D : Z) : str :=
  let X0 := decimal_exponent 640 309 N D in
  let q0 := if (X0 <=? 7)%Z then round_half_even (N * 10 ^ (7 - X0)) D
            else round_half_even N (D * 10 ^ (X0 - 7)) in
  let '(q, X) := if (q0 =? 10 ^ 8)%Z then (10 ^ 7, X0 + 1)%Z else (q0, X0) in
  let ds := rev (drop_zeros (rev (digits_of 8 q))) in
  if (X <? -4)%Z || (8 <=? X)%Z then
    let ax := Z.abs X in
    firstn 1 ds
    ++ (match skipn 1 ds with [] => [] | f => "."%char :: f end)
    ++ "e"%char :: (if (X <? 0)%Z then "-"%char else "+"%char)
    :: (if (ax <? 100)%Z then digits_of 2 ax else digits_of 3 ax)
  else if (0 <=? X)%Z then
    let k := S (Z.to_nat X) in
    firstn k (ds ++ zeros k)
    ++ (match skipn k ds with [] => [] | f => "."%char :: f end)
  else
    py "0." ++ zeros (Z.to_nat (- X - 1)) ++ ds.

Definition format_float (f : float) : str :=
  match Prim2SF f with
  | S754_zero s => if s then py "-0" else py "0"
  | S754_infinity s => if s then py "-inf" else py "inf"
  | S754_nan => py "nan"
  | S754_finite s m e =>
      (if s then py "-" else [])
      ++ (if (0 <=? e)%Z then format_pos (Zpos m * 2 ^ e) 1
          else format_pos (Zpos m) (2 ^ (- e)))
  end.

(** An [int] (and so a [bool]) is converted to a [float] first. *)
Definition format_8g (v : value) : result str :=
  match v with
  | VFloat f => Ok (format_float f)
  | VNone | VEllipsis => Raise TypeError
  | _ => x <- as_double v ;; Ok (format_float x)
  end.

(** ** A table of libm values *)

(** The values of the C library (glibc) at the arguments the examples of
    this file use; any other argument is left unanswered. *)
Definition tabulate (t : list (float * float)) (x : float) : option float :=
  match find (fun p => PrimFloat.Leibniz.eqb (fst p) x) t with
  | Some p => Some (snd p)
  | None => None
  end.

Definition libm_table : Libm := {|
  c_sin := tabulate [(0x1.921fb54442d18p+0, 1);
                     (0x1.490fdaa22168cp+1, 0x1.14a280fb5068cp-1);
                     (0x1.1df46a2529d39p-6, 0x1.1df0b2b89dd1ep-6)]%float;
  c_cos := tabulate [];
  c_tan := tabulate [];
  c_asin := tabulate [];
  c_acos := tabulate [];
  c_atan := tabulate [];
  c_log := tabulate [(8, 0x1.0a2b23f3bab73p+1);
                     (2, 0x1.62e42fefa39efp-1)]%float;
  c_log10 := tabulate [];
  c_fmod := fun _ _ => None;
  float_pow := fun _ _ => OutsideModel
|}.

(** The names of the function table whose host function takes exactly
    one argument, and all the names of the table. *)
Definition unary_names : list str :=
  map py ["sin"; "cos"; "tan"; "asin"; "acos"; "atan"; "log"; "sqrt";
          "radians"]%string.

Definition function_names : list str := py "ln" :: unary_names.

(** A number that compares equal to zero. *)
Definition is_zero_value (v : value) : bool :=
  match v with
  | VInt n => (n =? 0)%Z
  | VBool b => negb b
  | VFloat f => (f =? 0)%float
  | _ => false
  end.

(** ** The implicit multiplication, as the specification words it *)

(** What directly after a digit calls for a [*]... *)
Definition factor_follows (r : str) : bool :=
  starts_with (py "pi") r || starts_with (py "e") r || starts_with (py "(") r.

(** ... and what does directly after a closing parenthesis. *)
Definition operand_follows (r : str) : bool :=
  match r with
  | d :: _ => is_digit d || ascii_eqb d "("
  | [] => false
  end.

(** A [*] after every digit that [pi], [e] or [(] follows directly. *)
Fixpoint insert_after_digit (s : str) : str :=
  match s with
  | [] => []
  | c :: r =>
      if is_digit c && factor_follows r
      then c :: "*"%char :: insert_after_digit r
      else c :: insert_after_digit r
  end.

(** A [*] after every closing parenthesis that a digit or [(] follows
    directly. *)
Fixpoint insert_after_paren (s : str) : str :=
  match s with
  | [] => []
  | c :: r =>
      if ascii_eqb c ")" && operand_follows r
      then c :: "*"%char :: insert_after_paren r
      else c :: insert_after_paren r
  end.

(** What a token adds to the nesting depth. *)
Definition paren (t : token) : Z :=
  match t with
  | TLPar => 1
  | TRPar => -1
  | _ => 0
  end.

Fixpoint net (ts : list token) : Z :=
  match ts with
  | [] => 0
  | t :: r => paren t + net r
  end.

(** What a grammar function may answer on [ts] with fuel [n]: a tree and
    the rest [r] of the tokens, the tokens it read being balanced up to
    [d] and, for [strict], not empty; or [SyntaxError]; or nothing, and
    then only for want of fuel. *)
Definition answers (A : Type) (n rank : nat) (d : Z) (strict : bool)
    (ts : list token) (res : result (A * list token)) : Prop :=
  match res with
  | Ok (_, r) =>
      net ts = (d + net r)%Z
      /\ (length r + (if strict then 1 else 0) <= length ts)%nat
  | Raise e => e = SyntaxError
  | OutsideModel => (n < 12 * length ts + rank + 1)%nat
  end.

Definition grammar_answers (n : nat) : Prop :=
  (forall ts, answers n 5 0 true ts (parse_sum n ts))
  /\ (forall l ts, answers n 0 0 false ts (sum_rest n l ts))
  /\ (forall ts, answers n 4 0 true ts (parse_term n ts))
  /\ (forall l ts, answers n 0 0 false ts (term_rest n l ts))
  /\ (forall ts, answers n 3 0 true ts (parse_factor n ts))
  /\ (forall ts, answers n 2 0 true ts (parse_power n ts))
  /\ (forall ts, answers n 1 0 true ts (parse_primary n ts))
  /\ (forall a ts, answers n 0 0 false ts (primary_rest n a ts))
  /\ (forall ts, answers n 0 0 true ts (parse_atom n ts))
  /\ (forall ts, answers n 6 0 true ts (group_item n ts))
  /\ (forall ts, answers n 7 (-1) true ts (tuple_rest n ts))
  /\ (forall b ts, answers n 6 (-1) true ts (parse_args n b ts)).

(** [keeps s r]: [r] is [s] without some of its first characters, none
    of them a parenthesis or a [#]. *)
Definition keeps (s r : str) : Prop :=
  count_char "(" s = count_char "(" r
  /\ count_char ")" s = count_char ")" r
  /\ count_char "#" s = count_char "#" r
  /\ (length r <= length s)%nat.

Definition plain (c : ascii) : bool :=
  negb (ascii_eqb c "(" || ascii_eqb c ")" || ascii_eqb c "#").

Definition token_keeps (s : str) (st : step) : Prop :=
  match st with
  | STok t r => keeps s r /\ paren t = 0%Z
  | SErr _ | SOut => True
  | SDone | SSkip _ => False
  end.

(** The characters of a decimal mantissa. *)
Definition mantissa_char (c : ascii) : bool := is_digit c || ascii_eqb c ".".

(** ** Decimal numerals, read directly *)

(** A decimal integer literal: digits, with no leading zero unless all
    are zeros. *)
Definition int_numeral (ds : str) : bool :=
  match ds with
  | [] => false
  | z :: _ =>
      forallb is_digit ds
      && (negb (ascii_eqb z "0") || forallb (ascii_eqb "0") ds)
  end.

(** The number an unsigned numeral without exponent denotes: digits, or
    digits, a point and digits. *)
Definition read_unsigned (s : str) : option value :=
  let (ip, r) := span is_digit s in
  match ip, r with
  | [], _ => None
  | _, [] => if int_numeral ip then Some (VInt (digits_to_Z ip)) else None
  | _, c :: fp =>
      if ascii_eqb c "." && forallb is_digit fp
      then Some (VFloat (float_of_dec (digits_to_Z (ip ++ fp))
                           (0 - Z.of_nat (length fp))))
      else None
  end.

Definition negated (v : value) : value :=
  match v with
  | VInt n => VInt (- n)
  | VFloat f => VFloat (- f)
  | _ => v
  end.

(** The same with an optional minus sign in front. *)
Definition read_numeral (s : str) : option value :=
  match s with
  | c :: r =>
      if ascii_eqb c "-"
      then option_map negated (read_unsigned r)
      else read_unsigned s
  | [] => None
  end.

(** What may follow a numeral directly without changing how it is
    read. *)
Definition ends_number (rest : str) : bool :=
  match rest with
  | [] => true
  | c :: _ => negb (is_digit c || ascii_eqb c "." || is_name_start c)
  end.

Definition solid (s : str) : bool := forallb (fun c => negb (is_space c)) s.

(** ** Printing a tree with the fewest parentheses *)

(** The grammar rule an operator belongs to: 0 for [sum], 1 for [term],
    2 for [factor], 3 for [power], 4 for [primary]. *)
Definition binop_level (o : operator) : nat :=
  match o with
  | Add | Sub => 0
  | Mult | Div | FloorDiv | Mod => 1
  | Pow => 3
  end.

(** The rules of the two operands: the left operand of a left-associative
    operator is of the operator's own rule, the right one of the next;
    the base of a power is a [primary], its exponent a [factor]. *)
Definition left_level (o : operator) : nat :=
  match o with
  | Pow => 4
  | _ => binop_level o
  end.

Definition right_level (o : operator) : nat :=
  match o with
  | Add | Sub => 1
  | _ => 2
  end.

Definition binop_token (o : operator) : token :=
  match o with
  | Add => TPlus
  | Sub => TMinus
  | Mult => TStar
  | Div => TSlash
  | FloorDiv => TDSlash
  | Mod => TPercent
  | Pow => TDStar
  end.

Definition unary_token (o : unaryop) : token :=
  match o with
  | UAdd => TPlus
  | _ => TMinus
  end.

Definition level (e : expr) : nat :=
  match e with
  | BinOp _ o _ => binop_level o
  | UnaryOp _ _ => 2
  | _ => 4
  end.

(** The trees of arithmetic: numbers, names, the binary operators, the
    two signs, and calls of a name with positional arguments. *)
Fixpoint shaped (e : expr) : bool :=
  match e with
  | Constant (VInt _) | Constant (VFloat _) => true
  | Name _ => true
  | BinOp l _ r => shaped l && shaped r
  | UnaryOp USub a | UnaryOp UAdd a => shaped a
  | Call (Name _) args [] =>
      (fix all (l : list expr) : bool :=
         match l with
         | [] => true
         | a :: l' => shaped a && all l'
         end) args
  | _ => false
  end.

(** [unparse lvl e]: the tokens of [e] where the grammar expects an
    expression of rule [lvl], with parentheses around [e] exactly when
    its own rule comes earlier. *)
Fixpoint unparse (lvl : nat) (e : expr) {struct e} : list token :=
  let body :=
    match e with
    | Constant v => [TNum v]
    | Name id => [TName id]
    | BinOp l o r =>
        unparse (left_level o) l ++ binop_token o :: unparse (right_level o) r
    | UnaryOp o a => unary_token o :: unparse 2 a
    | Call (Name f) args _ =>
        TName f :: TLPar ::
        (fix list_args (l : list expr) : list token :=
           match l with
           | [] => [TRPar]
           | [a] => unparse 0 a ++ [TRPar]
           | a :: l' => unparse 0 a ++ TComma :: list_args l'
           end) args
    | _ => []
    end in
  if (level e <? lvl)%nat then TLPar :: body ++ [TRPar] else body.

(** [ev f res]: with enough fuel [f] answers [res]. *)
Definition ev (A : Type) (f : nat -> result A) (res : result A) : Prop :=
  exists n0, forall n, (n0 <= n)%nat -> f n = res.

(** What may follow a [primary], a [factor] and a [term]: not a token
    that would continue it. *)
Definition after_primary (rest : list token) : bool :=
  match rest with
  | TDot :: _ | TLPar :: _ => false
  | _ => true
  end.

Definition after_factor (rest : list token) : bool :=
  match rest with
  | TDot :: _ | TLPar :: _ | TDStar :: _ => false
  | _ => true
  end.

Definition after_term (rest : list token) : bool :=
  match rest with
  | TDot :: _ | TLPar :: _ | TDStar :: _
  | TStar :: _ | TSlash :: _ | TDSlash :: _ | TPercent :: _ => false
  | _ => true
  end.

Definition after_sum (rest : list token) : bool :=
  match rest with
  | TDot :: _ | TLPar :: _ | TDStar :: _
  | TStar :: _ | TSlash :: _ | TDSlash :: _ | TPercent :: _
  | TPlus :: _ | TMinus :: _ => false
  | _ => true
  end.

(** More fuel does not change an answer. *)
Definition grammar_grows (n : nat) : Prop :=
  (forall ts, parse_sum n ts <> OutsideModel -> parse_sum (S n) ts = parse_sum n ts)
  /\ (forall l ts, sum_rest n l ts <> OutsideModel -> sum_rest (S n) l ts = sum_rest n l ts)
  /\ (forall ts, parse_term n ts <> OutsideModel -> parse_term (S n) ts = parse_term n ts)
  /\ (forall l ts, term_rest n l ts <> OutsideModel -> term_rest (S n) l ts = term_rest n l ts)
  /\ (forall ts, parse_factor n ts <> OutsideModel -> parse_factor (S n) ts = parse_factor n ts)
  /\ (forall ts, parse_power n ts <> OutsideModel -> parse_power (S n) ts = parse_power n ts)
  /\ (forall ts, parse_primary n ts <> OutsideModel -> parse_primary (S n) ts = parse_primary n ts)
  /\ (forall a ts, primary_rest n a ts <> OutsideModel -> primary_rest (S n) a ts = primary_rest n a ts)
  /\ (forall ts, parse_atom n ts <> OutsideModel -> parse_atom (S n) ts = parse_atom n ts)
  /\ (forall ts, group_item n ts <> OutsideModel -> group_item (S n) ts = group_item n ts)
  /\ (forall ts, tuple_rest n ts <> OutsideModel -> tuple_rest (S n) ts = tuple_rest n ts)
  /\ (forall b ts, parse_args n b ts <> OutsideModel -> parse_args (S n) b ts = parse_args n b ts).

(** The arguments of a call, as [unparse] writes them. *)
Fixpoint unparse_args (args : list expr) : list token :=
  match args with
  | [] => [TRPar]
  | [a] => unparse 0 a ++ [TRPar]
  | a :: l' => unparse 0 a ++ TComma :: unparse_args l'
  end.

(** The first token of an operand, and of a [primary]. *)
Definition opens_operand (ts : list token) : bool :=
  match ts with
  | TNum _ :: _ | TName _ :: _ | TLPar :: _ | TPlus :: _ | TMinus :: _ => true
  | _ => false
  end.

Definition opens_primary (ts : list token) : bool :=
  match ts with
  | TNum _ :: _ | TName _ :: _ | TLPar :: _ => true
  | _ => false
  end.

Section Levels.

Variable e : expr.

(** What it is to read [e] back where a [primary], a [power], a
    [factor], a [term] or a [sum] is expected.  For the last two the
    loop that collects further operands goes on with [e] as its left
    operand. *)
Definition reads_primary : Prop :=
  forall rest, after_primary rest = true ->
  ev (fun n => parse_primary n (unparse 4 e ++ rest)) (Ok (e, rest)).

Definition reads_power : Prop :=
  forall rest, after_factor rest = true ->
  ev (fun n => parse_power n (unparse 3 e ++ rest)) (Ok (e, rest)).

Definition reads_factor : Prop :=
  forall rest, after_factor rest = true ->
  ev (fun n => parse_factor n (unparse 2 e ++ rest)) (Ok (e, rest)).

Definition reads_term : Prop :=
  forall rest res, after_factor rest = true ->
  ev (fun n => term_rest n e rest) res ->
  ev (fun n => parse_term n (unparse 1 e ++ rest)) res.

Definition reads_sum : Prop :=
  forall rest res, after_term rest = true ->
  ev (fun n => sum_rest n e rest) res ->
  ev (fun n => parse_sum n (unparse 0 e ++ rest)) res.

Definition reads : Prop :=
  reads_primary /\ reads_power /\ reads_factor /\ reads_term /\ reads_sum.

End Levels.

(** Text that starts with a blank, which [ast.parse] refuses. *)
Definition indented (text : str) : bool :=
  match text with
  | c :: _ => ascii_eqb c " " || ascii_eqb c "009"
  | [] => false
  end.
(** * The calculator [LegendaryCalc]

    The part of the application that is not drawing: the three
    properties [expression], [is_deg] and [mem], the label and the unit
    button that show them, the table [log] of the history database, and
    the handlers [on_key], [run_math], [toggle_unit] and [show_log]
    (main.py, lines 104-228). *)

(** ** The host *)

(** Beside libm, the handlers call [float(text)] (a float, [ValueError],
    or no answer of this model) and [str(x)] for a float [x]. *)
Record Host : Type := {
  libm : Libm;
  py_float : str -> result float;
  float_str : float -> option str
}.

(** ** The state *)

(** [mem] is created as the integer 0 and only ever assigned a float. *)
Inductive memory : Type :=
| MZero
| MFloat (f : float).

(** [log] holds the rows of the table in the order of their rowid, the
    oldest first, as the one connection of the application sees them;
    its statements are taken to succeed.  [flashes] counts the error
    animations started. *)
Record LegendaryCalc : Type := {
  expression : str;
  is_deg : bool;
  mem : memory;
  lbl_text : str;
  unit_btn_text : str;
  log : list str;
  flashes : nat
}.

(** The keypad of [build], row by row; [on_key] is bound to these
    buttons and to no other. *)
Definition keys : list str :=
  [py "AC"; py "DEL"; py "MS"; py "MR"; py "/";
   py "sin"; py "cos"; py "tan"; py "("; py ")";
   py "7"; py "8"; py "9"; py "*"; py "^";
   py "4"; py "5"; py "6"; py "-"; py "%";
   py "1"; py "2"; py "3"; py "+"; sym_sqrt;
   sym_pi; py "0"; py "."; py "e"; py "="].

(** The application once [build] has run on a database that holds
    [rows]. *)
Definition build (rows : list str) : LegendaryCalc := {|
  expression := py "0";
  is_deg := true;
  mem := MZero;
  lbl_text := py "0";
  unit_btn_text := py "DEG";
  log := rows;
  flashes := 0
|}.

(** ** Assignment to a Kivy property *)

(** A property stores a value, and tells its observers, only when the
    value differs from the one it holds.  The observer of [expression]
    is [_sync_expression], which copies the text to the label. *)
Definition showing (st : LegendaryCalc) (v : str) : LegendaryCalc := {|
  expression := v;
  is_deg := is_deg st;
  mem := mem st;
  lbl_text := v;
  unit_btn_text := unit_btn_text st;
  log := log st;
  flashes := flashes st
|}.

Definition set_expression (st : LegendaryCalc) (v : str) : LegendaryCalc :=
  if str_eqb (expression st) v then st else showing st v.

(** [old == new] for the memory: the integer 0 equals both float
    zeros, and a NaN equals nothing. *)
Definition mem_eqb (m : memory) (f : float) : bool :=
  match m with
  | MZero => (f =? 0)%float
  | MFloat g => (g =? f)%float
  end.

Definition set_mem (st : LegendaryCalc) (f : float) : LegendaryCalc :=
  if mem_eqb (mem st) f then st
  else {| expression := expression st;
          is_deg := is_deg st;
          mem := MFloat f;
          lbl_text := lbl_text st;
          unit_btn_text := unit_btn_text st;
          log := log st;
          flashes := flashes st |}.

(** [str(self.mem)]. *)
Definition mem_str (H : Host) (m : memory) : result str :=
  match m with
  | MZero => Ok (py "0")
  | MFloat f =>
      match float_str H f with
      | Some s => Ok s
      | None => OutsideModel
      end
  end.

(** ** [s[:-1]] *)

(** A byte that continues a UTF-8 sequence. *)
Definition is_continuation (c : ascii) : bool :=
  (128 <=? code c)%nat && (code c <? 192)%nat.

Fixpoint drop_continuation (s : str) : str :=
  match s with
  | c :: r => if is_continuation c then drop_continuation r else s
  | [] => []
  end.

(** The text without its last character, for text that is the UTF-8
    encoding of a string: the bytes of the last character are its
    continuation bytes and the byte before them. *)
Definition drop_last (s : str) : str :=
  rev (tl (drop_continuation (rev s))).

(** ** [toggle_unit] *)

Definition toggle_unit (st : LegendaryCalc) : LegendaryCalc := {|
  expression := expression st;
  is_deg := negb (is_deg st);
  mem := mem st;
  lbl_text := lbl_text st;
  unit_btn_text := if negb (is_deg st) then py "DEG" else py "RAD";
  log := log st;
  flashes := flashes st
|}.

(** ** [run_math] *)

(** The [except] branch: the animation is started, then [Error] is
    shown. *)
Definition show_error (st : LegendaryCalc) : LegendaryCalc :=
  set_expression {| expression := expression st;
                    is_deg := is_deg st;
                    mem := mem st;
                    lbl_text := lbl_text st;
                    unit_btn_text := unit_btn_text st;
                    log := log st;
                    flashes := S (flashes st) |}
                 (py "Error").

(** [INSERT INTO log VALUES (?)]. *)
Definition insert_row (st : LegendaryCalc) (entry : str) : LegendaryCalc := {|
  expression := expression st;
  is_deg := is_deg st;
  mem := mem st;
  lbl_text := lbl_text st;
  unit_btn_text := unit_btn_text st;
  log := log st ++ [entry];
  flashes := flashes st
|}.

(** The bare [except] catches whatever [evaluate] or the formatting
    raises. *)
Definition run_math (H : Host) (st : LegendaryCalc) : result LegendaryCalc :=
  match evaluate (libm H) (is_deg st) (expression st) with
  | Ok res =>
      match format_8g res with
      | Ok formatted =>
          Ok (set_expression
                (insert_row st (expression st ++ py " = " ++ formatted))
                formatted)
      | Raise _ => Ok (show_error st)
      | OutsideModel => OutsideModel
      end
  | Raise _ => Ok (show_error st)
  | OutsideModel => OutsideModel
  end.

(** ** [on_key] *)

(** What a key other than the five commands adds to the expression. *)
Definition key_token (val : str) : str :=
  if str_eqb val sym_sqrt then py "sqrt("
  else if existsb (str_eqb val) [py "sin"; py "cos"; py "tan"]
       then val ++ py "("
       else val.

Definition on_key (H : Host) (st : LegendaryCalc) (val : str) : result LegendaryCalc :=
  if str_eqb val (py "AC") then Ok (set_expression st (py "0"))
  else if str_eqb val (py "DEL") then
    Ok (set_expression st
          (match drop_last (expression st) with
           | [] => py "0"
           | s => s
           end))
  else if str_eqb val (py "MS") then
    match py_float H (expression st) with
    | Ok f => Ok (set_mem st f)
    | Raise _ => Ok st
    | OutsideModel => OutsideModel
    end
  else if str_eqb val (py "MR") then
    m <- mem_str H (mem st) ;;
    Ok (set_expression st
          (if str_eqb (expression st) (py "0") then m
           else expression st ++ m))
  else if str_eqb val (py "=") then run_math H st
  else
    Ok (set_expression st
          (if str_eqb (expression st) (py "0")
              && negb (existsb (str_eqb val) [py "."; py "%"])
           then key_token val
           else expression st ++ key_token val)).

(** ** [show_log] *)

(** The texts of the labels [show_log] puts in the box, top to bottom:
    [SELECT entry FROM log ORDER BY rowid DESC LIMIT 50]. *)
Definition show_log (st : LegendaryCalc) : list str := firstn 50 (rev (log st)).

(** ** A session *)

(** What the user does: a key of the keypad, or the unit button. *)
Inductive event : Type :=
| Press (val : str)
| UnitButton.

Definition handle (H : Host) (st : LegendaryCalc) (ev : event) : result LegendaryCalc :=
  match ev with
  | Press val => on_key H st val
  | UnitButton => Ok (toggle_unit st)
  end.

Fixpoint session (H : Host) (st : LegendaryCalc) (evs : list event) : result LegendaryCalc :=
  match evs with
  | [] => Ok st
  | ev :: r => st' <- handle H st ev ;; session H st' r
  end.

(** What the display keeps true: the label shows the expression, which
    is not empty, and the unit button names the angle mode. *)
Definition shown (st : LegendaryCalc) : Prop :=
  lbl_text st = expression st
  /\ expression st <> []
  /\ unit_btn_text st = (if is_deg st then py "DEG" else py "RAD").

(** The presses of the digit keys for a digit string, and how many times
    [=] is pressed in a session. *)
Definition press_digits (ds : str) : list event :=
  map (fun c => Press [c]) ds.

Definition is_equals (ev : event) : bool :=
  match ev with
  | Press val => str_eqb val (py "=")
  | UnitButton => false
  end.

Definition is_MS (ev : event) : bool :=
  match ev with
  | Press val => str_eqb val (py "MS")
  | UnitButton => false
  end.

Definition is_unit (ev : event) : bool :=
  match ev with
  | Press _ => false
  | UnitButton => true
  end.

(** One character, UTF-8 encoded: a byte that starts it and the bytes
    that continue it. *)
Definition one_char (val : str) : bool :=
  match val with
  | c :: r => negb (is_continuation c) && forallb is_continuation r
  | [] => false
  end.

(** A whole number as the keypad leaves it on a cleared display: without
    the zeros typed first. *)
Definition typed_digits (ds : str) : str :=
  match drop_zeros ds with
  | [] => py "0"
  | r => r
  end.

(** A table of [float] and [str] values for the examples. *)
Definition host_table : Host := {|
  libm := libm_table;
  py_float := fun s =>
    if str_eqb s (py "5") then Ok 5%float
    else if str_eqb s (py "0") then Ok 0%float
    else if str_eqb s (py "Error") then Raise ValueError
    else OutsideModel;
  float_str := fun f =>
    if PrimFloat.Leibniz.eqb f 5 then Some (py "5.0") else None
|}.

(** * Properties *)

(** * Properties *)

(** ** Text and tables *)

Lemma ascii_eqb_eq (a b : ascii) : ascii_eqb a b = true <-> a = b.
Proof. apply Ascii.eqb_eq. Qed.

Lemma ascii_eqb_refl (a : ascii) : ascii_eqb a a = true.
Proof. apply Ascii.eqb_refl. Qed.

Lemma str_eqb_eq (a b : str) : str_eqb a b = true <-> a = b.
Proof.
  revert b; induction a as [|x a IH]; intros [|y b]; simpl;
    try (split; [discriminate | discriminate]); try tauto.
  rewrite andb_true_iff, ascii_eqb_eq, IH.
  split; [intros [-> ->]; reflexivity | intros H; inversion H; auto].
Qed.

Lemma str_eqb_neq (a b : str) : a <> b -> str_eqb a b = false.
Proof.
  intros H; destruct (str_eqb a b) eqn:E; [|reflexivity].
  apply str_eqb_eq in E; contradiction.
Qed.

Lemma constants_other (id : str) :
  id <> py "pi" -> id <> py "e" -> constants id = None.
Proof.
  intros H1 H2; unfold constants.
  rewrite (str_eqb_neq H1), (str_eqb_neq H2); reflexivity.
Qed.

Lemma functions_other (L : Libm) (fname : str) :
  ~ In fname function_names -> functions L fname = None.
Proof.
  intros H; unfold functions.
  repeat match goal with
  | |- context [str_eqb fname ?n] =>
      rewrite (@str_eqb_neq fname n)
        by (intros ->; apply H; vm_compute; tauto)
  end.
  reflexivity.
Qed.

Lemma eval_args_fix (L : Libm) (args : list expr) :
  (fix eval_args (l : list expr) : result (list value) :=
     match l with
     | [] => Ok []
     | a :: t => v <- _eval L a ;; vs <- eval_args t ;; Ok (v :: vs)
     end) args = eval_args L args.
Proof. induction args as [|a t IH]; simpl; [reflexivity | now rewrite IH]. Qed.

(** The [ast.Call] branch, with the list comprehension named. *)
Lemma _eval_call (L : Libm) (fname : str) (args kws : list expr) :
  _eval L (Call (Name fname) args kws) =
  match functions L fname with
  | None => Raise (NameError fname)
  | Some f => vs <- eval_args L args ;; f vs
  end.
Proof. simpl; destruct (functions L fname); [now rewrite eval_args_fix | reflexivity]. Qed.

(** ** C1: what the [ast.Constant] branch lets through *)

(** C1 (the code departs from the claim).  The nodes outside the
    evaluator's set that the parser can build (attribute access, tuples,
    starred expressions) are rejected with [TypeError], and an operator
    outside the table with [KeyError]; but the [ast.Constant] branch
    returns the value of every constant, so the inputs [None], [True] and
    [...] evaluate to the objects [None], [True] and [Ellipsis], which
    are not numbers. *)
Theorem constant_branch_returns_any_constant (L : Libm) (m : bool) :
  evaluate L m (py "None") = Ok VNone
  /\ evaluate L m (py "True") = Ok (VBool true)
  /\ evaluate L m (py "...") = Ok VEllipsis
  /\ evaluate L m (py "+None") = Ok VNone
  /\ evaluate L m (py "pi.real") = Raise TypeError
  /\ evaluate L m (py "1,2") = Raise TypeError
  /\ evaluate L m (py "7//2") = Raise KeyError.
Proof. destruct m; repeat split; reflexivity. Qed.

(** ** C2: the degree rewrite *)

(** C2 (the code departs from the claim).  In degree mode [sin(] is
    replaced by [sin(radians(] and the parenthesis this opens is closed
    only by the balancing step, at the very end of the text.  [sin(90)]
    alone therefore becomes [sin(radians(90))], and evaluates to 1 with
    the tabulated libm; but in [sin(90)+1] the conversion swallows the
    rest of the text: the tree is [sin(radians(90)+1)], not
    [sin(radians(90))+1].  A name that a letter precedes ([asin]) is left
    alone. *)
Theorem degree_rewrite_closes_at_end_of_text :
  preprocess true (py "sin(90)") = py "sin(radians(90))"
  /\ evaluate libm_table true (py "sin(90)") = Ok (VFloat 1)
  /\ preprocess true (py "asin(1)") = py "asin(1)"
  /\ preprocess true (py "sin(90)+1") = py "sin(radians(90)+1)"
  /\ ast_parse (preprocess true (py "sin(90)+1")) =
       Ok (Call (Name (py "sin"))
             [BinOp (Call (Name (py "radians")) [Constant (VInt 90)] [])
                    Add (Constant (VInt 1))] [])
  /\ ast_parse (py "sin(radians(90))+1") =
       Ok (BinOp (Call (Name (py "sin"))
                    [Call (Name (py "radians")) [Constant (VInt 90)] []] [])
                 Add (Constant (VInt 1)))
  /\ evaluate libm_table true (py "sin(90)+1")
       = Ok (VFloat 0x1.14a280fb5068cp-1)
  /\ evaluate libm_table false (py "sin(radians(90))+1") = Ok (VFloat 2).
Proof. repeat split; vm_compute; reflexivity. Qed.

(** ** C7: unknown names *)

(** C7.  A name that is neither [pi] nor [e] raises [NameError] with that
    name; a call whose target name is not in the function table raises
    [NameError] with that name, before any argument is evaluated; so do
    [x+1] and [foo(1)] in both angle modes. *)
Theorem unknown_names_raise_NameError (L : Libm) :
  (forall id, id <> py "pi" -> id <> py "e" ->
     _eval L (Name id) = Raise (NameError id))
  /\ (forall fname args kws, ~ In fname function_names ->
        _eval L (Call (Name fname) args kws) = Raise (NameError fname))
  /\ (forall m, evaluate L m (py "x+1") = Raise (NameError (py "x")))
  /\ (forall m, evaluate L m (py "foo(1)") = Raise (NameError (py "foo"))).
Proof.
  repeat split.
  - intros id H1 H2; simpl; now rewrite constants_other.
  - intros fname args kws H; rewrite _eval_call, functions_other by assumption.
    reflexivity.
  - intros [|]; reflexivity.
  - intros [|]; reflexivity.
Qed.

Lemma unknown_names_witness :
  _eval libm_table (Name (py "x")) = Raise (NameError (py "x"))
  /\ _eval libm_table (Call (Name (py "foo")) [Name (py "y")] [])
     = Raise (NameError (py "foo")).
Proof.
  destruct (unknown_names_raise_NameError libm_table) as (H1 & H2 & _).
  split.
  - apply H1; discriminate.
  - apply H2; vm_compute; intuition discriminate.
Defined.

(** ** C4: the number of arguments *)

Lemma unary_arity (f : value -> result value) (vs : list value) :
  length vs <> 1 -> unary f vs = Raise TypeError.
Proof. destruct vs as [|a [|b t]]; simpl; intros H; try reflexivity; lia. Qed.

Lemma functions_unary (L : Libm) (fname : str) :
  In fname unary_names -> exists f, functions L fname = Some (unary f).
Proof.
  unfold unary_names; simpl.
  intros [<-|[<-|[<-|[<-|[<-|[<-|[<-|[<-|[<-|[]]]]]]]]]];
    eexists; reflexivity.
Qed.

(** C4 (as amended).  No arity is checked by the evaluator itself: the
    host function a name maps to checks its own.  When the arguments of
    a call evaluate, a call of [sin], [cos], [tan], [asin], [acos],
    [atan], [log], [sqrt] or [radians] with a number of arguments other
    than one raises [TypeError]; [ln] is [math.log], which takes one or
    two arguments, and raises [TypeError] for any other number. *)
Theorem arity_mismatch_raises_TypeError (L : Libm) :
  (forall fname args kws vs,
      In fname unary_names -> eval_args L args = Ok vs -> length vs <> 1 ->
      _eval L (Call (Name fname) args kws) = Raise TypeError)
  /\ (forall args kws vs,
        eval_args L args = Ok vs -> length vs <> 1 -> length vs <> 2 ->
        _eval L (Call (Name (py "ln")) args kws) = Raise TypeError).
Proof.
  split.
  - intros fname args kws vs Hin Hargs Hlen.
    rewrite _eval_call. destruct (functions_unary L Hin) as [f ->].
    rewrite Hargs; simpl. now apply unary_arity.
  - intros args kws vs Hargs H1 H2.
    rewrite _eval_call. change (functions L (py "ln")) with (Some (math_log L)).
    rewrite Hargs; simpl.
    destruct vs as [|a [|b [|c t]]]; simpl in *; try reflexivity; lia.
Qed.

Lemma arity_mismatch_witness :
  _eval libm_table (Call (Name (py "sin")) [Constant (VInt 1); Constant (VInt 2)] [])
    = Raise TypeError
  /\ _eval libm_table (Call (Name (py "ln")) [] []) = Raise TypeError.
Proof.
  destruct (arity_mismatch_raises_TypeError libm_table) as [H1 H2].
  split.
  - apply (H1 _ _ _ [VInt 1; VInt 2]); [vm_compute; tauto | reflexivity | simpl; lia].
  - apply (H2 _ _ []); [reflexivity | simpl; lia | simpl; lia].
Defined.

(** C4, the claim as stated fails: [ln] with two arguments is a call
    whose number of arguments is not one, and it returns the logarithm of
    the first to the base of the second. *)
Lemma ln_takes_a_base :
  evaluate libm_table false (py "ln(8,2)") = Ok (VFloat 3)
  /\ evaluate libm_table true (py "ln(8,2)") = Ok (VFloat 3).
Proof. split; vm_compute; reflexivity. Qed.

(** ** C6: division and modulo by zero *)

Lemma PyLong_AsDouble_cases (n : Z) :
  (exists f, PyLong_AsDouble n = Ok f) \/ PyLong_AsDouble n = Raise OverflowError.
Proof.
  unfold PyLong_AsDouble.
  destruct (binary_normalize prec emax n 0 false); eauto.
Qed.

Lemma as_double_zero (b : value) :
  is_zero_value b = true ->
  exists f, as_double b = Ok f /\ (f =? 0)%float = true.
Proof.
  destruct b as [n|f|[|]| |]; simpl; try discriminate.
  - intros H; apply Z.eqb_eq in H; subst n. eexists; split; reflexivity.
  - intros H; eauto.
  - intros _; eexists; split; reflexivity.
Qed.

Lemma int_like_zero (b : value) (y : Z) :
  is_zero_value b = true -> int_like b = Some y -> y = 0%Z.
Proof.
  destruct b as [n|f|[|]| |]; simpl; try discriminate.
  - intros H [= <-]; now apply Z.eqb_eq.
  - intros _ [= <-]; reflexivity.
Qed.

(** Division and modulo of two numbers by a zero. *)
Lemma div_mod_by_zero (L : Libm) (a b : value) :
  is_number a = true -> is_zero_value b = true ->
  let outcome (r : result value) :=
    r = Raise ZeroDivisionError
    \/ (r = Raise OverflowError
        /\ as_double a = Raise OverflowError /\ int_like b = None) in
  outcome (op_truediv a b) /\ outcome (op_mod L a b).
Proof.
  intros Ha Hb outcome; unfold outcome, op_truediv, op_mod, arith.
  destruct (as_double_zero b Hb) as (fb & Hfb & Hz).
  assert (Hnb : is_number b = true) by (destruct b; simpl in *; congruence).
  destruct (int_like a) as [x|] eqn:Ea; destruct (int_like b) as [y|] eqn:Eb.
  - rewrite (int_like_zero b Hb Eb). unfold long_true_divide, long_mod; simpl; auto.
  - rewrite Ha, Hnb; simpl. rewrite Hfb.
    assert (Hx : (exists f, as_double a = Ok f) \/ as_double a = Raise OverflowError).
    { destruct a as [n|f|[|]| |]; simpl in *; try discriminate;
        apply PyLong_AsDouble_cases. }
    destruct Hx as [[fa ->]| ->]; simpl.
    + unfold float_div, float_rem; rewrite Hz; auto.
    + auto.
  - destruct a as [n|f|[|]| |]; simpl in *; try discriminate.
    rewrite Hnb, Hfb; simpl. unfold float_div, float_rem; rewrite Hz; auto.
  - destruct a as [n|f|[|]| |]; simpl in *; try discriminate.
    rewrite Hnb, Hfb; simpl. unfold float_div, float_rem; rewrite Hz; auto.
Qed.

(** C6 (as amended).  The evaluator checks nothing itself; the host
    operators do.  When both operands of a division or a modulo evaluate
    to numbers and the right one is zero, the operation raises and never
    returns an infinity or a NaN: it raises [ZeroDivisionError], except
    that an [int] left operand too large for a [float], next to a [float]
    zero, raises [OverflowError] when it is converted, before the divisor
    is looked at.  [1/0] raises [ZeroDivisionError] in both angle
    modes. *)
Theorem zero_divisor_raises (L : Libm) :
  (forall l r o a b,
      o = Div \/ o = Mod ->
      _eval L l = Ok a -> _eval L r = Ok b ->
      is_number a = true -> is_zero_value b = true ->
      _eval L (BinOp l o r) = Raise ZeroDivisionError
      \/ (_eval L (BinOp l o r) = Raise OverflowError
          /\ as_double a = Raise OverflowError /\ int_like b = None))
  /\ (forall m, evaluate L m (py "1/0") = Raise ZeroDivisionError)
  /\ (forall m, evaluate L m (py "1%0") = Raise ZeroDivisionError).
Proof.
  repeat split.
  - intros l r o a b Ho Hl Hr Ha Hb.
    destruct (div_mod_by_zero L a b Ha Hb) as [Hd Hm].
    destruct Ho as [-> | ->]; simpl; rewrite Hl, Hr; simpl; assumption.
  - intros [|]; reflexivity.
  - intros [|]; reflexivity.
Qed.

Lemma zero_divisor_witness :
  _eval libm_table (BinOp (Constant (VFloat 2.5)) Div (Constant (VInt 0)))
    = Raise ZeroDivisionError
  \/ (_eval libm_table (BinOp (Constant (VFloat 2.5)) Div (Constant (VInt 0)))
        = Raise OverflowError
      /\ as_double (VFloat 2.5) = Raise OverflowError
      /\ int_like (VInt 0) = None).
Proof.
  destruct (zero_divisor_raises libm_table) as [H _].
  apply H; [left; reflexivity | reflexivity | reflexivity | reflexivity | reflexivity].
Defined.

(** C6, the claim as stated fails: the left operand of [10^400/0.0] is
    an [int] beyond the range of a [float], and the division raises
    [OverflowError], not [ZeroDivisionError]. *)
Lemma huge_int_over_float_zero :
  evaluate libm_table true (py "10^400/0.0") = Raise OverflowError
  /\ evaluate libm_table false (py "10^400%0.0") = Raise OverflowError.
Proof. split; vm_compute; reflexivity. Qed.

(** ** C8: implicit multiplication *)

Ltac char_case c x :=
  unfold ascii_eqb in *; destruct (Ascii.eqb_spec c x); [subst c|]; simpl.

(** Settles a fact about one unknown character by running through the
    256 of them. *)
Ltac by_bits c :=
  destruct c as [[|] [|] [|] [|] [|] [|] [|] [|]];
  try reflexivity; try discriminate; try congruence.

Lemma insert_after_digit_cons (c : ascii) (r : str) :
  insert_after_digit (c :: r) =
  if is_digit c && factor_follows r
  then c :: "*"%char :: insert_after_digit r
  else c :: insert_after_digit r.
Proof. reflexivity. Qed.

Lemma insert_after_paren_cons (c : ascii) (r : str) :
  insert_after_paren (c :: r) =
  if ascii_eqb c ")" && operand_follows r
  then c :: "*"%char :: insert_after_paren r
  else c :: insert_after_paren r.
Proof. reflexivity. Qed.

(** One attempt of [(\d)(pi|e|\()] at the head of the text: it succeeds
    exactly on a digit that [pi], [e] or [(] follows, and consumes
    both. *)
Lemma match_digit (prev : option ascii) (s : str) (b : bool) :
  match match_at mul_digit_re prev s b with
  | Some (caps, m, _, rest) =>
      exists d w, s = d :: w ++ rest /\ m = d :: w
        /\ is_digit d = true /\ factor_follows (w ++ rest) = true
        /\ (w = py "pi" \/ w = py "e" \/ w = py "(")
        /\ expand mul_tpl caps = d :: "*"%char :: w
  | None =>
      match s with
      | c :: r => is_digit c && factor_follows r = false
      | [] => True
      end
  end.
Proof.
  unfold match_at, mul_digit_re, factor_follows; simpl.
  destruct s as [|d r]; simpl; [exact I|].
  destruct (is_digit d) eqn:Hd; simpl; [|reflexivity].
  destruct r as [|c1 r]; simpl; [reflexivity|].
  char_case c1 "p"%char.
  - destruct r as [|c2 r]; simpl; [reflexivity|].
    char_case c2 "i"%char.
    + exists d, (py "pi"); simpl; auto 10.
    + by_bits c2.
  - char_case c1 "e"%char.
    + exists d, (py "e"); simpl; auto 10.
    + char_case c1 "("%char.
      * exists d, (py "("); simpl; auto 10.
      * by_bits c1.
Qed.

(** One attempt of [(\))(\d|\()] at the head of the text. *)
Lemma match_paren (prev : option ascii) (s : str) (b : bool) :
  match match_at mul_paren_re prev s b with
  | Some (caps, m, _, rest) =>
      exists d, s = ")"%char :: d :: rest /\ m = [")"%char; d]
        /\ operand_follows (d :: rest) = true
        /\ expand mul_tpl caps = [")"%char; "*"%char; d]
  | None =>
      match s with
      | c :: r => ascii_eqb c ")" && operand_follows r = false
      | [] => True
      end
  end.
Proof.
  unfold match_at, mul_paren_re, operand_follows; simpl.
  destruct s as [|c r]; simpl; [exact I|].
  char_case c ")"%char; [|reflexivity].
  destruct r as [|d r]; simpl; [reflexivity|].
  destruct (is_digit d) eqn:Hd; simpl.
  - exists d; repeat split; simpl; now rewrite ?Hd.
  - char_case d "("%char; [|reflexivity].
    exists "("%char; repeat split.
Qed.

(** A scan whose every match is non-empty and agrees with [f] computes
    [f]. *)
Lemma sub_loop_spec (r : regex) (tpl : list titem) (f : str -> str) :
  f [] = [] ->
  (forall prev s b,
      match match_at r prev s b with
      | Some (caps, m, _, rest) =>
          m <> [] /\ (length rest < length s)%nat
          /\ f s = expand tpl caps ++ f rest
      | None =>
          match s with
          | c :: t => f s = c :: f t
          | [] => True
          end
      end) ->
  forall fuel prev s b,
    (length s < fuel)%nat -> sub_loop fuel r tpl prev s b = f s.
Proof.
  intros Hnil H fuel; induction fuel as [|n IH]; intros prev s b Hlen; [lia|].
  simpl. specialize (H prev s b).
  destruct (match_at r prev s b) as [[[[caps m] prev'] rest]|].
  - destruct H as (Hm & Hr & Hf). destruct m as [|x m]; [congruence|].
    rewrite Hf, IH by lia. reflexivity.
  - destruct s as [|c t]; [now rewrite Hnil|].
    rewrite H, IH by (simpl in Hlen; lia). reflexivity.
Qed.

Lemma re_sub_digit (s : str) :
  re_sub mul_digit_re mul_tpl s = insert_after_digit s.
Proof.
  unfold re_sub. apply sub_loop_spec; [reflexivity | | lia].
  clear s; intros prev s b. pose proof (match_digit prev s b) as H.
  destruct (match_at mul_digit_re prev s b) as [[[[caps m] prev'] rest]|].
  - destruct H as (d & w & -> & -> & Hd & Hf & Hw & ->).
    split; [discriminate|]. split; [simpl; rewrite length_app; lia|].
    rewrite insert_after_digit_cons, Hd, Hf; simpl. do 2 f_equal.
    destruct Hw as [-> | [-> | ->]]; reflexivity.
  - destruct s as [|c t]; [exact I|].
    now rewrite insert_after_digit_cons, H.
Qed.

Lemma re_sub_paren (s : str) :
  re_sub mul_paren_re mul_tpl s = insert_after_paren s.
Proof.
  unfold re_sub. apply sub_loop_spec; [reflexivity | | lia].
  clear s; intros prev s b. pose proof (match_paren prev s b) as H.
  destruct (match_at mul_paren_re prev s b) as [[[[caps m] prev'] rest]|].
  - destruct H as (d & -> & -> & Hf & ->).
    split; [discriminate|]. split; [simpl; lia|].
    rewrite insert_after_paren_cons, Hf; simpl. do 2 f_equal.
    replace (ascii_eqb d ")" && operand_follows rest) with false; [reflexivity|].
    unfold operand_follows in Hf.
    unfold ascii_eqb; destruct (Ascii.eqb_spec d ")"); [subst d; discriminate Hf | reflexivity].
  - destruct s as [|c t]; [exact I|].
    now rewrite insert_after_paren_cons, H.
Qed.

(** ** The parser: termination, errors and parentheses *)

(** Poses the induction hypothesis for the grammar call [c]. *)
Ltac ih_for IH n c H :=
  lazymatch c with
  | parse_sum n ?ts => pose proof (proj1 IH ts) as H
  | sum_rest n ?l ?ts => pose proof (proj1 (proj2 IH) l ts) as H
  | parse_term n ?ts => pose proof (proj1 (proj2 (proj2 IH)) ts) as H
  | term_rest n ?l ?ts =>
      pose proof (proj1 (proj2 (proj2 (proj2 IH))) l ts) as H
  | parse_factor n ?ts =>
      pose proof (proj1 (proj2 (proj2 (proj2 (proj2 IH)))) ts) as H
  | parse_power n ?ts =>
      pose proof (proj1 (proj2 (proj2 (proj2 (proj2 (proj2 IH))))) ts) as H
  | parse_primary n ?ts =>
      pose proof (proj1 (proj2 (proj2 (proj2 (proj2 (proj2 (proj2 IH)))))) ts) as H
  | primary_rest n ?a ?ts =>
      pose proof (proj1 (proj2 (proj2 (proj2 (proj2 (proj2 (proj2 (proj2 IH))))))) a ts) as H
  | parse_atom n ?ts =>
      pose proof (proj1 (proj2 (proj2 (proj2 (proj2 (proj2 (proj2 (proj2 (proj2 IH)))))))) ts) as H
  | group_item n ?ts =>
      pose proof (proj1 (proj2 (proj2 (proj2 (proj2 (proj2 (proj2 (proj2 (proj2 (proj2 IH))))))))) ts) as H
  | tuple_rest n ?ts =>
      pose proof (proj1 (proj2 (proj2 (proj2 (proj2 (proj2 (proj2 (proj2 (proj2 (proj2 (proj2 IH)))))))))) ts) as H
  | parse_args n ?b ?ts =>
      pose proof (proj2 (proj2 (proj2 (proj2 (proj2 (proj2 (proj2 (proj2 (proj2 (proj2 (proj2 IH)))))))))) b ts) as H
  end.

(** One step through the body of a grammar function: a call is replaced
    by what the induction hypothesis says of its answer, a case
    distinction of the body is followed. *)
Ltac grammar_step :=
  match goal with
  | |- _ => progress cbn [bind fst snd]
  | IH : grammar_answers ?n |- context [bind ?c _] =>
      let H := fresh "H" in
      ih_for IH n c H; unfold answers in H;
      destruct c as [[? ?]| ? |]; simpl bind; cbv beta iota;
      [destruct H as [? ?] | subst | ]
  | |- context [bind (match ?x with _ => _ end) _] => destruct x
  | |- answers _ _ _ _ _ (match ?x with _ => _ end) => destruct x
  | IH : grammar_answers ?n |- answers _ _ _ _ _ ?c =>
      let H := fresh "H" in
      ih_for IH n c H; unfold answers in H |- *;
      destruct c as [[? ?]| ? |]; [destruct H as [? ?] | subst | ]
  end.

Ltac grammar_done :=
  unfold answers; cbn [net paren length fst snd app] in *;
  rewrite ?length_app in *;
  first [ reflexivity | lia | split; lia ].

Lemma grammar_answers_all (n : nat) : grammar_answers n.
Proof.
  induction n as [|n IH].
  - unfold grammar_answers; repeat split; intros; simpl; lia.
  - unfold grammar_answers; repeat split; intros; simpl;
      repeat grammar_step; try grammar_done.
Qed.

Lemma top_rest_answers (n : nat) (ts : list token) :
  match top_rest n ts with
  | Ok _ => net ts = 0%Z
  | Raise e => e = SyntaxError
  | OutsideModel => (n < 12 * length ts + 7)%nat
  end.
Proof.
  revert ts; induction n as [|n IH]; intros ts; simpl; [lia|].
  destruct ts as [|t ts]; [reflexivity|].
  pose proof (proj1 (grammar_answers_all n) (t :: ts)) as H.
  unfold answers in H. destruct (parse_sum n (t :: ts)) as [[e r]| e |];
    cbn [bind]; [|assumption|simpl in *; lia].
  destruct H as [H1 H2].
  destruct r as [|t' r]; [simpl in *; lia|].
  destruct t'; try reflexivity.
  specialize (IH r). destruct (top_rest n r); cbn [bind];
    simpl in *; try assumption; lia.
Qed.

(** With the fuel [ast_parse] gives it the parser always answers; it
    raises nothing but [SyntaxError]; and it accepts only token lists
    whose parentheses are balanced. *)
Lemma parse_expressions_answers (ts : list token) :
  match parse_expressions (parse_fuel ts) ts with
  | Ok _ => net ts = 0%Z
  | Raise e => e = SyntaxError
  | OutsideModel => False
  end.
Proof.
  unfold parse_expressions, parse_fuel.
  pose proof (proj1 (grammar_answers_all (12 * length ts + 12)) ts) as H.
  unfold answers in H.
  destruct (parse_sum (12 * length ts + 12) ts) as [[e r]| e |];
    cbn [bind]; [|assumption|lia].
  destruct H as [H1 H2].
  destruct r as [|t r]; [simpl in *; lia|].
  destruct t; try reflexivity.
  pose proof (top_rest_answers (12 * length ts + 12) r) as H.
  destruct (top_rest (12 * length ts + 12) r); cbn [bind];
    simpl in *; try assumption; lia.
Qed.

(** ** The tokenizer and the parentheses of the text *)

Lemma keeps_refl (s : str) : keeps s s.
Proof. unfold keeps; auto. Qed.

Lemma keeps_trans (a b c : str) : keeps a b -> keeps b c -> keeps a c.
Proof. unfold keeps; intros (?&?&?&?) (?&?&?&?); repeat split; lia. Qed.

Lemma keeps_cons (c : ascii) (s r : str) :
  plain c = true -> keeps s r -> keeps (c :: s) r.
Proof.
  unfold keeps, plain; intros Hc (?&?&?&?); simpl.
  destruct (ascii_eqb c "("), (ascii_eqb c ")"), (ascii_eqb c "#");
    try discriminate; repeat split; simpl; lia.
Qed.

Lemma keeps_span (p : ascii -> bool) (s : str) :
  (forall c, p c = true -> plain c = true) -> keeps s (snd (span p s)).
Proof.
  intros Hp; induction s as [|c s IH]; simpl; [apply keeps_refl|].
  destruct (p c) eqn:E; [|apply keeps_refl].
  destruct (span p s) as [a b]; simpl in *.
  apply keeps_cons; auto.
Qed.

Lemma digit_plain (c : ascii) : is_digit c = true -> plain c = true.
Proof. by_bits c. Qed.

Lemma name_char_plain (c : ascii) : is_name_char c = true -> plain c = true.
Proof. by_bits c. Qed.

Lemma keeps_exponent (s : str) : keeps s (snd (lex_exponent s)).
Proof.
  unfold lex_exponent.
  destruct s as [|e r]; [apply keeps_refl|].
  destruct (ascii_eqb e "e" || ascii_eqb e "E") eqn:He; [|apply keeps_refl].
  assert (Hpe : plain e = true) by (revert He; by_bits e).
  destruct r as [|d r1]; [apply keeps_refl|].
  destruct (is_digit d) eqn:Hd.
  - pose proof (keeps_span is_digit (d :: r1) digit_plain) as H.
    destruct (span is_digit (d :: r1)) as [ds r']; simpl in *.
    now apply keeps_cons.
  - destruct (ascii_eqb d "+" || ascii_eqb d "-") eqn:Hs; [|apply keeps_refl].
    assert (Hpd : plain d = true) by (revert Hs; by_bits d).
    destruct r1 as [|d1 r2]; [apply keeps_refl|].
    destruct (is_digit d1) eqn:Hd1; [|apply keeps_refl].
    pose proof (keeps_span is_digit (d1 :: r2) digit_plain) as H.
    destruct (span is_digit (d1 :: r2)) as [ds r']; simpl in *.
    now apply keeps_cons, keeps_cons.
Qed.

Lemma lex_number_keeps (s : str) : token_keeps s (lex_number s).
Proof.
  unfold lex_number.
  pose proof (keeps_span is_digit s digit_plain) as H1.
  destruct (span is_digit s) as [ip r1]; simpl in H1.
  assert (H2 : forall fr, fr = match r1 with
                | c :: r => if ascii_eqb c "."
                            then let (f, r') := span is_digit r in (Some f, r')
                            else (None, r1)
                | [] => (@None str, r1) end -> keeps r1 (snd fr)).
  { intros fr ->. destruct r1 as [|c r0]; [apply keeps_refl|].
    destruct (ascii_eqb c ".") eqn:E; [|apply keeps_refl].
    pose proof (keeps_span is_digit r0 digit_plain) as H.
    destruct (span is_digit r0) as [f r']; simpl in *.
    apply keeps_cons; [revert E; by_bits c | assumption]. }
  specialize (H2 _ eq_refl).
  destruct (match r1 with
            | c :: r => if ascii_eqb c "."
                        then let (f, r') := span is_digit r in (Some f, r')
                        else (None, r1)
            | [] => (None, r1) end) as [fp r2]; simpl in H2.
  pose proof (keeps_exponent r2) as H3.
  destruct (lex_exponent r2) as [ex r3]; simpl in H3.
  assert (K : keeps s r3) by eauto using keeps_trans.
  destruct (match r3 with c :: _ => is_name_start c | [] => false end);
    [exact I|].
  destruct fp, ex; try (simpl; auto; fail).
  destruct ip as [|z [|z' ip]]; try (simpl; auto; fail).
  destruct (ascii_eqb z "0" && negb (forallb (ascii_eqb "0") (z :: z' :: ip)));
    simpl; auto.
Qed.

Lemma lex_name_keeps (s : str) : token_keeps s (lex_name s).
Proof.
  unfold lex_name.
  pose proof (keeps_span is_name_char s name_char_plain) as H.
  destruct (span is_name_char s) as [w r']; simpl in H.
  repeat match goal with
  | |- context [if ?b then _ else _] => destruct b
  end; simpl; auto.
Qed.

(** One step of the tokenizer on a text without [#]: the parentheses of
    the text are those of the token it yields and of the text it
    leaves. *)
Lemma lex_step_parens (s : str) :
  count_char "#" s = 0%nat ->
  match lex_step s with
  | SDone => s = []
  | SSkip r => keeps s r
  | STok t r =>
      count_char "#" r = 0%nat
      /\ (Z.of_nat (count_char "(" s) - Z.of_nat (count_char ")" s)
          = paren t + (Z.of_nat (count_char "(" r) - Z.of_nat (count_char ")" r)))%Z
  | SErr _ | SOut => True
  end.
Proof.
  assert (K : forall t r, keeps s r /\ paren t = 0%Z ->
                count_char "#" s = 0%nat ->
                count_char "#" r = 0%nat
                /\ (Z.of_nat (count_char "(" s) - Z.of_nat (count_char ")" s)
                    = paren t + (Z.of_nat (count_char "(" r)
                                 - Z.of_nat (count_char ")" r)))%Z).
  { intros t r [(H1 & H2 & H3 & _) Hp] H. rewrite Hp. split; lia. }
  intros Hs. unfold lex_step.
  destruct s as [|c r]; [reflexivity|].
  destruct (ascii_eqb c " " || ascii_eqb c "009") eqn:E1.
  { apply keeps_cons; [revert E1; by_bits c | apply keeps_refl]. }
  destruct (ascii_eqb c "#") eqn:E2.
  { simpl in Hs. rewrite E2 in Hs. discriminate. }
  destruct (is_name_start c) eqn:E3.
  { pose proof (lex_name_keeps (c :: r)) as H.
    destruct (lex_name (c :: r)); simpl in H; auto; contradiction. }
  destruct (is_digit c) eqn:E4.
  { pose proof (lex_number_keeps (c :: r)) as H.
    destruct (lex_number (c :: r)); simpl in H; auto; contradiction. }
  assert (Hr : count_char "#" r = 0%nat) by (simpl in Hs; rewrite E2 in Hs; exact Hs).
  assert (Hr1 : forall d r1, r = d :: r1 -> count_char "#" r1 = 0%nat).
  { intros d r1 ->. simpl in Hr. lia. }
  unfold ascii_eqb in *.
  destruct (Ascii.eqb_spec c ".").
  { subst c. destruct r as [|d r1]; [split; [assumption | reflexivity]|].
    destruct (is_digit d) eqn:E5.
    { pose proof (lex_number_keeps ("."%char :: d :: r1)) as H.
      destruct (lex_number ("."%char :: d :: r1)); simpl in H; auto; contradiction. }
    destruct (Ascii.eqb_spec d "."); [|split; [assumption | reflexivity]].
    subst d. destruct r1 as [|d1 r2]; [split; [assumption | reflexivity]|].
    destruct (Ascii.eqb_spec d1 "."); [|split; [assumption | reflexivity]].
    subst d1. split; [simpl in Hr; lia | reflexivity]. }
  destruct (Ascii.eqb_spec c "+"); [subst c; split; [assumption | reflexivity]|].
  destruct (Ascii.eqb_spec c "-"); [subst c; split; [assumption | reflexivity]|].
  destruct (Ascii.eqb_spec c "*").
  { subst c. destruct r as [|d r1]; [split; [assumption | reflexivity]|].
    destruct (Ascii.eqb_spec d "*"); [|split; [assumption | reflexivity]].
    subst d. split; [eauto | reflexivity]. }
  destruct (Ascii.eqb_spec c "/").
  { subst c. destruct r as [|d r1]; [split; [assumption | reflexivity]|].
    destruct (Ascii.eqb_spec d "/"); [|split; [assumption | reflexivity]].
    subst d. split; [eauto | reflexivity]. }
  destruct (Ascii.eqb_spec c "%"); [subst c; split; [assumption | reflexivity]|].
  destruct (Ascii.eqb_spec c "(").
  { subst c. split; [assumption|].
    change (count_char "(" ("("%char :: r)) with (1 + count_char "(" r)%nat.
    change (count_char ")" ("("%char :: r)) with (0 + count_char ")" r)%nat.
    cbn [paren]; lia. }
  destruct (Ascii.eqb_spec c ")").
  { subst c. split; [assumption|].
    change (count_char "(" (")"%char :: r)) with (0 + count_char "(" r)%nat.
    change (count_char ")" (")"%char :: r)) with (1 + count_char ")" r)%nat.
    cbn [paren]; lia. }
  destruct (Ascii.eqb_spec c ","); [subst c; split; [assumption | reflexivity]|].
  exact I.
Qed.

(** On a text without comment, the tokens carry the parentheses of the
    text. *)
Lemma tokenize_parens (fuel : nat) (s : str) (ts : list token) :
  count_char "#" s = 0%nat -> tokenize fuel s = Ok ts ->
  net ts = (Z.of_nat (count_char "(" s) - Z.of_nat (count_char ")" s))%Z.
Proof.
  revert s ts; induction fuel as [|n IH]; intros s ts Hs; simpl; [discriminate|].
  pose proof (lex_step_parens s Hs) as H.
  destruct (lex_step s) as [|r|t r|e|]; try discriminate.
  - intros [= <-]. subst s; reflexivity.
  - destruct H as (H1 & H2 & H3 & _). intros Ht.
    rewrite (IH r ts) by (congruence || assumption). lia.
  - destruct H as [H1 H2].
    destruct (tokenize n r) as [ts'| |] eqn:Et; try discriminate.
    intros [= <-]. simpl. rewrite (IH r ts' H1 Et). lia.
Qed.

Lemma lex_step_raises (s : str) (e : exn) :
  lex_step s = SErr e -> e = SyntaxError.
Proof.
  assert (Hname : forall s, lex_name s <> SErr e).
  { intros s0; unfold lex_name. destruct (span is_name_char s0).
    repeat match goal with
    | |- context [if ?b then _ else _] => destruct b
    end; discriminate. }
  assert (Hnum : forall s, lex_number s = SErr e -> e = SyntaxError).
  { intros s0; unfold lex_number.
    destruct (span is_digit s0) as [ip r1].
    destruct (match r1 with
              | c :: r => if ascii_eqb c "."
                          then let (f, r') := span is_digit r in (Some f, r')
                          else (None, r1)
              | [] => (None, r1) end) as [fp r2].
    destruct (lex_exponent r2) as [ex r3].
    repeat match goal with
    | |- context [if ?b then _ else _] => destruct b
    | |- context [match ?x with _ => _ end] => destruct x
    end; try discriminate; now intros [= <-]. }
  unfold lex_step.
  destruct s as [|c r]; [discriminate|].
  repeat match goal with
  | |- lex_name _ = _ -> _ => intros H; now apply Hname in H
  | |- lex_number _ = _ -> _ => apply Hnum
  | |- context [if ?b then _ else _] => destruct b
  | |- context [match ?x with _ => _ end] => destruct x
  end; discriminate.
Qed.

Lemma tokenize_raises (fuel : nat) (s : str) (e : exn) :
  tokenize fuel s = Raise e -> e = SyntaxError.
Proof.
  revert s; induction fuel as [|n IH]; intros s; simpl; [discriminate|].
  pose proof (@lex_step_raises s) as H.
  destruct (lex_step s) as [|r|t r|e'|]; try discriminate.
  - apply IH.
  - specialize (IH r). destruct (tokenize n r); try discriminate.
    cbn [bind]. auto.
  - intros [= <-]. now apply H.
Qed.

(** Text with more [)] than [(] and no comment does not parse. *)
Lemma excess_close_is_SyntaxError (e : str) :
  count_char "#" e = 0%nat ->
  (count_char "(" e < count_char ")" e)%nat ->
  tokenize (length e + 1) e <> OutsideModel ->
  ast_parse e = Raise SyntaxError.
Proof.
  intros Hh Hx Hm. unfold ast_parse.
  destruct e as [|c r]; [reflexivity|].
  destruct (ascii_eqb c " " || ascii_eqb c "009"); [reflexivity|].
  destruct (tokenize (length (c :: r) + 1) (c :: r)) as [ts| ex |] eqn:Et;
    cbn [bind]; [| |congruence].
  - pose proof (tokenize_parens _ _ Hh Et) as Hn.
    pose proof (parse_expressions_answers ts) as H.
    destruct (parse_expressions (parse_fuel ts) ts);
      [lia | subst; reflexivity | contradiction].
  - now rewrite (tokenize_raises _ _ Et).
Qed.

(** ** C9: auto-balancing *)

Lemma count_char_app (c : ascii) (a b : str) :
  count_char c (a ++ b) = (count_char c a + count_char c b)%nat.
Proof. induction a as [|x a IH]; simpl; [reflexivity | rewrite IH; lia]. Qed.

Lemma count_char_repeat (c x : ascii) (n : nat) :
  count_char c (repeat x n) = if ascii_eqb x c then n else 0%nat.
Proof.
  induction n as [|n IH]; simpl; [now destruct (ascii_eqb x c)|].
  rewrite IH. destruct (ascii_eqb x c); reflexivity.
Qed.

Lemma balance_open (e : str) :
  (count_char ")" e < count_char "(" e)%nat ->
  balance e = e ++ repeat ")"%char (count_char "(" e - count_char ")" e)
  /\ count_char "(" (balance e) = count_char ")" (balance e).
Proof.
  intros H. unfold balance.
  destruct (Nat.ltb_spec (count_char ")" e) (count_char "(" e)); [|lia].
  split; [reflexivity|].
  rewrite !count_char_app, !count_char_repeat.
  change (ascii_eqb ")" "(") with false. change (ascii_eqb ")" ")") with true.
  cbv iota. lia.
Qed.

Lemma balance_closed (e : str) :
  (count_char "(" e <= count_char ")" e)%nat -> balance e = e.
Proof.
  intros H. unfold balance.
  destruct (Nat.ltb_spec (count_char ")" e) (count_char "(" e)); [lia | reflexivity].
Qed.



(** ** Text the preprocessing leaves alone *)

Lemma count_char_class (p : ascii -> bool) (x : ascii) (s : str) :
  p x = false -> forallb p s = true -> count_char x s = 0%nat.
Proof.
  intros Hx; induction s as [|c s IH]; simpl; [reflexivity|].
  rewrite andb_true_iff; intros [Hc Hs]. rewrite (IH Hs).
  unfold ascii_eqb; destruct (Ascii.eqb_spec c x); [congruence | reflexivity].
Qed.

Lemma count_char_cons (x c : ascii) (s : str) :
  count_char x (c :: s) = ((if ascii_eqb c x then 1 else 0) + count_char x s)%nat.
Proof. reflexivity. Qed.

Lemma count_zero_cons (x c : ascii) (s : str) :
  count_char x (c :: s) = 0%nat -> ascii_eqb c x = false /\ count_char x s = 0%nat.
Proof.
  rewrite count_char_cons. destruct (ascii_eqb c x); [discriminate | auto].
Qed.

(** [replace]: text before the first character of [old] is copied... *)
Lemma replace_from_app (x : ascii) (old new a b : str) :
  count_char x a = 0%nat ->
  replace_from (x :: old) new 0 (a ++ b) = a ++ replace_from (x :: old) new 0 b.
Proof.
  induction a as [|c a IH]; intros H; [reflexivity|].
  apply count_zero_cons in H as [Hc Ha].
  cbn [app replace_from starts_with].
  replace (ascii_eqb x c) with false
    by (unfold ascii_eqb in *; rewrite Ascii.eqb_sym; now rewrite Hc).
  cbn [andb]. now rewrite IH.
Qed.

(** ... so text without that character is left as it is. *)
Lemma replace_absent (x : ascii) (old new s : str) :
  count_char x s = 0%nat -> replace (x :: old) new s = s.
Proof.
  intros H. unfold replace.
  rewrite <- (app_nil_r s) at 1. rewrite replace_from_app by assumption.
  now rewrite app_nil_r.
Qed.

Lemma replace_caret (new a b : str) :
  count_char "^" a = 0%nat ->
  replace (py "^") new (a ++ "^"%char :: b) = a ++ new ++ replace (py "^") new b.
Proof.
  intros H. change (py "^") with ["^"%char]. unfold replace.
  rewrite replace_from_app by assumption. reflexivity.
Qed.

Lemma normalize_absent (s : str) :
  count_char "207" s = 0%nat -> count_char "^" s = 0%nat ->
  count_char "226" s = 0%nat -> normalize s = s.
Proof.
  intros H1 H2 H3. unfold normalize, sym_pi, sym_sqrt.
  rewrite (@replace_absent _ _ _ _ H1).
  change (py "^") with ["^"%char].
  rewrite (@replace_absent _ _ _ _ H2). now rewrite replace_absent.
Qed.

Lemma factor_follows_mantissa (c : ascii) (r : str) :
  mantissa_char c = true -> factor_follows (c :: r) = false.
Proof.
  unfold factor_follows, mantissa_char; cbn [py list_ascii_of_string starts_with].
  by_bits c.
Qed.

Lemma insert_after_digit_mantissa (a b : str) :
  forallb mantissa_char a = true ->
  insert_after_digit (a ++ b) =
  a ++ (if match a with [] => false | _ => is_digit (last a "0"%char) end
           && factor_follows b
        then "*"%char :: insert_after_digit b else insert_after_digit b).
Proof.
  induction a as [|c a IH]; [reflexivity|].
  cbn [forallb]; rewrite andb_true_iff; intros [Hc Ha].
  cbn [app]. rewrite insert_after_digit_cons, (IH Ha).
  destruct a as [|c' a].
  - cbn [app last]. destruct (is_digit c && factor_follows b); reflexivity.
  - cbn [forallb] in Ha; apply andb_true_iff in Ha as [Hc' _].
    cbn [app]. rewrite (@factor_follows_mantissa _ _ Hc'), andb_false_r.
    reflexivity.
Qed.

Lemma insert_after_digit_digits (s : str) :
  forallb mantissa_char s = true -> insert_after_digit s = s.
Proof.
  intros H. rewrite <- (app_nil_r s) at 1.
  rewrite (@insert_after_digit_mantissa _ [] H).
  change (factor_follows []) with false. rewrite andb_false_r.
  now rewrite app_nil_r.
Qed.

Lemma insert_after_paren_absent (s : str) :
  count_char ")" s = 0%nat -> insert_after_paren s = s.
Proof.
  induction s as [|c s IH]; intros H; [reflexivity|].
  apply count_zero_cons in H as [Hc Hs].
  rewrite insert_after_paren_cons, Hc, (IH Hs). reflexivity.
Qed.

(** A pattern that ends in [\(] finds nothing in text without [(]. *)
Lemma rmatch_none (R : Type) (r : regex) :
  forall (prev : option ascii) (s : str) (caps : captures)
         (k : option ascii -> str -> str -> captures -> option R),
    (forall p m s' c, count_char "(" s' = 0%nat -> k p m s' c = None) ->
    count_char "(" s = 0%nat -> rmatch r prev s caps k = None.
Proof.
  induction r as [c|p|a IHa b IHb|a IHa b IHb|a IHa|g a IHa|p];
    intros prev s caps k Hk Hs; cbn [rmatch].
  - destruct s as [|x s]; [reflexivity|].
    apply count_zero_cons in Hs as [_ Hs].
    destruct (ascii_eqb x c); auto.
  - destruct s as [|x s]; [reflexivity|].
    apply count_zero_cons in Hs as [_ Hs].
    destruct (p x); auto.
  - apply IHa; [|assumption]. intros p1 m1 s1 c1 H1.
    apply IHb; [|assumption]. intros; auto.
  - rewrite IHa by assumption. now apply IHb.
  - generalize (@nil ascii) at 1. generalize (length s).
    intros n; revert prev s caps Hs.
    induction n as [|n IHn]; intros prev s caps Hs m; [auto|].
    rewrite IHa; [auto | | assumption].
    intros p1 m1 s1 c1 H1. destruct m1; auto.
  - apply IHa; [|assumption]. intros; auto.
  - destruct prev as [c|]; [destruct (p c)|]; auto.
Qed.

Lemma open_paren_dead (R : Type) (prev : option ascii) (s : str)
    (caps : captures) (k : option ascii -> str -> str -> captures -> option R) :
  count_char "(" s = 0%nat -> rmatch (RChar "(") prev s caps k = None.
Proof.
  intros H. cbn [rmatch]. destruct s as [|x s]; [reflexivity|].
  apply count_zero_cons in H as [Hx _]. now rewrite Hx.
Qed.

Lemma seq_dead (R : Type) (a b : regex) :
  (forall prev s caps (k : option ascii -> str -> str -> captures -> option R),
      count_char "(" s = 0%nat -> rmatch b prev s caps k = None) ->
  forall prev s caps (k : option ascii -> str -> str -> captures -> option R),
    count_char "(" s = 0%nat -> rmatch (RSeq a b) prev s caps k = None.
Proof.
  intros Hb prev s caps k Hs. cbn [rmatch]. apply rmatch_none; [|assumption].
  intros p m s' c H. now apply Hb.
Qed.

Lemma trig_dead (R : Type) (prev : option ascii) (s : str) (caps : captures)
    (k : option ascii -> str -> str -> captures -> option R) :
  count_char "(" s = 0%nat -> rmatch _trig_re prev s caps k = None.
Proof.
  unfold _trig_re. revert prev s caps k.
  apply seq_dead. apply seq_dead. apply seq_dead.
  intros; now apply open_paren_dead.
Qed.

Lemma trig_loop_absent (fuel : nat) (prev : option ascii) (s : str) (b : bool) :
  count_char "(" s = 0%nat -> sub_loop fuel _trig_re trig_tpl prev s b = s.
Proof.
  revert prev s b.
  induction fuel as [|n IH]; intros prev s b Hs; [reflexivity|].
  cbn [sub_loop]. unfold match_at. rewrite (@trig_dead _ prev s [] _ Hs).
  destruct s as [|c s]; [reflexivity|].
  apply count_zero_cons in Hs as [_ Hs]. now rewrite IH.
Qed.

Lemma trig_absent (s : str) :
  count_char "(" s = 0%nat -> re_sub _trig_re trig_tpl s = s.
Proof. apply trig_loop_absent. Qed.

(** Text without [^], parentheses or a byte beyond ASCII goes through
    [evaluate]'s rewriting as the first substitution leaves it. *)
Lemma preprocess_calm (m : bool) (s : str) :
  count_char "207" s = 0%nat -> count_char "^" s = 0%nat ->
  count_char "226" s = 0%nat ->
  count_char "(" (insert_after_digit s) = 0%nat ->
  count_char ")" (insert_after_digit s) = 0%nat ->
  preprocess m s = insert_after_digit s.
Proof.
  intros H1 H2 H3 H4 H5. unfold preprocess, implicit_mul.
  rewrite normalize_absent, re_sub_digit, re_sub_paren by assumption.
  rewrite insert_after_paren_absent by assumption.
  unfold degrees_rewrite.
  replace (if m then _ else _) with (insert_after_digit s)
    by (destruct m; [now rewrite trig_absent | reflexivity]).
  apply balance_closed. lia.
Qed.

(** [strip] leaves text that neither starts nor ends with a blank. *)
Lemma lstrip_id (c : ascii) (s : str) :
  is_space c = false -> lstrip (c :: s) = c :: s.
Proof. intros H; simpl; now rewrite H. Qed.

Lemma strip_id (s : str) (z : ascii) :
  is_space (hd z (s ++ [z])) = false -> is_space z = false ->
  strip (s ++ [z]) = s ++ [z].
Proof.
  intros Hh Hz. unfold strip, rstrip.
  replace (lstrip (s ++ [z])) with (s ++ [z])
    by (destruct s; symmetry; now apply lstrip_id).
  rewrite rev_app_distr. cbn [rev app]. rewrite lstrip_id by assumption.
  cbn [rev]. now rewrite rev_involutive.
Qed.
(** ** The tokenizer on numerals and names *)

Lemma span_snd_length (p : ascii -> bool) (s : str) :
  (length (snd (span p s)) <= length s)%nat.
Proof.
  induction s as [|c s IH]; simpl; [lia|].
  destruct (p c); [|simpl; lia].
  destruct (span p s); simpl in *; lia.
Qed.

Lemma span_app (p : ascii -> bool) (a b : str) :
  forallb p a = true ->
  match b with [] => true | c :: _ => negb (p c) end = true ->
  span p (a ++ b) = (a, b).
Proof.
  intros Ha Hb; induction a as [|c a IH]; cbn [app].
  - destruct b as [|c b]; [reflexivity|]. simpl.
    now destruct (p c).
  - cbn [forallb] in Ha; apply andb_true_iff in Ha as [Hc Ha].
    simpl. now rewrite Hc, (IH Ha).
Qed.

Lemma lex_step_shorter (s : str) :
  match lex_step s with
  | SSkip r | STok _ r => (length r < length s)%nat
  | _ => True
  end.
Proof.
  assert (Hname : forall c r, is_name_start c = true ->
            match lex_name (c :: r) with
            | SSkip r' | STok _ r' => (length r' < length (c :: r))%nat
            | _ => True end).
  { intros c r Hc. unfold lex_name. simpl span.
    replace (is_name_char c) with true
      by (unfold is_name_char; now rewrite Hc).
    pose proof (span_snd_length is_name_char r) as H.
    destruct (span is_name_char r) as [a b]; simpl in H.
    repeat match goal with
    | |- context [if ?b then _ else _] => destruct b
    end; simpl; try exact I; lia. }
  assert (Hnum : forall c r, mantissa_char c = true ->
            match lex_number (c :: r) with
            | SSkip r' | STok _ r' => (length r' < length (c :: r))%nat
            | _ => True end).
  { intros c r Hc. unfold lex_number.
    assert (H2 : exists ip fp r2,
               (let (ip, r1) := span is_digit (c :: r) in
                let '(fp, r2) :=
                  match r1 with
                  | c :: r => if ascii_eqb c "."
                              then let (f, r') := span is_digit r in (Some f, r')
                              else (None, r1)
                  | [] => (None, r1)
                  end in (ip, fp, r2)) = (ip, fp, r2)
               /\ (length r2 <= length r)%nat).
    { simpl span. destruct (is_digit c) eqn:Hd.
      - pose proof (span_snd_length is_digit r) as H.
        destruct (span is_digit r) as [a b]; simpl in H.
        destruct b as [|x b]; [do 3 eexists; split; [reflexivity | simpl; lia]|].
        destruct (ascii_eqb x ".");
          [|do 3 eexists; split; [reflexivity | simpl in *; lia]].
        pose proof (span_snd_length is_digit b) as H'.
        destruct (span is_digit b) as [f r']; simpl in H'.
        do 3 eexists; split; [reflexivity | simpl in *; lia].
      - unfold mantissa_char in Hc. rewrite Hd in Hc. simpl in Hc. rewrite Hc.
        pose proof (span_snd_length is_digit r) as H'.
        destruct (span is_digit r) as [f r']; simpl in H'.
        do 3 eexists; split; [reflexivity | simpl in *; lia]. }
    destruct H2 as (ip & fp & r2 & E & Hlen).
    destruct (span is_digit (c :: r)) as [ip' r1].
    destruct (match r1 with
              | c :: r => if ascii_eqb c "."
                          then let (f, r') := span is_digit r in (Some f, r')
                          else (None, r1)
              | [] => (None, r1) end) as [fp' r2'].
    injection E as -> -> ->.
    pose proof (keeps_exponent r2) as (_ & _ & _ & H3).
    destruct (lex_exponent r2) as [ex r3]; simpl in H3.
    repeat match goal with
    | |- context [if ?b then _ else _] => destruct b
    | |- context [match ?x with _ => _ end] => is_var x; destruct x
    end; simpl; try exact I; simpl in *; lia. }
  unfold lex_step.
  destruct s as [|c r]; [exact I|].
  destruct (ascii_eqb c " " || ascii_eqb c "009"); [simpl; lia|].
  destruct (ascii_eqb c "#"); [destruct (forallb comment_ok r); exact I|].
  destruct (is_name_start c) eqn:E3; [now apply Hname|].
  destruct (is_digit c) eqn:E4.
  { apply Hnum. unfold mantissa_char. now rewrite E4. }
  destruct (ascii_eqb c ".") eqn:E5.
  { destruct r as [|d r1]; [simpl; lia|].
    destruct (is_digit d).
    - apply Hnum. unfold mantissa_char. now rewrite E5, orb_true_r.
    - repeat match goal with
      | |- context [if ?b then _ else _] => destruct b
      | |- context [match ?x with _ => _ end] => is_var x; destruct x
      end; simpl; lia. }
  repeat match goal with
  | |- context [if ?b then _ else _] => destruct b
  | |- context [match ?x with _ => _ end] => is_var x; destruct x
  end; simpl; try exact I; lia.
Qed.

(** Fuel beyond the length of the text changes nothing. *)
Lemma tokenize_fuel (n m : nat) (s : str) :
  (length s < n)%nat -> (length s < m)%nat -> tokenize n s = tokenize m s.
Proof.
  revert m s; induction n as [|n IH]; intros m s Hn Hm; [lia|].
  destruct m as [|m]; [lia|]. simpl.
  pose proof (lex_step_shorter s) as H.
  destruct (lex_step s) as [|r|t r|e|]; try reflexivity.
  - apply IH; lia.
  - rewrite (IH m r) by lia. reflexivity.
Qed.

Lemma tokenize_cons (s r : str) (t : token) (ts : list token) :
  lex_step s = STok t r -> tokenize (length r + 1) r = Ok ts ->
  tokenize (length s + 1) s = Ok (t :: ts).
Proof.
  intros Hs Hr. pose proof (lex_step_shorter s) as H. rewrite Hs in H.
  rewrite Nat.add_1_r. simpl. rewrite Hs.
  rewrite (tokenize_fuel (m := length r + 1)) by lia. now rewrite Hr.
Qed.

Lemma tokenize_nil : tokenize (length (@nil ascii) + 1) [] = Ok [].
Proof. reflexivity. Qed.

Lemma span_spec (p : ascii -> bool) (s : str) :
  let (a, b) := span p s in
  s = a ++ b /\ forallb p a = true
  /\ match b with [] => true | c :: _ => negb (p c) end = true.
Proof.
  induction s as [|c s IH]; simpl; [auto|].
  destruct (p c) eqn:E.
  - destruct (span p s) as [a b]. destruct IH as (-> & Ha & Hb).
    simpl. rewrite E. auto.
  - simpl. rewrite E. auto.
Qed.

Lemma forallb_weaken (p q : ascii -> bool) (s : str) :
  (forall c, p c = true -> q c = true) ->
  forallb p s = true -> forallb q s = true.
Proof.
  intros H; induction s as [|c s IH]; simpl; [auto|].
  rewrite !andb_true_iff; intros [Hc Hs]; auto.
Qed.

Lemma digit_starts_number (z : ascii) (r : str) :
  is_digit z = true -> lex_step (z :: r) = lex_number (z :: r).
Proof.
  intros Hz. unfold lex_step.
  replace (ascii_eqb z " " || ascii_eqb z "009") with false
    by (revert Hz; by_bits z).
  replace (ascii_eqb z "#") with false by (revert Hz; by_bits z).
  replace (is_name_start z) with false by (revert Hz; by_bits z).
  now rewrite Hz.
Qed.

Lemma ends_number_spec (rest : str) :
  ends_number rest = true ->
  match rest with [] => true | c :: _ => negb (is_digit c) end = true
  /\ lex_exponent rest = (None, rest)
  /\ match rest with c :: _ => is_name_start c | [] => false end = false
  /\ match rest with c :: _ => ascii_eqb c "." | [] => false end = false.
Proof.
  destruct rest as [|c r]; [auto|]. unfold ends_number, lex_exponent.
  intros H.
  replace (ascii_eqb c "e" || ascii_eqb c "E") with false
    by (revert H; by_bits c).
  repeat split; revert H; by_bits c.
Qed.

Lemma lex_number_int (ip rest : str) :
  int_numeral ip = true -> ends_number rest = true ->
  lex_number (ip ++ rest) = STok (TNum (VInt (digits_to_Z ip))) rest.
Proof.
  intros Hi Hr. destruct (ends_number_spec rest Hr) as (H1 & H2 & H3 & H4).
  unfold int_numeral in Hi. destruct ip as [|z ip]; [discriminate|].
  apply andb_true_iff in Hi as [Hd Hz].
  unfold lex_number. rewrite (span_app is_digit _ _ Hd H1).
  replace (match rest with
           | c :: r => if ascii_eqb c "."
                       then let (f, r') := span is_digit r in (Some f, r')
                       else (None, rest)
           | [] => (None, rest) end) with (@None str, rest)
    by (destruct rest as [|c r]; [reflexivity | now rewrite H4]).
  rewrite H2, H3.
  destruct ip as [|z' ip]; [reflexivity|].
  destruct (ascii_eqb z "0"); simpl in Hz |- *; [|reflexivity].
  unfold ascii_eqb in *. now rewrite Hz.
Qed.

Lemma lex_number_float (ip fp rest : str) :
  forallb is_digit ip = true -> forallb is_digit fp = true ->
  ends_number rest = true ->
  lex_number (ip ++ "."%char :: fp ++ rest) =
  STok (TNum (VFloat (float_of_dec (digits_to_Z (ip ++ fp))
                        (0 - Z.of_nat (length fp))))) rest.
Proof.
  intros Hi Hf Hr. destruct (ends_number_spec rest Hr) as (H1 & H2 & H3 & H4).
  unfold lex_number.
  rewrite (span_app is_digit ip ("."%char :: fp ++ rest) Hi eq_refl).
  change (ascii_eqb "." ".") with true. cbv iota.
  rewrite (span_app is_digit fp _ Hf H1). rewrite H2, H3. reflexivity.
Qed.

(** A numeral is read by the tokenizer as [read_unsigned] reads it. *)
Lemma read_unsigned_spec (u : str) (v : value) :
  read_unsigned u = Some v ->
  forallb mantissa_char u = true
  /\ (exists z r, u = z :: r /\ is_digit z = true)
  /\ (v = VInt (digits_to_Z u) \/ exists f, v = VFloat f)
  /\ forall rest, ends_number rest = true ->
       lex_step (u ++ rest) = STok (TNum v) rest.
Proof.
  unfold read_unsigned. pose proof (span_spec is_digit u) as H.
  destruct (span is_digit u) as [ip r]. destruct H as (-> & Hi & Hr).
  destruct ip as [|z ip]; [discriminate|].
  assert (Hz : is_digit z = true) by (simpl in Hi; now apply andb_true_iff in Hi).
  assert (Hm : forall s, forallb is_digit s = true -> forallb mantissa_char s = true).
  { intros s; apply forallb_weaken. intros c; unfold mantissa_char. now intros ->. }
  destruct r as [|c fp].
  - destruct (int_numeral (z :: ip)) eqn:Hn; [|discriminate]. intros [= <-].
    rewrite app_nil_r. split; [now apply Hm|]. split; [eauto|]. split; [auto|].
    intros rest Hrest. cbn [app]. rewrite digit_starts_number by assumption.
    now apply (lex_number_int (z :: ip)).
  - destruct (ascii_eqb c "." && forallb is_digit fp) eqn:Hc; [|discriminate].
    apply andb_true_iff in Hc as [Hc Hf]. apply ascii_eqb_eq in Hc; subst c.
    intros [= <-].
    split; [|split; [exists z, (ip ++ "."%char :: fp); auto|split; [eauto|]]].
    + rewrite forallb_app, (Hm _ Hi). simpl. now rewrite (Hm _ Hf).
    + intros rest Hrest. rewrite <- app_assoc. cbn [app].
      rewrite digit_starts_number by assumption.
      now apply (lex_number_float (z :: ip)).
Qed.

Lemma mantissa_solid (s : str) : forallb mantissa_char s = true -> solid s = true.
Proof. apply forallb_weaken. intros c; by_bits c. Qed.

Lemma strip_solid (s : str) : solid s = true -> strip s = s.
Proof.
  intros H. destruct s as [|c s] using rev_ind; [reflexivity|].
  unfold solid in H. rewrite forallb_app in H.
  apply andb_true_iff in H as [Hs Hc]. simpl in Hc.
  apply strip_id.
  - destruct s as [|x s]; simpl in *; [destruct (is_space c); auto; discriminate|].
    destruct (is_space x); auto; discriminate.
  - destruct (is_space c); auto; discriminate.
Qed.

Lemma ast_parse_tokens (text : str) (ts : list token) :
  solid text = true -> text <> [] ->
  tokenize (length text + 1) text = Ok ts ->
  ast_parse text = parse_expressions (parse_fuel ts) ts.
Proof.
  intros Hs Hn Ht. unfold ast_parse. destruct text as [|c r]; [congruence|].
  replace (ascii_eqb c " " || ascii_eqb c "009") with false.
  - now rewrite Ht.
  - simpl in Hs. apply andb_true_iff in Hs as [Hc _]. revert Hc. by_bits c.
Qed.

(** [evaluate] on text whose rewriting is known: [s1] after the symbol
    replacements, [s2] after the first substitution, and no parenthesis
    in it for the later steps to act on. *)
Lemma evaluate_via (L : Libm) (m : bool) (s s1 s2 : str) (ts : list token) :
  solid s = true -> s <> [] ->
  normalize s = s1 -> insert_after_digit s1 = s2 ->
  count_char "(" s2 = 0%nat -> count_char ")" s2 = 0%nat ->
  solid s2 = true -> s2 <> [] ->
  tokenize (length s2 + 1) s2 = Ok ts ->
  evaluate L m s = (node <- parse_expressions (parse_fuel ts) ts ;; _eval L node).
Proof.
  intros Hs Hn H1 H2 H4 H5 Hs2 Hn2 Ht. unfold evaluate.
  rewrite strip_solid by assumption. destruct s as [|c r]; [congruence|].
  unfold preprocess, implicit_mul.
  rewrite H1, re_sub_digit, H2, re_sub_paren.
  rewrite insert_after_paren_absent by assumption.
  unfold degrees_rewrite.
  replace (if m then _ else _) with s2
    by (destruct m; [now rewrite trig_absent | reflexivity]).
  rewrite balance_closed by lia.
  now rewrite (ast_parse_tokens Hs2 Hn2 Ht).
Qed.

(** The same for text that no step rewrites. *)
Lemma evaluate_calm (L : Libm) (m : bool) (s : str) (ts : list token) :
  solid s = true -> s <> [] ->
  count_char "207" s = 0%nat -> count_char "^" s = 0%nat ->
  count_char "226" s = 0%nat ->
  count_char "(" s = 0%nat -> count_char ")" s = 0%nat ->
  insert_after_digit s = s ->
  tokenize (length s + 1) s = Ok ts ->
  evaluate L m s = (node <- parse_expressions (parse_fuel ts) ts ;; _eval L node).
Proof.
  intros Hs Hn H1 H2 H3 H4 H5 Hi Ht.
  apply (@evaluate_via L m s s s ts); auto.
  now apply normalize_absent.
Qed.

Lemma mantissa_counts (s : str) :
  forallb mantissa_char s = true ->
  count_char "207" s = 0%nat /\ count_char "^" s = 0%nat
  /\ count_char "226" s = 0%nat /\ count_char "(" s = 0%nat
  /\ count_char ")" s = 0%nat.
Proof.
  intros H. repeat split; now apply (count_char_class mantissa_char).
Qed.

(** A plain decimal numeral evaluates to the number it denotes... *)
Lemma evaluate_unsigned (L : Libm) (m : bool) (u : str) (v : value) :
  read_unsigned u = Some v -> evaluate L m u = Ok v.
Proof.
  intros H. destruct (read_unsigned_spec u H) as (Hm & (z & r & -> & Hz) & _ & Hlex).
  destruct (mantissa_counts _ Hm) as (H1 & H2 & H3 & H4 & H5).
  specialize (Hlex [] eq_refl). rewrite app_nil_r in Hlex.
  rewrite (@evaluate_calm L m (z :: r) [TNum v]); auto.
  - now apply mantissa_solid.
  - discriminate.
  - now apply insert_after_digit_digits.
  - apply (tokenize_cons _ Hlex). reflexivity.
Qed.

(** ... and with a minus sign in front, to its negation. *)
Lemma evaluate_negative (L : Libm) (m : bool) (u : str) (v : value) :
  read_unsigned u = Some v -> evaluate L m ("-"%char :: u) = Ok (negated v).
Proof.
  intros H. destruct (read_unsigned_spec u H) as (Hm & (z & r & -> & Hz) & Hv & Hlex).
  destruct (mantissa_counts _ Hm) as (H1 & H2 & H3 & H4 & H5).
  specialize (Hlex [] eq_refl). rewrite app_nil_r in Hlex.
  rewrite (@evaluate_calm L m ("-"%char :: z :: r) [TMinus; TNum v]); auto.
  - destruct Hv as [-> | [f ->]]; reflexivity.
  - simpl. now apply mantissa_solid in Hm.
  - discriminate.
  - rewrite insert_after_digit_cons. change (is_digit "-") with false.
    cbn [andb]. f_equal. now apply insert_after_digit_digits.
  - apply (@tokenize_cons _ (z :: r) TMinus); [reflexivity|].
    apply (tokenize_cons _ Hlex). reflexivity.
Qed.
(** ** C5: evaluating the formatted result again *)



(** ** C10: a numeral with an exponent *)

Lemma solid_app (a b : str) : solid (a ++ b) = solid a && solid b.
Proof. apply forallb_app. Qed.

Lemma digits_name_chars (s : str) :
  forallb is_digit s = true -> forallb is_name_char s = true.
Proof. apply forallb_weaken. intros c; by_bits c. Qed.

Lemma digits_mantissa (s : str) :
  forallb is_digit s = true -> forallb mantissa_char s = true.
Proof. apply forallb_weaken. unfold mantissa_char. now intros c ->. Qed.

(** The name [e] followed by digits is one name, and no keyword. *)
Lemma lex_name_e (y rest : str) :
  forallb is_digit y = true ->
  match rest with [] => true | c :: _ => negb (is_name_char c) end = true ->
  lex_step ("e"%char :: y ++ rest) = STok (TName ("e"%char :: y)) rest.
Proof.
  intros Hy Hr. unfold lex_step.
  change (ascii_eqb "e" " " || ascii_eqb "e" "009") with false.
  change (ascii_eqb "e" "#") with false.
  change (is_name_start "e") with true. cbv iota.
  unfold lex_name. rewrite app_comm_cons.
  rewrite (span_app is_name_char ("e"%char :: y) rest)
    by (try assumption; simpl; now apply digits_name_chars).
  destruct y as [|d y]; [reflexivity|].
  simpl in Hy. apply andb_true_iff in Hy as [Hd _].
  assert (E1 : Ascii.eqb d "l" = false) by (revert Hd; by_bits d).
  assert (E2 : Ascii.eqb d "x" = false) by (revert Hd; by_bits d).
  unfold other_keywords, py, str_eqb, ascii_eqb. simpl. rewrite E1, E2.
  reflexivity.
Qed.

(** What the first substitution does to a mantissa that [e] follows. *)
Lemma insert_after_mantissa_e (u rest : str) :
  forallb mantissa_char u = true -> u <> [] ->
  is_digit (last u "0"%char) = true ->
  insert_after_digit (u ++ "e"%char :: rest)
  = u ++ "*"%char :: "e"%char :: insert_after_digit rest.
Proof.
  intros Hu Hn Hl. rewrite (@insert_after_digit_mantissa u _ Hu).
  destruct u as [|c u]; [congruence|]. rewrite Hl.
  change (factor_follows ("e"%char :: rest)) with true. cbn [andb].
  rewrite insert_after_digit_cons. reflexivity.
Qed.

Lemma count_app_zero (x : ascii) (a b : str) :
  count_char x a = 0%nat -> count_char x b = 0%nat -> count_char x (a ++ b) = 0%nat.
Proof. intros Ha Hb. rewrite count_char_app. lia. Qed.

(** Settles that a character the rewriting looks for does not occur in a
    text built from mantissas and given characters. *)
Ltac absent :=
  repeat first
    [ assumption
    | apply count_app_zero
    | match goal with
      | |- count_char ?x (?c :: ?s) = 0%nat =>
          change (count_char x (c :: s)) with (0 + count_char x s)%nat;
          cbn [Nat.add]
      | |- count_char _ [] = 0%nat => reflexivity
      end ].

(** Evaluation and preprocessing of a text without blanks, symbols to
    replace or parentheses, from what the first substitution makes of
    it. *)
Lemma evaluate_plain (L : Libm) (m : bool) (s s2 : str) (ts : list token) :
  solid s = true -> s <> [] ->
  count_char "207" s = 0%nat -> count_char "^" s = 0%nat ->
  count_char "226" s = 0%nat ->
  insert_after_digit s = s2 ->
  count_char "(" s2 = 0%nat -> count_char ")" s2 = 0%nat ->
  solid s2 = true -> s2 <> [] ->
  tokenize (length s2 + 1) s2 = Ok ts ->
  preprocess m s = s2
  /\ evaluate L m s = (node <- parse_expressions (parse_fuel ts) ts ;; _eval L node).
Proof.
  intros Hs Hn H1 H2 H3 Hi H4 H5 Hs2 Hn2 Ht. split.
  - rewrite preprocess_calm; rewrite ?Hi; auto.
  - apply (@evaluate_via L m s s s2 ts); auto. now apply normalize_absent.
Qed.

Section Exponent.

Variables (L : Libm) (m : bool) (u : str) (v : value).
Hypothesis Hu : read_unsigned u = Some v.
Hypothesis Hlast : is_digit (last u "0"%char) = true.

Lemma exponent_unsigned (y : str) :
  forallb is_digit y = true -> y <> [] ->
  preprocess m (u ++ "e"%char :: y) = u ++ "*"%char :: "e"%char :: y
  /\ evaluate L m (u ++ "e"%char :: y) = Raise (NameError ("e"%char :: y)).
Proof.
  intros Hy Hny.
  destruct (read_unsigned_spec u Hu) as (Hm & (z & r & Hzr & Hz) & Hv & Hlex).
  destruct (mantissa_counts _ Hm) as (H1 & H2 & H3 & H4 & H5).
  destruct (mantissa_counts _ (digits_mantissa _ Hy)) as (Y1 & Y2 & Y3 & Y4 & Y5).
  assert (Hnu : u <> []) by (subst u; discriminate).
  assert (Hsy : solid y = true) by (apply mantissa_solid, digits_mantissa, Hy).
  replace (Raise (NameError ("e"%char :: y)))
    with (node <- parse_expressions (parse_fuel [TNum v; TStar; TName ("e"%char :: y)])
                    [TNum v; TStar; TName ("e"%char :: y)] ;; _eval L node)
    by (destruct y as [|d y]; [congruence | reflexivity]).
  apply evaluate_plain.
  - rewrite solid_app, (mantissa_solid _ Hm). exact Hsy.
  - destruct u; [congruence | discriminate].
  - absent.
  - absent.
  - absent.
  - rewrite insert_after_mantissa_e by assumption.
    now rewrite insert_after_digit_digits by (now apply digits_mantissa).
  - absent.
  - absent.
  - rewrite solid_app, (mantissa_solid _ Hm). exact Hsy.
  - destruct u; [congruence | discriminate].
  - apply (tokenize_cons _ (Hlex ("*"%char :: "e"%char :: y) eq_refl)).
    apply (@tokenize_cons _ ("e"%char :: y) TStar); [reflexivity|].
    rewrite <- (app_nil_r y) at 1 2.
    apply (tokenize_cons _ (lex_name_e y [] Hy eq_refl)). reflexivity.
Qed.

Lemma exponent_absent :
  preprocess m (u ++ ["e"%char]) = u ++ ["*"%char; "e"%char]
  /\ evaluate L m (u ++ ["e"%char]) = op_mul v (VFloat math_e).
Proof.
  destruct (read_unsigned_spec u Hu) as (Hm & (z & r & Hzr & Hz) & Hv & Hlex).
  destruct (mantissa_counts _ Hm) as (H1 & H2 & H3 & H4 & H5).
  assert (Hnu : u <> []) by (subst u; discriminate).
  replace (op_mul v (VFloat math_e))
    with (node <- parse_expressions (parse_fuel [TNum v; TStar; TName ["e"%char]])
                    [TNum v; TStar; TName ["e"%char]] ;; _eval L node)
    by reflexivity.
  apply evaluate_plain.
  - rewrite solid_app, (mantissa_solid _ Hm). reflexivity.
  - destruct u; [congruence | discriminate].
  - absent.
  - absent.
  - absent.
  - now rewrite insert_after_mantissa_e by assumption.
  - absent.
  - absent.
  - rewrite solid_app, (mantissa_solid _ Hm). reflexivity.
  - destruct u; [congruence | discriminate].
  - apply (tokenize_cons _ (Hlex ("*"%char :: ["e"%char]) eq_refl)).
    apply (@tokenize_cons _ ["e"%char] TStar); [reflexivity|].
    apply (tokenize_cons _ (lex_name_e [] [] eq_refl eq_refl)). reflexivity.
Qed.

(** A signed exponent: the sign becomes a binary operator. *)
Lemma exponent_signed (sgn : ascii) (t : token) (o : operator) (y : str) (w : value) :
  (sgn, t, o) = ("+"%char, TPlus, Add) \/ (sgn, t, o) = ("-"%char, TMinus, Sub) ->
  read_unsigned y = Some w ->
  preprocess m (u ++ "e"%char :: sgn :: y) = u ++ "*"%char :: "e"%char :: sgn :: y
  /\ evaluate L m (u ++ "e"%char :: sgn :: y)
     = _eval L (BinOp (BinOp (Constant v) Mult (Name ["e"%char])) o (Constant w)).
Proof.
  intros Hs Hy.
  destruct (read_unsigned_spec u Hu) as (Hm & (z & r & Hzr & Hz) & Hv & Hlex).
  destruct (mantissa_counts _ Hm) as (H1 & H2 & H3 & H4 & H5).
  destruct (read_unsigned_spec y Hy) as (Hmy & (zy & ry & Hzry & Hzy) & Hvy & Hlexy).
  destruct (mantissa_counts _ Hmy) as (Y1 & Y2 & Y3 & Y4 & Y5).
  assert (Hnu : u <> []) by (subst u; discriminate).
  assert (Hsg : is_space sgn = false /\ is_digit sgn = false)
    by (destruct Hs as [E | E]; inversion E; now split).
  destruct Hsg as [Hsp Hdg].
  replace (_eval L (BinOp (BinOp (Constant v) Mult (Name ["e"%char])) o (Constant w)))
    with (node <- parse_expressions (parse_fuel [TNum v; TStar; TName ["e"%char]; t; TNum w])
                    [TNum v; TStar; TName ["e"%char]; t; TNum w] ;; _eval L node)
    by (destruct Hs as [E | E]; inversion E; reflexivity).
  assert (Hsol : forall mid, solid mid = true -> solid (u ++ mid ++ sgn :: y) = true).
  { intros mid Hmid. rewrite !solid_app, (mantissa_solid _ Hm), Hmid.
    cbn [solid forallb andb]. rewrite Hsp. apply (mantissa_solid _ Hmy). }
  apply evaluate_plain.
  - apply (Hsol ["e"%char]). reflexivity.
  - destruct u; [congruence | discriminate].
  - destruct Hs as [E | E]; inversion E; absent.
  - destruct Hs as [E | E]; inversion E; absent.
  - destruct Hs as [E | E]; inversion E; absent.
  - rewrite insert_after_mantissa_e by assumption.
    rewrite insert_after_digit_cons, Hdg. cbn [andb].
    now rewrite insert_after_digit_digits.
  - destruct Hs as [E | E]; inversion E; absent.
  - destruct Hs as [E | E]; inversion E; absent.
  - apply (Hsol ["*"%char; "e"%char]). reflexivity.
  - destruct u; [congruence | discriminate].
  - apply (tokenize_cons _ (Hlex ("*"%char :: "e"%char :: sgn :: y) eq_refl)).
    apply (@tokenize_cons _ ("e"%char :: sgn :: y) TStar); [reflexivity|].
    apply (@tokenize_cons _ (sgn :: y) (TName ["e"%char])).
    { apply (lex_name_e [] (sgn :: y) eq_refl).
      destruct Hs as [E | E]; inversion E; reflexivity. }
    apply (@tokenize_cons _ y t).
    { destruct Hs as [E | E]; inversion E; reflexivity. }
    specialize (Hlexy [] eq_refl). rewrite app_nil_r in Hlexy.
    apply (tokenize_cons _ Hlexy). reflexivity.
Qed.

End Exponent.



(** ** The parser: more fuel, same answer *)

(** The same call with one more unit of fuel, by the induction
    hypothesis. *)
Ltac grows_call IH n c :=
  let H := fresh "H" in
  let E := fresh "E" in
  ih_for IH n c H;
  destruct c as [[? ?]| ? |] eqn:E;
  rewrite ?E in *;
  [ rewrite H by discriminate | rewrite H by discriminate | ];
  cbn [bind fst snd] in *; try congruence.

Ltac grows_step :=
  match goal with
  | H : OutsideModel <> OutsideModel |- _ => congruence
  | |- ?x = ?x => reflexivity
  | IH : grammar_grows ?n, H : context [bind ?c _] |- _ =>
      grows_call IH n c
  | H : context [match ?x with _ => _ end] |- _ =>
      is_var x; destruct x; cbn [bind fst snd] in *
  | IH : grammar_grows ?n, H : ?c <> OutsideModel |- _ = ?c =>
      let H' := fresh "H" in ih_for IH n c H'; exact (H' H)
  end.

(** Unfolds the call on each side once. *)
Ltac grows_unfold n H :=
  simpl in H;
  match goal with
  | |- ?l = ?r => let r' := eval simpl in r in change (l = r')
  end;
  let m := fresh "m" in
  let Em := fresh "Em" in
  remember (S n) as m eqn:Em in |- *; simpl; subst m.

Lemma grammar_grows_all (n : nat) : grammar_grows n.
Proof.
  induction n as [|n IH].
  - unfold grammar_grows; repeat split; intros; simpl in *; congruence.
  - unfold grammar_grows; repeat split; intros.
    all: match goal with H : _ <> OutsideModel |- _ => grows_unfold n H end.
    all: repeat grows_step.
Qed.

Lemma parse_sum_grows (n m : nat) (ts : list token) :
  (n <= m)%nat -> parse_sum n ts <> OutsideModel ->
  parse_sum m ts = parse_sum n ts.
Proof.
  intros Hnm H. induction Hnm as [|m Hnm IH]; [reflexivity|].
  rewrite <- IH. apply (proj1 (grammar_grows_all m)). now rewrite IH.
Qed.
(** ** Reading back a printed tree *)

Lemma ev_const (A : Type) (res : result A) : ev (fun _ => res) res.
Proof. now exists 0%nat. Qed.

Lemma ev_step (A : Type) (f g : nat -> result A) (res : result A) :
  (forall n, f (S n) = g n) -> ev g res -> ev f res.
Proof.
  intros E [n0 H]. exists (S n0). intros [|n] Hn; [lia|].
  rewrite E. apply H. lia.
Qed.

Lemma ev_bind (A B : Type) (f : nat -> result A) (g : A -> nat -> result B)
    (a : A) (res : result B) :
  ev f (Ok a) -> ev (g a) res -> ev (fun n => bind (f n) (fun x => g x n)) res.
Proof.
  intros [n1 H1] [n2 H2]. exists (n1 + n2)%nat. intros n Hn.
  rewrite H1 by lia. simpl. apply H2. lia.
Qed.

(** *** The printed text *)

Lemma unparse_wrap (lvl : nat) (e : expr) :
  (level e < lvl)%nat -> unparse lvl e = TLPar :: unparse 0 e ++ [TRPar].
Proof.
  intros H. apply Nat.ltb_lt in H.
  destruct e; cbn [unparse] in *; rewrite H; reflexivity.
Qed.

Lemma unparse_bare (lvl : nat) (e : expr) :
  (lvl <= level e)%nat -> unparse lvl e = unparse 0 e.
Proof.
  intros H. apply Nat.ltb_ge in H.
  destruct e; cbn [unparse] in *; rewrite H; reflexivity.
Qed.

Lemma unparse_next (lvl : nat) (e : expr) :
  level e <> lvl -> unparse lvl e = unparse (S lvl) e.
Proof.
  intros H. destruct (Nat.lt_ge_cases (level e) lvl).
  - rewrite (@unparse_wrap lvl e), (@unparse_wrap (S lvl) e) by lia. reflexivity.
  - rewrite (@unparse_bare lvl e), (@unparse_bare (S lvl) e) by lia. reflexivity.
Qed.

Lemma unparse_call (lvl : nat) (f : str) (args kws : list expr) :
  (lvl <= 4)%nat ->
  unparse lvl (Call (Name f) args kws) = TName f :: TLPar :: unparse_args args.
Proof.
  intros Hl. rewrite unparse_bare by exact Hl.
  reflexivity.
Qed.

Lemma shaped_call (f : str) (args : list expr) :
  shaped (Call (Name f) args []) = forallb shaped args.
Proof.
  cbn [shaped]. induction args as [|a l IH]; [reflexivity|].
  cbn [forallb]. now rewrite <- IH.
Qed.

Lemma unparse_opens (e : expr) :
  shaped e = true ->
  forall lvl rest,
    opens_operand (unparse lvl e ++ rest) = true
    /\ ((3 <= lvl)%nat -> opens_primary (unparse lvl e ++ rest) = true).
Proof.
  induction e as [v|id|l IHl o r IHr|o a IHa|f IHf args kws|?|?|?];
    intros Hs lvl rest; try discriminate;
    (match goal with
     | |- context [unparse lvl ?x] =>
         destruct (Nat.lt_ge_cases (level x) lvl) as [H | H]
     end;
     [rewrite unparse_wrap by assumption; split; reflexivity
     |rewrite unparse_bare by assumption]).
  - split; reflexivity.
  - split; reflexivity.
  - cbn [shaped] in Hs. apply andb_true_iff in Hs as [Hl Hr].
    cbn [unparse level Nat.ltb Nat.leb].
    rewrite <- app_assoc. split.
    + apply (IHl Hl).
    + intros H3. apply (IHl Hl). cbn [level] in H.
      destruct o; simpl in *; lia.
  - cbn [level] in H. split.
    + destruct o; try discriminate; reflexivity.
    + lia.
  - destruct f; try discriminate. rewrite unparse_call by lia.
    split; reflexivity.
Qed.

Lemma unparse_args_opens (a : expr) (l : list expr) (rest : list token) :
  shaped a = true -> opens_operand (unparse_args (a :: l) ++ rest) = true.
Proof.
  intros H. destruct l; cbn [unparse_args]; rewrite <- app_assoc;
    now apply unparse_opens.
Qed.

(** *** One step of each rule *)

Lemma primary_rest_stop (n : nat) (a : expr) (rest : list token) :
  after_primary rest = true -> primary_rest (S n) a rest = Ok (a, rest).
Proof. destruct rest as [|[] ?]; try discriminate; reflexivity. Qed.

Lemma parse_atom_paren (n : nat) (ts : list token) :
  opens_operand ts = true ->
  parse_atom (S n) (TLPar :: ts)
  = ('(e, r1) <- group_item n ts ;;
     match r1 with
     | TRPar :: r2 => if is_starred e then Raise SyntaxError else Ok (e, r2)
     | TComma :: r2 => '(es, r3) <- tuple_rest n r2 ;; Ok (Tuple (e :: es), r3)
     | _ => Raise SyntaxError
     end).
Proof. destruct ts as [|[] ?]; try discriminate; reflexivity. Qed.

Lemma group_item_operand (n : nat) (ts : list token) :
  opens_operand ts = true -> group_item (S n) ts = parse_sum n ts.
Proof. destruct ts as [|[] ?]; try discriminate; reflexivity. Qed.

Lemma parse_factor_power (n : nat) (ts : list token) :
  opens_primary ts = true -> parse_factor (S n) ts = parse_power n ts.
Proof. destruct ts as [|[] ?]; try discriminate; reflexivity. Qed.

Lemma term_rest_stop (n : nat) (l : expr) (rest : list token) :
  after_term rest = true -> term_rest (S n) l rest = Ok (l, rest).
Proof. destruct rest as [|[] ?]; try discriminate; reflexivity. Qed.

Lemma sum_rest_stop (n : nat) (l : expr) (rest : list token) :
  after_sum rest = true -> sum_rest (S n) l rest = Ok (l, rest).
Proof. destruct rest as [|[] ?]; try discriminate; reflexivity. Qed.

Lemma after_term_factor (rest : list token) :
  after_term rest = true -> after_factor rest = true.
Proof. destruct rest as [|[] ?]; try discriminate; reflexivity. Qed.

Lemma after_factor_primary (rest : list token) :
  after_factor rest = true -> after_primary rest = true.
Proof. destruct rest as [|[] ?]; try discriminate; reflexivity. Qed.

(** *** From one rule to the next *)

Section Lifting.

Variable e : expr.
Hypothesis He : shaped e = true.

Lemma reads_paren : (level e < 4)%nat -> reads_sum e -> reads_primary e.
Proof.
  intros Hl Hs rest Hrest. rewrite unparse_wrap by assumption.
  cbn [app]. rewrite <- app_assoc. cbn [app].
  eapply ev_step; [intros n; reflexivity|]. cbn beta.
  apply ev_bind with (a := (e, rest))
    (g := fun x n => let '(a, r) := x in primary_rest n a r).
  - eapply ev_step.
    { intros n. apply parse_atom_paren. now apply unparse_opens. }
    apply ev_bind with (a := (e, TRPar :: rest))
      (g := fun x (n : nat) =>
              let '(e, r1) := x in
              match r1 with
              | TRPar :: r2 => if is_starred e then Raise SyntaxError else Ok (e, r2)
              | TComma :: r2 => '(es, r3) <- tuple_rest n r2 ;; Ok (Tuple (e :: es), r3)
              | _ => Raise SyntaxError
              end).
    + eapply ev_step.
      { intros n. apply group_item_operand. now apply unparse_opens. }
      apply Hs; [reflexivity|].
      eapply ev_step; [intros n; now apply sum_rest_stop|]. apply ev_const.
    + cbn beta iota. replace (is_starred e) with false
        by (destruct e; try reflexivity; discriminate).
      apply ev_const.
  - cbn beta iota. eapply ev_step; [intros n; now apply primary_rest_stop|].
    apply ev_const.
Qed.

Lemma reads_primary_power : level e <> 3%nat -> reads_primary e -> reads_power e.
Proof.
  intros Hl Hp rest Hrest. rewrite unparse_next by assumption.
  eapply ev_step; [intros n; reflexivity|]. cbn beta.
  apply ev_bind with (a := (e, rest))
    (g := fun x n =>
            let '(b, r) := x in
            match r with
            | TDStar :: r' => '(e, r'') <- parse_factor n r' ;; Ok (BinOp b Pow e, r'')
            | _ => Ok (b, r)
            end).
  - apply Hp. now apply after_factor_primary.
  - cbn beta iota. replace (fun n : nat => _) with (fun _ : nat => Ok (e, rest)).
    + apply ev_const.
    + destruct rest as [|[] ?]; try discriminate; reflexivity.
Qed.

Lemma reads_power_factor : level e <> 2%nat -> reads_power e -> reads_factor e.
Proof.
  intros Hl Hp rest Hrest. rewrite unparse_next by assumption.
  eapply ev_step.
  { intros n. apply parse_factor_power. apply unparse_opens; [exact He | lia]. }
  now apply Hp.
Qed.

Lemma reads_factor_term : level e <> 1%nat -> reads_factor e -> reads_term e.
Proof.
  intros Hl Hf rest res Hrest Hres. rewrite unparse_next by assumption.
  eapply ev_step; [intros n; reflexivity|]. cbn beta.
  apply ev_bind with (a := (e, rest))
    (g := fun x n => let '(l, r) := x in term_rest n l r).
  - now apply Hf.
  - exact Hres.
Qed.

Lemma reads_term_sum : level e <> 0%nat -> reads_term e -> reads_sum e.
Proof.
  intros Hl Ht rest res Hrest Hres. rewrite unparse_next by assumption.
  eapply ev_step; [intros n; reflexivity|]. cbn beta.
  apply ev_bind with (a := (e, rest))
    (g := fun x n => let '(l, r) := x in sum_rest n l r).
  - apply Ht; [now apply after_term_factor|].
    eapply ev_step; [intros n; now apply term_rest_stop|]. apply ev_const.
  - exact Hres.
Qed.

End Lifting.

(** *** The operators *)

Section Operators.

Variables l r : expr.
Hypothesis Hl : shaped l = true.
Hypothesis Hr : shaped r = true.

Lemma reads_add (o : operator) :
  binop_level o = 0%nat -> reads_sum l -> reads_term r -> reads_sum (BinOp l o r).
Proof.
  intros Ho Hsl Htr rest res Hrest Hres.
  replace (unparse 0 (BinOp l o r))
    with (unparse 0 l ++ binop_token o :: unparse 1 r)
    by (destruct o; try discriminate; reflexivity).
  rewrite <- app_assoc. cbn [app].
  apply Hsl; [destruct o; try discriminate; reflexivity|].
  eapply ev_step with
    (g := fun n => '(t, r') <- parse_term n (unparse 1 r ++ rest) ;;
                   sum_rest n (BinOp l o t) r').
  { intros n. destruct o; try discriminate; reflexivity. }
  apply ev_bind with (a := (r, rest))
    (g := fun x n => let '(t, r') := x in sum_rest n (BinOp l o t) r').
  - apply Htr; [now apply after_term_factor|].
    eapply ev_step; [intros n; now apply term_rest_stop|]. apply ev_const.
  - exact Hres.
Qed.

Lemma reads_mul (o : operator) :
  binop_level o = 1%nat -> reads_term l -> reads_factor r -> reads_term (BinOp l o r).
Proof.
  intros Ho Htl Hfr rest res Hrest Hres.
  replace (unparse 1 (BinOp l o r))
    with (unparse 1 l ++ binop_token o :: unparse 2 r)
    by (destruct o; try discriminate; reflexivity).
  rewrite <- app_assoc. cbn [app].
  apply Htl; [destruct o; try discriminate; reflexivity|].
  eapply ev_step with
    (g := fun n => '(t, r') <- parse_factor n (unparse 2 r ++ rest) ;;
                   term_rest n (BinOp l o t) r').
  { intros n. destruct o; try discriminate; reflexivity. }
  apply ev_bind with (a := (r, rest))
    (g := fun x n => let '(t, r') := x in term_rest n (BinOp l o t) r').
  - now apply Hfr.
  - exact Hres.
Qed.

Lemma reads_pow : reads_primary l -> reads_factor r -> reads_power (BinOp l Pow r).
Proof.
  intros Hpl Hfr rest Hrest.
  change (unparse 3 (BinOp l Pow r)) with (unparse 4 l ++ TDStar :: unparse 2 r).
  rewrite <- app_assoc. cbn [app].
  eapply ev_step; [intros n; reflexivity|]. cbn beta.
  apply ev_bind with (a := (l, TDStar :: unparse 2 r ++ rest))
    (g := fun x n =>
            let '(b, r0) := x in
            match r0 with
            | TDStar :: r' => '(e, r'') <- parse_factor n r' ;; Ok (BinOp b Pow e, r'')
            | _ => Ok (b, r0)
            end).
  - now apply Hpl.
  - cbn beta iota.
    apply ev_bind with (a := (r, rest))
      (g := fun x (n : nat) => let '(e, r'') := x in Ok (BinOp l Pow e, r'')).
    + now apply Hfr.
    + apply ev_const.
Qed.

Lemma reads_sign (o : unaryop) :
  unary_operators o <> None -> reads_factor r -> reads_factor (UnaryOp o r).
Proof.
  intros Ho Hfr rest Hrest.
  change (unparse 2 (UnaryOp o r)) with (unary_token o :: unparse 2 r).
  cbn [app].
  eapply ev_step with
    (g := fun n => '(e, r') <- parse_factor n (unparse 2 r ++ rest) ;;
                   Ok (UnaryOp o e, r')).
  { intros n. destruct o; try (now elim Ho); reflexivity. }
  apply ev_bind with (a := (r, rest))
    (g := fun x (n : nat) => let '(e, r') := x in Ok (UnaryOp o e, r')).
  - now apply Hfr.
  - apply ev_const.
Qed.

End Operators.

(** *** Names, numbers and calls *)

Lemma reads_atom (e : expr) :
  match e with Constant _ | Name _ => True | _ => False end ->
  reads_primary e.
Proof.
  intros He rest Hrest.
  eapply ev_step; [intros n; reflexivity|]. cbn beta.
  apply ev_bind with (a := (e, rest))
    (g := fun x n => let '(a, r) := x in primary_rest n a r).
  - eapply ev_step with (g := fun _ => Ok (e, rest)); [|apply ev_const].
    intros n. destruct e; try (now elim He); reflexivity.
  - cbn beta iota. eapply ev_step; [intros n; now apply primary_rest_stop|].
    apply ev_const.
Qed.

(** The arguments of a call, read by [parse_args]. *)
Lemma reads_args (a : expr) (l : list expr) (rest : list token) :
  Forall (fun x => shaped x = true /\ reads_sum x) (a :: l) ->
  ev (fun n => parse_args n false (unparse_args (a :: l) ++ rest))
     (Ok (a :: l, [], rest)).
Proof.
  revert a. induction l as [|b l IH]; intros a Hall.
  - apply Forall_inv in Hall as [Hs Hr].
    cbn [unparse_args]. rewrite <- app_assoc. cbn [app].
    pose proof (proj1 (@unparse_opens a Hs 0%nat (TRPar :: rest))) as Ho.
    eapply ev_step with
      (g := fun n =>
         '(ak, r1) <- ('(e, r') <- parse_sum n (unparse 0 a ++ TRPar :: rest) ;;
                       Ok (([e], []), r')) ;;
         match r1 with
         | TRPar :: r2 => Ok (fst ak, snd ak, r2)
         | TComma :: TRPar :: r2 => Ok (fst ak, snd ak, r2)
         | TComma :: r2 =>
             '(args, kws, r3) <- parse_args n (false || negb (match snd ak with [] => true | _ => false end)) r2 ;;
             Ok (fst ak ++ args, snd ak ++ kws, r3)
         | _ => Raise SyntaxError
         end).
    { intros n. destruct (unparse 0 a ++ TRPar :: rest) as [|[] ?];
        try discriminate; reflexivity. }
    apply ev_bind with (a := (([a], @nil expr), TRPar :: rest))
      (g := fun x n =>
         let '(ak, r1) := x in
         match r1 with
         | TRPar :: r2 => Ok (fst ak, snd ak, r2)
         | TComma :: TRPar :: r2 => Ok (fst ak, snd ak, r2)
         | TComma :: r2 =>
             '(args, kws, r3) <- parse_args n (false || negb (match snd ak with [] => true | _ => false end)) r2 ;;
             Ok (fst ak ++ args, snd ak ++ kws, r3)
         | _ => Raise SyntaxError
         end).
    + apply ev_bind with (a := (a, TRPar :: rest))
        (g := fun x (n : nat) => let '(e, r') := x in Ok (([e], @nil expr), r')).
      * apply Hr; [reflexivity|].
        eapply ev_step; [intros n; now apply sum_rest_stop|]. apply ev_const.
      * apply ev_const.
    + apply ev_const.
  - pose proof (Forall_inv Hall) as [Hs Hr].
    pose proof (Forall_inv_tail Hall) as Htl.
    pose proof (Forall_inv Htl) as [Hsb _].
    change (unparse_args (a :: b :: l))
      with (unparse 0 a ++ TComma :: unparse_args (b :: l)).
    rewrite <- app_assoc. cbn [app].
    pose proof (proj1 (@unparse_opens a Hs 0%nat
                         (TComma :: unparse_args (b :: l) ++ rest))) as Ho.
    pose proof (@unparse_args_opens b l rest Hsb) as Hob.
    eapply ev_step with
      (g := fun n =>
         '(ak, r1) <- ('(e, r') <- parse_sum n (unparse 0 a ++ TComma :: unparse_args (b :: l) ++ rest) ;;
                       Ok (([e], []), r')) ;;
         match r1 with
         | TRPar :: r2 => Ok (fst ak, snd ak, r2)
         | TComma :: TRPar :: r2 => Ok (fst ak, snd ak, r2)
         | TComma :: r2 =>
             '(args, kws, r3) <- parse_args n (false || negb (match snd ak with [] => true | _ => false end)) r2 ;;
             Ok (fst ak ++ args, snd ak ++ kws, r3)
         | _ => Raise SyntaxError
         end).
    { intros n.
      destruct (unparse 0 a ++ TComma :: unparse_args (b :: l) ++ rest) as [|[] ?];
        try discriminate; reflexivity. }
    apply ev_bind with (a := (([a], @nil expr), TComma :: unparse_args (b :: l) ++ rest))
      (g := fun x n =>
         let '(ak, r1) := x in
         match r1 with
         | TRPar :: r2 => Ok (fst ak, snd ak, r2)
         | TComma :: TRPar :: r2 => Ok (fst ak, snd ak, r2)
         | TComma :: r2 =>
             '(args, kws, r3) <- parse_args n (false || negb (match snd ak with [] => true | _ => false end)) r2 ;;
             Ok (fst ak ++ args, snd ak ++ kws, r3)
         | _ => Raise SyntaxError
         end).
    + apply ev_bind with (a := (a, TComma :: unparse_args (b :: l) ++ rest))
        (g := fun x (n : nat) => let '(e, r') := x in Ok (([e], @nil expr), r')).
      * apply Hr; [reflexivity|].
        eapply ev_step; [intros n; now apply sum_rest_stop|]. apply ev_const.
      * apply ev_const.
    + cbn beta iota. cbn [fst snd orb negb].
      destruct (unparse_args (b :: l) ++ rest) as [|t ts'] eqn:E;
        [discriminate|].
      replace (fun n : nat => _)
        with (fun n => '(args, kws, r3) <- parse_args n false (t :: ts') ;;
                       Ok ([a] ++ args, @nil expr ++ kws, r3))
        by (destruct t; try discriminate; reflexivity).
      apply ev_bind with (a := (b :: l, @nil expr, rest))
        (g := fun x (n : nat) =>
                let '(args, kws, r3) := x in
                Ok ([a] ++ args, @nil expr ++ kws, r3)).
      * rewrite <- E. now apply IH.
      * apply ev_const.
Qed.

Lemma reads_call (f : str) (args : list expr) :
  Forall (fun x => shaped x = true /\ reads_sum x) args ->
  reads_primary (Call (Name f) args []).
Proof.
  intros Hall rest Hrest. rewrite unparse_call by lia. cbn [app].
  eapply ev_step; [intros n; reflexivity|]. cbn beta.
  apply ev_bind with (a := (Name f, TLPar :: unparse_args args ++ rest))
    (g := fun x n => let '(a, r) := x in primary_rest n a r).
  { eapply ev_step with (g := fun _ => Ok (Name f, TLPar :: unparse_args args ++ rest));
      [reflexivity | apply ev_const]. }
  cbn beta iota. destruct args as [|a l].
  - eapply ev_step with (g := fun n => primary_rest n (Call (Name f) [] []) rest);
      [reflexivity|].
    eapply ev_step; [intros n; now apply primary_rest_stop|]. apply ev_const.
  - pose proof (Forall_inv Hall) as [Hs _].
    pose proof (@unparse_args_opens a l rest Hs) as Ho.
    pose proof (@reads_args a l rest Hall) as Hr.
    destruct (unparse_args (a :: l) ++ rest) as [|t ts'] eqn:E; [discriminate|].
    eapply ev_step with
      (g := fun n => '(args, kws, r') <- parse_args n false (t :: ts') ;;
                     primary_rest n (Call (Name f) args kws) r').
    { intros n. destruct t; try discriminate; reflexivity. }
    apply ev_bind with (a := (a :: l, @nil expr, rest))
      (g := fun x n => let '(args, kws, r') := x in
                       primary_rest n (Call (Name f) args kws) r').
    + exact Hr.
    + cbn beta iota. eapply ev_step; [intros n; now apply primary_rest_stop|].
      apply ev_const.
Qed.

(** *** Every tree *)

(** A tree is read back under every rule once it is under its own. *)
Lemma reads_from_own_level (e : expr) :
  shaped e = true ->
  match level e with
  | 0 => reads_sum e
  | 1 => reads_term e
  | 2 => reads_factor e
  | 3 => reads_power e
  | _ => reads_primary e
  end%nat ->
  reads e.
Proof.
  intros He H. unfold reads.
  destruct (level e) as [|[|[|[|k]]]] eqn:E.
  - assert (H4 : reads_primary e) by (apply reads_paren; [exact He | lia | exact H]).
    assert (H3 : reads_power e) by (apply reads_primary_power; [lia | exact H4]).
    assert (H2 : reads_factor e) by (apply reads_power_factor; [exact He | lia | exact H3]).
    assert (H1 : reads_term e) by (apply reads_factor_term; [lia | exact H2]).
    auto.
  - assert (H0 : reads_sum e) by (apply reads_term_sum; [lia | exact H]).
    assert (H4 : reads_primary e) by (apply reads_paren; [exact He | lia | exact H0]).
    assert (H3 : reads_power e) by (apply reads_primary_power; [lia | exact H4]).
    assert (H2 : reads_factor e) by (apply reads_power_factor; [exact He | lia | exact H3]).
    auto.
  - assert (H1 : reads_term e) by (apply reads_factor_term; [lia | exact H]).
    assert (H0 : reads_sum e) by (apply reads_term_sum; [lia | exact H1]).
    assert (H4 : reads_primary e) by (apply reads_paren; [exact He | lia | exact H0]).
    assert (H3 : reads_power e) by (apply reads_primary_power; [lia | exact H4]).
    auto.
  - assert (H2 : reads_factor e) by (apply reads_power_factor; [exact He | lia | exact H]).
    assert (H1 : reads_term e) by (apply reads_factor_term; [lia | exact H2]).
    assert (H0 : reads_sum e) by (apply reads_term_sum; [lia | exact H1]).
    assert (H4 : reads_primary e) by (apply reads_paren; [exact He | lia | exact H0]).
    auto.
  - assert (H3 : reads_power e) by (apply reads_primary_power; [lia | exact H]).
    assert (H2 : reads_factor e) by (apply reads_power_factor; [exact He | lia | exact H3]).
    assert (H1 : reads_term e) by (apply reads_factor_term; [lia | exact H2]).
    assert (H0 : reads_sum e) by (apply reads_term_sum; [lia | exact H1]).
    auto.
Qed.

(** Induction on the trees of arithmetic. *)
Lemma shaped_induction (P : expr -> Prop) :
  (forall v, shaped (Constant v) = true -> P (Constant v)) ->
  (forall id, P (Name id)) ->
  (forall l o r, shaped l = true -> shaped r = true -> P l -> P r -> P (BinOp l o r)) ->
  (forall o a, unary_operators o <> None -> shaped a = true -> P a -> P (UnaryOp o a)) ->
  (forall f args, Forall (fun x => shaped x = true /\ P x) args ->
                  P (Call (Name f) args [])) ->
  forall e, shaped e = true -> P e.
Proof.
  intros HC HN HB HU HF. fix IH 1.
  intros [v|id|l o r|o a|f args kws|?|?|?] H; try discriminate.
  - now apply HC.
  - apply HN.
  - cbn [shaped] in H. apply andb_true_iff in H as [Hl Hr].
    apply HB; auto.
  - destruct o; try discriminate; (apply HU; [discriminate | exact H | now apply IH]).
  - destruct f; try discriminate. destruct kws; try discriminate.
    apply HF. rewrite shaped_call in H.
    induction args as [|a l IHl]; constructor.
    + cbn [forallb] in H. apply andb_true_iff in H as [Ha _].
      split; [exact Ha | now apply IH].
    + cbn [forallb] in H. apply andb_true_iff in H as [_ Hl]. now apply IHl.
Qed.

Lemma shaped_reads (e : expr) : shaped e = true -> reads e.
Proof.
  revert e. apply shaped_induction;
    [intros v Hv|intros id|intros l o r Hl Hr IHl IHr|intros o a Ho Ha IHa
    |intros f args Hall].
  - apply reads_from_own_level; [exact Hv|]. now apply reads_atom.
  - apply reads_from_own_level; [reflexivity|]. now apply reads_atom.
  - assert (Hs : shaped (BinOp l o r) = true) by (cbn [shaped]; now rewrite Hl, Hr).
    destruct IHl as (Pl & _ & _ & Tl & Sl). destruct IHr as (_ & _ & Fr & Tr & _).
    apply reads_from_own_level; [exact Hs|].
    destruct o; cbn [level binop_level].
    + now apply reads_add.
    + now apply reads_add.
    + now apply reads_mul.
    + now apply reads_mul.
    + now apply reads_mul.
    + now apply reads_mul.
    + now apply reads_pow.
  - assert (Hs : shaped (UnaryOp o a) = true)
      by (destruct o; try (now elim Ho); exact Ha).
    apply reads_from_own_level; [exact Hs|].
    cbn [level]. apply reads_sign; [exact Ho|]. apply IHa.
  - assert (Hs : shaped (Call (Name f) args []) = true).
    { rewrite shaped_call. apply forallb_forall. intros x Hx.
      rewrite Forall_forall in Hall. now apply Hall. }
    apply reads_from_own_level; [exact Hs|]. cbn [level].
    apply reads_call. revert Hall. apply Forall_impl.
    intros x [Hx (_ & _ & _ & _ & Sx)]. now split.
Qed.

(** The parser reads every printed tree back, with the fuel [ast_parse]
    gives it. *)
Lemma parse_unparse (e : expr) :
  shaped e = true ->
  parse_expressions (parse_fuel (unparse 0 e)) (unparse 0 e) = Ok e.
Proof.
  intros He. destruct (shaped_reads e He) as (_ & _ & _ & _ & Hs).
  destruct (Hs [] (Ok (e, [])) eq_refl) as [n0 H].
  { eapply ev_step; [intros n; now apply sum_rest_stop|]. apply ev_const. }
  rewrite app_nil_r in H.
  set (ts := unparse 0 e) in *. set (N := parse_fuel ts).
  assert (HN : parse_sum N ts <> OutsideModel).
  { pose proof (proj1 (grammar_answers_all N) ts) as A. unfold answers in A.
    intros E. rewrite E in A. unfold N, parse_fuel in A. lia. }
  pose proof (@parse_sum_grows N (Nat.max N n0) ts (Nat.le_max_l _ _) HN) as G.
  rewrite (H (Nat.max N n0) (Nat.le_max_r _ _)) in G.
  unfold parse_expressions. fold N. now rewrite <- G.
Qed.
(** ** C3: precedence and associativity *)

Lemma preprocess_via (m : bool) (s s1 s2 : str) :
  normalize s = s1 -> insert_after_digit s1 = s2 ->
  count_char "(" s2 = 0%nat -> count_char ")" s2 = 0%nat ->
  preprocess m s = s2.
Proof.
  intros H1 H2 H4 H5. unfold preprocess, implicit_mul.
  rewrite H1, re_sub_digit, H2, re_sub_paren.
  rewrite insert_after_paren_absent by assumption.
  unfold degrees_rewrite.
  replace (if m then _ else _) with s2
    by (destruct m; [now rewrite trig_absent | reflexivity]).
  apply balance_closed. lia.
Qed.

Lemma digit_val_nonneg (c : ascii) : is_digit c = true -> (0 <= digit_val c)%Z.
Proof. by_bits c; intros _; vm_compute; discriminate. Qed.

Lemma fold_digits_nonneg (ds : str) (acc : Z) :
  forallb is_digit ds = true -> (0 <= acc)%Z ->
  (0 <= fold_left (fun acc c => acc * 10 + digit_val c) ds acc)%Z.
Proof.
  revert acc. induction ds as [|c ds IH]; intros acc H Hacc; [exact Hacc|].
  cbn [forallb] in H. apply andb_true_iff in H as [Hc Hds].
  cbn [fold_left]. apply IH; [exact Hds|].
  pose proof (digit_val_nonneg c Hc). lia.
Qed.

Lemma digits_to_Z_nonneg (ds : str) :
  forallb is_digit ds = true -> (0 <= digits_to_Z ds)%Z.
Proof. intros H. apply fold_digits_nonneg; [exact H | lia]. Qed.

Lemma read_unsigned_int (u : str) (a : Z) :
  read_unsigned u = Some (VInt a) -> (0 <= a)%Z.
Proof.
  unfold read_unsigned. pose proof (span_spec is_digit u) as H.
  destruct (span is_digit u) as [ip r]. destruct H as (-> & Hi & _).
  destruct ip as [|z ip]; [discriminate|].
  destruct r as [|c fp].
  - destruct (int_numeral (z :: ip)); [|discriminate].
    intros E. injection E as <-. now apply digits_to_Z_nonneg.
  - destruct (ascii_eqb c "." && forallb is_digit fp); discriminate.
Qed.

(** The text [-x^y], for numerals [x] and [y]. *)
Lemma negated_power (L : Libm) (m : bool) (x y : str) (vx vy : value) :
  read_unsigned x = Some vx -> read_unsigned y = Some vy ->
  preprocess m ("-"%char :: x ++ "^"%char :: y)
  = "-"%char :: x ++ "*"%char :: "*"%char :: y
  /\ ast_parse ("-"%char :: x ++ "*"%char :: "*"%char :: y)
     = Ok (UnaryOp USub (BinOp (Constant vx) Pow (Constant vy)))
  /\ evaluate L m ("-"%char :: x ++ "^"%char :: y)
     = (p <- op_pow L vx vy ;; op_neg p).
Proof.
  intros Hx Hy.
  destruct (read_unsigned_spec x Hx) as (Hmx & (zx & rx & Hzx & _) & _ & Hlx).
  destruct (read_unsigned_spec y Hy) as (Hmy & (zy & ry & Hzy & _) & _ & Hly).
  destruct (mantissa_counts _ Hmx) as (X1 & X2 & X3 & X4 & X5).
  destruct (mantissa_counts _ Hmy) as (Y1 & Y2 & Y3 & Y4 & Y5).
  set (s := "-"%char :: x ++ "^"%char :: y).
  set (s2 := "-"%char :: x ++ "*"%char :: "*"%char :: y).
  assert (Hn : normalize s = s2).
  { unfold normalize, sym_pi, sym_sqrt.
    rewrite (@replace_absent "207" _ _ s) by (unfold s; absent).
    unfold s. rewrite (app_comm_cons x _ "-"%char).
    rewrite replace_caret by absent.
    change (py "^") with ["^"%char].
    rewrite (@replace_absent "^" _ _ y) by absent.
    apply replace_absent. change (py "**") with ["*"%char; "*"%char].
    cbn [app]. absent. }
  assert (Hi : insert_after_digit s2 = s2).
  { unfold s2. rewrite insert_after_digit_cons. change (is_digit "-") with false.
    cbn [andb]. f_equal.
    rewrite (@insert_after_digit_mantissa x _ Hmx).
    change (factor_follows ("*"%char :: "*"%char :: y)) with false.
    rewrite andb_false_r. f_equal.
    rewrite insert_after_digit_cons. change (is_digit "*") with false.
    cbn [andb]. f_equal.
    rewrite insert_after_digit_cons. change (is_digit "*") with false.
    cbn [andb]. f_equal. now apply insert_after_digit_digits. }
  assert (Hs : forall mid, solid mid = true -> solid ("-"%char :: x ++ mid ++ y) = true).
  { intros mid Hmid. cbn [solid forallb]. fold (solid (x ++ mid ++ y)).
    rewrite !solid_app, (mantissa_solid _ Hmx), (mantissa_solid _ Hmy), Hmid.
    reflexivity. }
  assert (Ht : tokenize (length s2 + 1) s2 = Ok [TMinus; TNum vx; TDStar; TNum vy]).
  { unfold s2. apply (@tokenize_cons _ (x ++ "*"%char :: "*"%char :: y) TMinus);
      [reflexivity|].
    apply (tokenize_cons _ (Hlx ("*"%char :: "*"%char :: y) eq_refl)).
    apply (@tokenize_cons _ y TDStar); [reflexivity|].
    specialize (Hly [] eq_refl). rewrite app_nil_r in Hly.
    apply (tokenize_cons _ Hly). reflexivity. }
  split; [|split].
  - apply (@preprocess_via m s s2 s2); try assumption; unfold s2; absent.
  - fold s2. unfold ast_parse, s2. change (ascii_eqb "-" " " || ascii_eqb "-" "009") with false.
    cbv iota. fold s2. rewrite Ht. reflexivity.
  - rewrite (@evaluate_via L m s s2 s2 [TMinus; TNum vx; TDStar; TNum vy]);
      try assumption.
    + reflexivity.
    + apply (Hs ["^"%char]). reflexivity.
    + discriminate.
    + unfold s2; absent.
    + unfold s2; absent.
    + apply (Hs ["*"%char; "*"%char]). reflexivity.
    + discriminate.
Qed.



(** * Further properties of [MathParser] *)

(** ** Blank input and blanks around the input *)

Lemma lstrip_blank (s : str) : forallb is_space s = true -> lstrip s = [].
Proof.
  induction s as [|c s IH]; [reflexivity|].
  cbn [forallb lstrip]. intros H. apply andb_true_iff in H as [Hc Hs].
  rewrite Hc. now apply IH.
Qed.

Lemma lstrip_app_blank (a t : str) :
  forallb is_space a = true -> lstrip (a ++ t) = lstrip t.
Proof.
  induction a as [|c a IH]; [reflexivity|].
  cbn [forallb app lstrip]. intros H. apply andb_true_iff in H as [Hc Ha].
  rewrite Hc. now apply IH.
Qed.

Lemma forallb_rev (p : ascii -> bool) (s : str) :
  forallb p (rev s) = forallb p s.
Proof.
  induction s as [|c s IH]; [reflexivity|].
  cbn [rev forallb]. rewrite forallb_app, IH. cbn [forallb].
  rewrite andb_true_r. apply andb_comm.
Qed.

Lemma rstrip_app_blank (t b : str) :
  forallb is_space b = true -> rstrip (t ++ b) = rstrip t.
Proof.
  intros H. unfold rstrip. rewrite rev_app_distr.
  rewrite lstrip_app_blank; [reflexivity|]. now rewrite forallb_rev.
Qed.

(** [lstrip] stops at the first character that is not a blank. *)
Lemma lstrip_app (s b : str) :
  lstrip (s ++ b) = if forallb is_space s then lstrip b else lstrip s ++ b.
Proof.
  induction s as [|c s IH]; [reflexivity|].
  cbn [app lstrip forallb]. destruct (is_space c); [exact IH | reflexivity].
Qed.

Lemma strip_padded (a s b : str) :
  forallb is_space a = true -> forallb is_space b = true ->
  strip (a ++ s ++ b) = strip s.
Proof.
  intros Ha Hb. unfold strip. rewrite (@lstrip_app_blank a _ Ha), lstrip_app.
  destruct (forallb is_space s) eqn:Hs.
  - now rewrite (@lstrip_blank b Hb), (@lstrip_blank s Hs).
  - now apply rstrip_app_blank.
Qed.

(** X1.  An input that is empty or holds nothing but blanks raises
    [ValueError], in either angle mode: it is refused before any
    rewriting or parsing. *)
Theorem blank_input_raises_ValueError (L : Libm) (m : bool) (s : str) :
  forallb is_space s = true -> evaluate L m s = Raise ValueError.
Proof.
  intros H. unfold evaluate, strip. now rewrite (@lstrip_blank s H).
Qed.

Lemma blank_input_witness :
  evaluate libm_table true (py "  ") = Raise ValueError.
Proof. apply blank_input_raises_ValueError. reflexivity. Defined.

(** X2.  Blanks before and after the input are ignored: the padded input
    evaluates as the input itself does, whatever that is. *)
Theorem surrounding_blanks_are_ignored (L : Libm) (m : bool) (a s b : str) :
  forallb is_space a = true -> forallb is_space b = true ->
  evaluate L m (a ++ s ++ b) = evaluate L m s.
Proof.
  intros Ha Hb. unfold evaluate. now rewrite (@strip_padded a s b Ha Hb).
Qed.

Lemma surrounding_blanks_witness :
  evaluate libm_table true (py "  " ++ py "2+3" ++ py " ")
  = evaluate libm_table true (py "2+3").
Proof. apply surrounding_blanks_are_ignored; reflexivity. Defined.

(** ** The angle mode *)

Lemma count_char_rev (c : ascii) (s : str) :
  count_char c (rev s) = count_char c s.
Proof.
  induction s as [|x s IH]; [reflexivity|].
  cbn [rev]. rewrite count_char_app, IH, !count_char_cons.
  cbn [count_char]. lia.
Qed.

Lemma count_lstrip_zero (c : ascii) (s : str) :
  count_char c s = 0%nat -> count_char c (lstrip s) = 0%nat.
Proof.
  induction s as [|x s IH]; [reflexivity|].
  intros H. cbn [lstrip]. destruct (is_space x); [|exact H].
  apply IH. now apply count_zero_cons in H.
Qed.

Lemma count_strip_zero (c : ascii) (s : str) :
  count_char c s = 0%nat -> count_char c (strip s) = 0%nat.
Proof.
  intros H. unfold strip, rstrip. rewrite count_char_rev.
  apply count_lstrip_zero. rewrite count_char_rev.
  now apply count_lstrip_zero.
Qed.

Lemma count_replace_from_zero (c : ascii) (old new : str) (k : nat) (s : str) :
  count_char c new = 0%nat -> count_char c s = 0%nat ->
  count_char c (replace_from old new k s) = 0%nat.
Proof.
  intros Hn. revert k. induction s as [|x s IH]; intros k Hs; [reflexivity|].
  pose proof (@count_zero_cons _ _ _ Hs) as [Hx Hr].
  cbn [replace_from]. destruct k as [|k]; [|now apply IH].
  destruct (starts_with old (x :: s)).
  - rewrite count_char_app, Hn. now apply IH.
  - rewrite count_char_cons, Hx. now apply IH.
Qed.

Lemma count_normalize_zero (s : str) :
  count_char "(" s = 0%nat -> count_char "(" (normalize s) = 0%nat.
Proof.
  intros H. unfold normalize, sym_pi, sym_sqrt, replace.
  change (py "^") with ["^"%char].
  repeat (apply count_replace_from_zero; [reflexivity|]). exact H.
Qed.

Lemma count_insert_after_digit (c : ascii) (s : str) :
  ascii_eqb "*" c = false ->
  count_char c (insert_after_digit s) = count_char c s.
Proof.
  intros Hc. induction s as [|x s IH]; [reflexivity|].
  rewrite insert_after_digit_cons.
  destruct (is_digit x && factor_follows s);
    rewrite !count_char_cons, ?Hc, IH; reflexivity.
Qed.

Lemma count_insert_after_paren (c : ascii) (s : str) :
  ascii_eqb "*" c = false ->
  count_char c (insert_after_paren s) = count_char c s.
Proof.
  intros Hc. induction s as [|x s IH]; [reflexivity|].
  rewrite insert_after_paren_cons.
  destruct (ascii_eqb x ")" && operand_follows s);
    rewrite !count_char_cons, ?Hc, IH; reflexivity.
Qed.

(** X3.  The angle mode matters only to an input with an opening
    parenthesis: an input without one evaluates alike in degrees and in
    radians, to the same value or the same error. *)
Theorem angle_mode_needs_a_parenthesis (L : Libm) (s : str) :
  count_char "(" s = 0%nat -> evaluate L true s = evaluate L false s.
Proof.
  intros H. unfold evaluate.
  pose proof (@count_strip_zero _ _ H) as Ht.
  destruct (strip s) as [|c t]; [reflexivity|].
  unfold preprocess, degrees_rewrite. rewrite trig_absent; [reflexivity|].
  unfold implicit_mul. rewrite re_sub_digit, re_sub_paren.
  rewrite count_insert_after_paren, count_insert_after_digit by reflexivity.
  now apply count_normalize_zero.
Qed.

Lemma angle_mode_witness :
  evaluate libm_table true (py "2+3*4") = evaluate libm_table false (py "2+3*4").
Proof. apply angle_mode_needs_a_parenthesis. reflexivity. Defined.

(** ** The implicit multiplication, applied again *)

Lemma insert_after_digit_head (s : str) :
  match s with
  | [] => insert_after_digit s = []
  | c :: _ => exists t, insert_after_digit s = c :: t
  end.
Proof.
  destruct s as [|c r]; [reflexivity|]. rewrite insert_after_digit_cons.
  destruct (is_digit c && factor_follows r); eexists; reflexivity.
Qed.

Lemma insert_after_paren_head (s : str) :
  match s with
  | [] => insert_after_paren s = []
  | c :: _ => exists t, insert_after_paren s = c :: t
  end.
Proof.
  destruct s as [|c r]; [reflexivity|]. rewrite insert_after_paren_cons.
  destruct (ascii_eqb c ")" && operand_follows r); eexists; reflexivity.
Qed.

Lemma operand_follows_digit (r : str) :
  operand_follows (insert_after_digit r) = operand_follows r.
Proof.
  pose proof (insert_after_digit_head r) as H.
  destruct r as [|c r]; [now rewrite H|]. destruct H as [t ->]. reflexivity.
Qed.

Lemma operand_follows_paren (r : str) :
  operand_follows (insert_after_paren r) = operand_follows r.
Proof.
  pose proof (insert_after_paren_head r) as H.
  destruct r as [|c r]; [now rewrite H|]. destruct H as [t ->]. reflexivity.
Qed.

Lemma factor_follows_digit (r : str) :
  factor_follows (insert_after_digit r) = factor_follows r.
Proof.
  destruct r as [|c r]; [reflexivity|]. rewrite insert_after_digit_cons.
  destruct (is_digit c) eqn:Hd.
  - assert (Hm : mantissa_char c = true) by (unfold mantissa_char; now rewrite Hd).
    destruct (true && factor_follows r);
      now rewrite !(@factor_follows_mantissa c _ Hm).
  - cbn [andb]. pose proof (insert_after_digit_head r) as H.
    destruct r as [|d r]; [now rewrite H|]. destruct H as [t ->].
    reflexivity.
Qed.

Lemma factor_follows_paren (r : str) :
  factor_follows (insert_after_paren r) = factor_follows r.
Proof.
  destruct r as [|c r]; [reflexivity|]. rewrite insert_after_paren_cons.
  destruct (ascii_eqb c ")") eqn:Hc.
  - unfold ascii_eqb in Hc. apply Ascii.eqb_eq in Hc. subst c.
    destruct (true && operand_follows r); reflexivity.
  - cbn [andb]. pose proof (insert_after_paren_head r) as H.
    destruct r as [|d r]; [now rewrite H|]. destruct H as [t ->].
    reflexivity.
Qed.

Lemma insert_after_digit_again (s : str) :
  insert_after_digit (insert_after_digit s) = insert_after_digit s.
Proof.
  induction s as [|c r IH]; [reflexivity|].
  rewrite (insert_after_digit_cons c r).
  destruct (is_digit c && factor_follows r) eqn:E.
  - rewrite insert_after_digit_cons.
    change (factor_follows ("*"%char :: insert_after_digit r)) with false.
    rewrite andb_false_r, insert_after_digit_cons.
    change (is_digit "*") with false. cbn [andb]. now rewrite IH.
  - rewrite insert_after_digit_cons, factor_follows_digit, E. now rewrite IH.
Qed.

Lemma insert_after_paren_again (s : str) :
  insert_after_paren (insert_after_paren s) = insert_after_paren s.
Proof.
  induction s as [|c r IH]; [reflexivity|].
  rewrite (insert_after_paren_cons c r).
  destruct (ascii_eqb c ")" && operand_follows r) eqn:E.
  - rewrite insert_after_paren_cons.
    change (operand_follows ("*"%char :: insert_after_paren r)) with false.
    rewrite andb_false_r, insert_after_paren_cons.
    change (ascii_eqb "*" ")") with false. cbn [andb]. now rewrite IH.
  - rewrite insert_after_paren_cons, operand_follows_paren, E. now rewrite IH.
Qed.

(** The two substitutions act on different places and can be swapped. *)
Lemma insert_after_swap (s : str) :
  insert_after_digit (insert_after_paren s)
  = insert_after_paren (insert_after_digit s).
Proof.
  induction s as [|c r IH]; [reflexivity|].
  rewrite (insert_after_paren_cons c r), (insert_after_digit_cons c r).
  destruct (ascii_eqb c ")") eqn:Hc.
  - unfold ascii_eqb in Hc. apply Ascii.eqb_eq in Hc. subst c.
    change (is_digit ")") with false. cbn [andb].
    rewrite insert_after_paren_cons, operand_follows_digit.
    change (ascii_eqb ")" ")") with true. cbn [andb].
    destruct (operand_follows r).
    + rewrite !insert_after_digit_cons.
      change (is_digit ")") with false. change (is_digit "*") with false.
      cbn [andb]. now rewrite IH.
    + rewrite insert_after_digit_cons.
      change (is_digit ")") with false. cbn [andb]. now rewrite IH.
  - cbn [andb]. rewrite insert_after_digit_cons, factor_follows_paren.
    destruct (is_digit c && factor_follows r).
    + rewrite !insert_after_paren_cons, Hc.
      change (ascii_eqb "*" ")") with false. cbn [andb]. now rewrite IH.
    + rewrite insert_after_paren_cons, Hc. cbn [andb]. now rewrite IH.
Qed.

(** X4.  The implicit multiplication leaves its own output alone: after
    the two substitutions no digit is directly followed by [pi], [e] or
    [(], and no [)] by a digit or [(], so applying them again inserts
    nothing. *)
Theorem implicit_multiplication_is_idempotent (s : str) :
  implicit_mul (implicit_mul s) = implicit_mul s.
Proof.
  unfold implicit_mul. rewrite !re_sub_digit, !re_sub_paren.
  rewrite insert_after_swap, insert_after_digit_again.
  now rewrite insert_after_paren_again.
Qed.

(** ** A call that is left open *)

Lemma insert_after_digit_letters (a b : str) :
  forallb (fun c => negb (is_digit c)) a = true ->
  insert_after_digit (a ++ b) = a ++ insert_after_digit b.
Proof.
  induction a as [|c a IH]; [reflexivity|].
  cbn [forallb]. intros H. apply andb_true_iff in H as [Hc Ha].
  cbn [List.app]. rewrite insert_after_digit_cons.
  apply negb_true_iff in Hc. rewrite Hc. cbn [andb]. now rewrite IH.
Qed.

Lemma insert_after_paren_open (a b : str) :
  count_char ")" a = 0%nat ->
  insert_after_paren (a ++ b) = a ++ insert_after_paren b.
Proof.
  induction a as [|c a IH]; [reflexivity|].
  intros H. apply count_zero_cons in H as [Hc Ha].
  cbn [List.app]. rewrite insert_after_paren_cons, Hc. cbn [andb].
  now rewrite IH.
Qed.

Lemma sub_loop_S (f : nat) (r : regex) (tpl : list titem)
    (prev : option ascii) (s : str) (b : bool) :
  sub_loop (S f) r tpl prev s b
  = match match_at r prev s b with
    | Some (caps, m, prev', rest) =>
        expand tpl caps ++
        match m with
        | [] => sub_loop f r tpl prev s true
        | _ :: _ => sub_loop f r tpl prev' rest false
        end
    | None =>
        match s with
        | [] => []
        | c :: s' => c :: sub_loop f r tpl (Some c) s' false
        end
    end.
Proof. reflexivity. Qed.

(** One step of [re.sub] at a position whose next characters are
    given. *)
Ltac sub_step :=
  rewrite sub_loop_S;
  match goal with
  | |- context [match_at ?r ?p ?s ?b] =>
      let x := eval cbv in (match_at r p s b) in
      change (match_at r p s b) with x
  end;
  cbv beta iota.

(** The degree rewrite on a call of [sin], [cos] or [tan] at the start
    of the text, and on a call of another function of the table. *)
Lemma trig_call_rewritten (fname tail : str) :
  In fname [py "sin"; py "cos"; py "tan"] ->
  count_char "(" tail = 0%nat ->
  re_sub _trig_re trig_tpl (fname ++ "("%char :: tail)
  = fname ++ py "(radians(" ++ tail.
Proof.
  intros Hf Ht. unfold re_sub.
  repeat (destruct Hf as [<- | Hf]); try contradiction;
    cbn [py list_ascii_of_string List.app length Nat.mul Nat.add];
    sub_step; rewrite trig_loop_absent by exact Ht; reflexivity.
Qed.

Lemma other_call_kept (fname tail : str) :
  In fname (map py ["asin"; "acos"; "atan"; "log"; "ln"; "sqrt"; "radians"]%string) ->
  count_char "(" tail = 0%nat ->
  re_sub _trig_re trig_tpl (fname ++ "("%char :: tail) = fname ++ "("%char :: tail.
Proof.
  intros Hf Ht. unfold re_sub. cbn [map] in Hf.
  repeat (destruct Hf as [<- | Hf]); try contradiction;
    cbn [py list_ascii_of_string List.app length Nat.mul Nat.add];
    repeat sub_step; rewrite trig_loop_absent by exact Ht; reflexivity.
Qed.

Lemma alpha_solid (s : str) : forallb is_alpha s = true -> solid s = true.
Proof. apply forallb_weaken. intros c; by_bits c. Qed.

Lemma alpha_no_digit (s : str) :
  forallb is_alpha s = true -> forallb (fun c => negb (is_digit c)) s = true.
Proof. apply forallb_weaken. intros c; by_bits c. Qed.

Lemma function_names_alpha (fname : str) :
  In fname function_names -> forallb is_alpha fname = true /\ fname <> [].
Proof.
  intros H. cbn in H.
  repeat (destruct H as [<- | H]); try contradiction; split;
    (reflexivity || discriminate).
Qed.

(** The name of a function of the table, before a parenthesis, is one
    name token. *)
Lemma lex_function_name (fname rest : str) :
  In fname function_names ->
  lex_step (fname ++ "("%char :: rest) = STok (TName fname) ("("%char :: rest).
Proof.
  intros H. cbn in H.
  repeat (destruct H as [<- | H]); try contradiction; reflexivity.
Qed.

(** The text of the call, closed, is read as the call. *)
Lemma closed_call_parsed (fname u : str) (v : value) :
  In fname function_names -> read_unsigned u = Some v ->
  ast_parse (fname ++ "("%char :: u ++ [")"%char])
  = Ok (Call (Name fname) [Constant v] []).
Proof.
  intros Hf Hu.
  destruct (@function_names_alpha fname Hf) as [Ha Hn].
  destruct (read_unsigned_spec u Hu) as (Hm & _ & _ & Hlex).
  rewrite (@ast_parse_tokens _ [TName fname; TLPar; TNum v; TRPar]).
  - reflexivity.
  - rewrite solid_app, (@alpha_solid fname Ha).
    cbn [solid forallb andb]. fold (solid (u ++ [")"%char])).
    now rewrite solid_app, (mantissa_solid _ Hm).
  - destruct fname; [congruence | discriminate].
  - apply (tokenize_cons _ (@lex_function_name fname _ Hf)).
    apply (@tokenize_cons _ (u ++ [")"%char]) TLPar); [reflexivity|].
    apply (tokenize_cons _ (Hlex [")"%char] eq_refl)).
    apply (@tokenize_cons _ [] TRPar); reflexivity.
Qed.

(** The same inside the conversion the degree mode adds. *)
Lemma converted_call_parsed (fname u : str) (v : value) :
  In fname function_names -> read_unsigned u = Some v ->
  ast_parse (fname ++ py "(radians(" ++ u ++ py "))")
  = Ok (Call (Name fname) [Call (Name (py "radians")) [Constant v] []] []).
Proof.
  intros Hf Hu.
  destruct (@function_names_alpha fname Hf) as [Ha Hn].
  destruct (read_unsigned_spec u Hu) as (Hm & _ & _ & Hlex).
  rewrite (@ast_parse_tokens _
             [TName fname; TLPar; TName (py "radians"); TLPar; TNum v;
              TRPar; TRPar]).
  - reflexivity.
  - rewrite solid_app, (@alpha_solid fname Ha), solid_app, solid_app,
      (mantissa_solid _ Hm). reflexivity.
  - destruct fname; [congruence | discriminate].
  - change (fname ++ py "(radians(" ++ u ++ py "))")
      with (fname ++ "("%char :: py "radians" ++ "("%char :: u ++ py "))").
    apply (tokenize_cons _ (@lex_function_name fname _ Hf)).
    apply (@tokenize_cons _ (py "radians" ++ "("%char :: u ++ py "))") TLPar);
      [reflexivity|].
    eapply tokenize_cons.
    { apply (@lex_function_name (py "radians")). cbn. tauto. }
    apply (@tokenize_cons _ (u ++ py "))") TLPar); [reflexivity|].
    apply (tokenize_cons _ (Hlex (py "))") eq_refl)).
    apply (@tokenize_cons _ (py ")") TRPar); [reflexivity|].
    apply (@tokenize_cons _ [] TRPar); reflexivity.
Qed.

Section OpenCall.

Variables (fname u cl : str) (v : value).
Hypothesis Hf : In fname function_names.
Hypothesis Hu : read_unsigned u = Some v.
Hypothesis Hcl : cl = [] \/ cl = [")"%char].

Let s : str := fname ++ "("%char :: u ++ cl.

(** Stripping, the symbol replacements and the implicit multiplication
    leave the text as it is. *)
Lemma open_call_kept :
  strip s = s /\ s <> [] /\ implicit_mul (normalize s) = s.
Proof.
  destruct (@function_names_alpha fname Hf) as [Ha Hn].
  destruct (read_unsigned_spec u Hu) as (Hm & _).
  destruct (mantissa_counts _ Hm) as (H1 & H2 & H3 & H4 & H5).
  assert (Hc : forall x, is_alpha x = false -> count_char x fname = 0%nat)
    by (intros x Hx; now apply (count_char_class is_alpha)).
  assert (Hcl' : forall x, ascii_eqb ")" x = false -> count_char x cl = 0%nat).
  { intros x Hx. destruct Hcl as [-> | ->]; [reflexivity|].
    cbn [count_char]. now rewrite Hx. }
  split; [|split].
  - apply strip_solid. unfold s. rewrite solid_app, (@alpha_solid fname Ha).
    cbn [solid forallb andb]. fold (solid (u ++ cl)).
    rewrite solid_app, (mantissa_solid _ Hm).
    destruct Hcl as [-> | ->]; reflexivity.
  - unfold s. destruct fname; [congruence | discriminate].
  - rewrite normalize_absent.
    + unfold implicit_mul. rewrite re_sub_digit, re_sub_paren. unfold s.
      rewrite (@insert_after_digit_letters fname _ (@alpha_no_digit fname Ha)).
      rewrite insert_after_digit_cons. change (is_digit "(") with false.
      cbn [andb]. rewrite (@insert_after_digit_mantissa u cl Hm).
      replace (factor_follows cl) with false
        by (destruct Hcl as [-> | ->]; reflexivity).
      rewrite andb_false_r.
      replace (insert_after_digit cl) with cl
        by (destruct Hcl as [-> | ->]; reflexivity).
      change (fname ++ "("%char :: u ++ cl)
        with (fname ++ ["("%char] ++ u ++ cl).
      rewrite !app_assoc. rewrite insert_after_paren_open.
      * destruct Hcl as [-> | ->]; reflexivity.
      * rewrite !count_char_app, (Hc ")"%char eq_refl), H5. reflexivity.
    + unfold s. apply count_app_zero; [now apply Hc|].
      change (count_char "207" ("("%char :: u ++ cl))
        with (count_char "207" (u ++ cl)).
      apply count_app_zero; [exact H1 | now apply Hcl'].
    + unfold s. apply count_app_zero; [now apply Hc|].
      change (count_char "^" ("("%char :: u ++ cl))
        with (count_char "^" (u ++ cl)).
      apply count_app_zero; [exact H2 | now apply Hcl'].
    + unfold s. apply count_app_zero; [now apply Hc|].
      change (count_char "226" ("("%char :: u ++ cl))
        with (count_char "226" (u ++ cl)).
      apply count_app_zero; [exact H3 | now apply Hcl'].
Qed.

(** The balancing step closes what is open. *)
Lemma open_call_balanced :
  balance s = fname ++ "("%char :: u ++ [")"%char].
Proof.
  destruct (@function_names_alpha fname Hf) as [Ha Hn].
  destruct (read_unsigned_spec u Hu) as (Hm & _).
  destruct (mantissa_counts _ Hm) as (_ & _ & _ & H4 & H5).
  assert (Ho : count_char "(" s = 1%nat).
  { unfold s. rewrite count_char_app, (count_char_class is_alpha "("%char fname eq_refl Ha).
    rewrite count_char_cons, count_char_app, H4.
    destruct Hcl as [-> | ->]; reflexivity. }
  assert (Hc : count_char ")" s = length cl).
  { unfold s. rewrite count_char_app, (count_char_class is_alpha ")"%char fname eq_refl Ha).
    rewrite count_char_cons, count_char_app, H5.
    destruct Hcl as [-> | ->]; reflexivity. }
  destruct Hcl as [E | E].
  - assert (Hlt : (count_char ")" s < count_char "(" s)%nat)
      by (rewrite Ho, Hc, E; cbn; lia).
    rewrite (proj1 (balance_open s Hlt)).
    rewrite Ho, Hc, E. unfold s. rewrite E, app_nil_r.
    cbn [length Nat.sub repeat]. now rewrite <- app_assoc.
  - rewrite balance_closed by (rewrite Ho, Hc, E; cbn; lia).
    unfold s. now rewrite E.
Qed.

Lemma converted_call_balanced :
  balance (fname ++ py "(radians(" ++ u ++ cl)
  = fname ++ py "(radians(" ++ u ++ py "))".
Proof.
  destruct (@function_names_alpha fname Hf) as [Ha Hn].
  destruct (read_unsigned_spec u Hu) as (Hm & _).
  destruct (mantissa_counts _ Hm) as (_ & _ & _ & H4 & H5).
  set (t := fname ++ py "(radians(" ++ u ++ cl).
  assert (Ho : count_char "(" t = 2%nat).
  { unfold t. rewrite count_char_app, (count_char_class is_alpha "("%char fname eq_refl Ha).
    rewrite count_char_app, count_char_app, H4.
    destruct Hcl as [-> | ->]; reflexivity. }
  assert (Hc : count_char ")" t = length cl).
  { unfold t. rewrite count_char_app, (count_char_class is_alpha ")"%char fname eq_refl Ha).
    rewrite count_char_app, count_char_app, H5.
    destruct Hcl as [-> | ->]; reflexivity. }
  assert (Hlt : (count_char ")" t < count_char "(" t)%nat)
    by (rewrite Ho, Hc; destruct Hcl as [-> | ->]; cbn; lia).
  rewrite (proj1 (balance_open t Hlt)).
  rewrite Ho, Hc. unfold t.
  destruct Hcl as [-> | ->]; cbn [length Nat.sub repeat];
    rewrite <- !app_assoc; reflexivity.
Qed.

End OpenCall.

Lemma evaluate_stripped (L : Libm) (m : bool) (s : str) :
  strip s = s -> s <> [] ->
  evaluate L m s = (node <- ast_parse (preprocess m s) ;; _eval L node).
Proof.
  intros Hs Hn. unfold evaluate. rewrite Hs.
  destruct s; [congruence | reflexivity].
Qed.

(** The tree a call of [fname] on a number is evaluated as: in degree
    mode the argument of [sin], [cos] and [tan] is converted first. *)
Lemma open_call_evaluates (L : Libm) (fname u cl : str) (v : value) :
  In fname function_names ->
  read_unsigned u = Some v ->
  cl = [] \/ cl = [")"%char] ->
  evaluate L false (fname ++ "("%char :: u ++ cl)
  = _eval L (Call (Name fname) [Constant v] [])
  /\ evaluate L true (fname ++ "("%char :: u ++ cl)
     = _eval L (if existsb (str_eqb fname) [py "sin"; py "cos"; py "tan"]
                then Call (Name fname)
                       [Call (Name (py "radians")) [Constant v] []] []
                else Call (Name fname) [Constant v] []).
Proof.
  intros Hf Hu Hcl.
  destruct (@open_call_kept _ _ _ _ Hf Hu Hcl) as (Hs & Hn & Hi).
  destruct (read_unsigned_spec u Hu) as (Hm & _).
  destruct (mantissa_counts _ Hm) as (_ & _ & _ & H4 & _).
  assert (Ht : count_char "(" (u ++ cl) = 0%nat).
  { rewrite count_char_app, H4. destruct Hcl as [-> | ->]; reflexivity. }
  rewrite !(evaluate_stripped L _ Hs Hn).
  unfold preprocess. rewrite Hi. split.
  - cbn [degrees_rewrite]. rewrite (@open_call_balanced _ _ _ _ Hf Hu Hcl).
    now rewrite (@closed_call_parsed fname u v Hf Hu).
  - cbn [degrees_rewrite]. cbn in Hf.
    destruct Hf as [<- | [<- | [<- | [<- | Hf]]]].
    2, 3, 4:
      rewrite trig_call_rewritten by (try exact Ht; cbn; tauto);
      rewrite (@converted_call_balanced _ u cl v) by (try assumption; cbn; tauto);
      rewrite (@converted_call_parsed _ u v) by (try assumption; cbn; tauto);
      reflexivity.
    + rewrite other_call_kept by (try exact Ht; cbn; tauto).
      rewrite (@open_call_balanced _ u cl v) by (try assumption; cbn; tauto).
      rewrite (@closed_call_parsed _ u v) by (try assumption; cbn; tauto).
      reflexivity.
    + assert (Hin : In fname function_names) by (cbn; tauto).
      assert (Ho : In fname (map py ["asin"; "acos"; "atan"; "log"; "ln"; "sqrt";
                                      "radians"]%string))
        by (cbn in Hf |- *; tauto).
      rewrite (@other_call_kept _ _ Ho Ht).
      rewrite (@open_call_balanced _ _ _ _ Hin Hu Hcl).
      rewrite (@closed_call_parsed fname u v Hin Hu).
      repeat (destruct Hf as [<- | Hf]); try contradiction; reflexivity.
Qed.



(** * Properties of the calculator *)

(** ** Assignments *)

Lemma str_eqb_refl (s : str) : str_eqb s s = true.
Proof. now apply str_eqb_eq. Qed.

(** While the label shows the expression, an assignment is the update
    of both. *)
Lemma set_expression_showing (st : LegendaryCalc) (v : str) :
  lbl_text st = expression st -> set_expression st v = showing st v.
Proof.
  intros H. unfold set_expression.
  destruct (str_eqb (expression st) v) eqn:E; [|reflexivity].
  apply str_eqb_eq in E. subst v. destruct st; cbn in *. now subst.
Qed.

Lemma set_expression_expression (st : LegendaryCalc) (v : str) :
  expression (set_expression st v) = v.
Proof.
  unfold set_expression. destruct (str_eqb (expression st) v) eqn:E.
  - now apply str_eqb_eq in E.
  - reflexivity.
Qed.

Lemma set_expression_fields (st : LegendaryCalc) (v : str) :
  is_deg (set_expression st v) = is_deg st
  /\ mem (set_expression st v) = mem st
  /\ unit_btn_text (set_expression st v) = unit_btn_text st
  /\ log (set_expression st v) = log st
  /\ flashes (set_expression st v) = flashes st.
Proof.
  unfold set_expression. destruct (str_eqb (expression st) v); repeat split.
Qed.

Lemma set_expression_shown (st : LegendaryCalc) (v : str) :
  shown st -> v <> [] -> shown (set_expression st v).
Proof.
  intros (Hl & Hn & Hu) Hv. rewrite (@set_expression_showing st v Hl).
  repeat split; assumption.
Qed.

Lemma set_mem_shown (st : LegendaryCalc) (f : float) :
  shown st -> shown (set_mem st f).
Proof.
  intros Hs. unfold set_mem. destruct (mem_eqb (mem st) f); exact Hs.
Qed.

(** ** What is formatted is not empty *)

Lemma app_not_nil_r (a b : str) : b <> [] -> a ++ b <> [].
Proof. destruct a; [auto | discriminate]. Qed.

Lemma format_pos_not_nil (N D : Z) : format_pos N D <> [].
Proof.
  unfold format_pos.
  set (X0 := decimal_exponent 640 309 N D).
  set (q0 := if (X0 <=? 7)%Z then _ else _).
  destruct (if (q0 =? 10 ^ 8)%Z then _ else _) as [q X].
  set (ds := rev (drop_zeros (rev (digits_of 8 q)))).
  destruct ((X <? -4)%Z || (8 <=? X)%Z).
  - apply app_not_nil_r, app_not_nil_r. discriminate.
  - destruct (0 <=? X)%Z; [|discriminate].
    destruct ds; discriminate.
Qed.

Lemma format_float_not_nil (f : float) : format_float f <> [].
Proof.
  unfold format_float. destruct (Prim2SF f) as [[|]|[|]| |s m e];
    try discriminate.
  apply app_not_nil_r. destruct (0 <=? e)%Z; apply format_pos_not_nil.
Qed.

Lemma format_8g_not_nil (v : value) (out : str) :
  format_8g v = Ok out -> out <> [].
Proof.
  unfold format_8g. destruct v as [n|f|b| |].
  - destruct (as_double (VInt n)); cbn [bind]; try discriminate.
    intros E. injection E as <-. apply format_float_not_nil.
  - intros E. injection E as <-. apply format_float_not_nil.
  - destruct (as_double (VBool b)); cbn [bind]; try discriminate.
    intros E. injection E as <-. apply format_float_not_nil.
  - discriminate.
  - discriminate.
Qed.

(** ** The display *)

Lemma show_error_shown (st : LegendaryCalc) : shown st -> shown (show_error st).
Proof.
  intros (Hl & Hn & Hu). unfold show_error.
  apply set_expression_shown; [|discriminate]. repeat split; assumption.
Qed.

Lemma run_math_shown (H : Host) (st st' : LegendaryCalc) :
  shown st -> run_math H st = Ok st' -> shown st'.
Proof.
  intros Hs. unfold run_math.
  destruct (evaluate (libm H) (is_deg st) (expression st)) as [res|e|];
    [|intros E; injection E as <-; now apply show_error_shown|discriminate].
  destruct (format_8g res) as [out|e|] eqn:Ef;
    [|intros E; injection E as <-; now apply show_error_shown|discriminate].
  intros E. injection E as <-.
  apply set_expression_shown; [|exact (@format_8g_not_nil _ _ Ef)].
  destruct Hs as (Hl & Hn & Hu). repeat split; assumption.
Qed.

Lemma key_token_not_nil (val : str) : val <> [] -> key_token val <> [].
Proof.
  intros Hv. unfold key_token.
  destruct (str_eqb val sym_sqrt); [discriminate|].
  destruct (existsb _ _); [|exact Hv].
  destruct val; [congruence | discriminate].
Qed.

Lemma on_key_shown (H : Host) (st st' : LegendaryCalc) (val : str) :
  (forall f t, float_str H f = Some t -> t <> []) ->
  val <> [] -> shown st -> on_key H st val = Ok st' -> shown st'.
Proof.
  intros Hrepr Hv Hs. pose proof Hs as (Hl & Hn & Hu). unfold on_key.
  destruct (str_eqb val (py "AC")).
  { intros E. injection E as <-. apply set_expression_shown; [exact Hs|discriminate]. }
  destruct (str_eqb val (py "DEL")).
  { intros E. injection E as <-. apply set_expression_shown; [exact Hs|].
    destruct (drop_last (expression st)); cbv iota; cbn; discriminate. }
  destruct (str_eqb val (py "MS")).
  { destruct (py_float H (expression st)); intros E; try discriminate;
      injection E as <-; [now apply set_mem_shown | exact Hs]. }
  destruct (str_eqb val (py "MR")).
  { unfold mem_str. destruct (mem st) as [|f].
    - cbn [bind]. intros E. injection E as <-.
      apply set_expression_shown; [exact Hs|].
      destruct (str_eqb _ _); [discriminate|].
      apply app_not_nil_r. discriminate.
    - destruct (float_str H f) as [t|] eqn:Et; cbn [bind]; [|discriminate].
      intros E. injection E as <-.
      apply set_expression_shown; [exact Hs|].
      destruct (str_eqb _ _); [|apply app_not_nil_r]; exact (Hrepr _ _ Et). }
  destruct (str_eqb val (py "=")).
  { now apply run_math_shown. }
  intros E. injection E as <-. apply set_expression_shown; [exact Hs|].
  destruct (_ && _); cbv iota; [|apply app_not_nil_r];
    now apply key_token_not_nil.
Qed.

Lemma toggle_unit_shown (st : LegendaryCalc) : shown st -> shown (toggle_unit st).
Proof. intros (Hl & Hn & Hu). repeat split; assumption. Qed.


Lemma host_table_str (f : float) (t : str) :
  float_str host_table f = Some t -> t <> [].
Proof.
  cbn. destruct (PrimFloat.Leibniz.eqb f 5); [|discriminate].
  intros E. injection E as <-. discriminate.
Qed.


(** ** DEL *)

Lemma drop_continuation_app (r a : str) (c : ascii) :
  forallb is_continuation r = true -> is_continuation c = false ->
  drop_continuation (r ++ c :: a) = c :: a.
Proof.
  intros Hr Hc. induction r as [|x r IH].
  - cbn [List.app drop_continuation]. now rewrite Hc.
  - cbn [forallb] in Hr. apply andb_true_iff in Hr as [Hx Hr].
    cbn [List.app drop_continuation]. rewrite Hx. now apply IH.
Qed.

(** [(e + c)[:-1]] is [e] for one character [c]. *)
Lemma drop_last_app (e val : str) :
  one_char val = true -> drop_last (e ++ val) = e.
Proof.
  destruct val as [|c r]; [discriminate|]. cbn [one_char].
  intros H. apply andb_true_iff in H as [Hc Hr]. apply negb_true_iff in Hc.
  unfold drop_last. rewrite rev_app_distr. cbn [rev]. rewrite <- app_assoc.
  cbn [List.app]. rewrite drop_continuation_app; [|now rewrite forallb_rev|exact Hc].
  cbn [tl]. apply rev_involutive.
Qed.

Lemma one_char_not_command (val : str) :
  one_char val = true ->
  str_eqb val (py "AC") = false /\ str_eqb val (py "DEL") = false
  /\ str_eqb val (py "MS") = false /\ str_eqb val (py "MR") = false
  /\ existsb (str_eqb val) [py "sin"; py "cos"; py "tan"] = false.
Proof.
  destruct val as [|c [|d r]]; [discriminate| |].
  - intros _. cbn. rewrite !andb_false_r. repeat split.
  - cbn [one_char forallb]. intros H.
    apply andb_true_iff in H as [_ H]. apply andb_true_iff in H as [Hd _].
    assert (E : forall x, is_continuation x = false -> ascii_eqb d x = false).
    { intros x Hx. destruct (ascii_eqb d x) eqn:E; [|reflexivity].
      apply ascii_eqb_eq in E. subst x. congruence. }
    cbn [py list_ascii_of_string str_eqb existsb].
    rewrite (E "C"%char eq_refl), (E "E"%char eq_refl), (E "S"%char eq_refl),
      (E "R"%char eq_refl), (E "i"%char eq_refl), (E "o"%char eq_refl),
      (E "a"%char eq_refl).
    cbn [andb]. rewrite !andb_false_r. repeat split.
Qed.

(** A key of one character adds itself to the expression, or takes the
    place of a lone [0]. *)
Lemma on_key_one_char (H : Host) (st : LegendaryCalc) (val : str) :
  one_char val = true ->
  val <> py "=" -> val <> sym_sqrt ->
  on_key H st val
  = Ok (set_expression st
          (if str_eqb (expression st) (py "0")
              && negb (existsb (str_eqb val) [py "."; py "%"])
           then val else expression st ++ val)).
Proof.
  intros H1 He Hq. unfold on_key, key_token.
  destruct (one_char_not_command val H1) as (-> & -> & -> & -> & ->).
  now rewrite (str_eqb_neq He), (str_eqb_neq Hq).
Qed.

Lemma on_key_DEL (H : Host) (st : LegendaryCalc) :
  on_key H st (py "DEL")
  = Ok (set_expression st
          (match drop_last (expression st) with
           | [] => py "0"
           | s => s
           end)).
Proof. reflexivity. Qed.

(** X7.  DEL takes back a key of one character: pressed after any key
    that is one character other than [=] and the radical sign, it
    restores the state the key was pressed in, the display included;
    a key that replaced a lone [0] gives the [0] back. *)
Theorem DEL_takes_back_a_character (H : Host) (st : LegendaryCalc) (val : str) :
  one_char val = true ->
  val <> py "=" -> val <> sym_sqrt ->
  lbl_text st = expression st -> expression st <> [] ->
  (st1 <- on_key H st val ;; on_key H st1 (py "DEL")) = Ok st.
Proof.
  intros H1 He Hq Hl Hn. rewrite (on_key_one_char H st H1 He Hq).
  cbn [bind]. rewrite on_key_DEL, set_expression_expression.
  rewrite (@set_expression_showing st _ Hl).
  rewrite set_expression_showing by reflexivity.
  assert (E : match
                drop_last
                  (if str_eqb (expression st) (py "0")
                      && negb (existsb (str_eqb val) [py "."; py "%"])
                   then val else expression st ++ val)
              with
              | [] => py "0"
              | s => s
              end = expression st).
  { destruct (str_eqb (expression st) (py "0")) eqn:E0; cbn [andb].
    - apply str_eqb_eq in E0.
      destruct (negb (existsb (str_eqb val) [py "."; py "%"])).
      + rewrite <- (app_nil_l val), (@drop_last_app [] val H1). now rewrite E0.
      + rewrite (@drop_last_app _ val H1), E0. reflexivity.
    - rewrite (@drop_last_app _ val H1).
      destruct (expression st); [congruence | reflexivity]. }
  rewrite E. f_equal. destruct st; cbn in *. now subst.
Qed.

Lemma DEL_witness :
  (st1 <- on_key host_table (build []) (py "7") ;;
   on_key host_table st1 (py "DEL")) = Ok (build [])
  /\ (st1 <- on_key host_table (showing (build []) (py "2+")) sym_pi ;;
      on_key host_table st1 (py "DEL")) = Ok (showing (build []) (py "2+")).
Proof.
  split.
  - apply DEL_takes_back_a_character; (reflexivity || discriminate).
  - apply DEL_takes_back_a_character; (reflexivity || discriminate).
Defined.

(** ** Typing *)

Lemma session_app (H : Host) (st : LegendaryCalc) (a b : list event) :
  session H st (a ++ b) = (st' <- session H st a ;; session H st' b).
Proof.
  revert st. induction a as [|ev a IH]; intros st; [reflexivity|].
  cbn [List.app session]. destruct (handle H st ev); cbn [bind]; auto.
Qed.

Lemma on_key_digit (H : Host) (st : LegendaryCalc) (c : ascii) :
  is_digit c = true ->
  on_key H st [c]
  = Ok (set_expression st
          (if str_eqb (expression st) (py "0") then [c]
           else expression st ++ [c])).
Proof.
  intros Hc. rewrite on_key_one_char.
  - replace (existsb (str_eqb [c]) [py "."; py "%"]) with false
      by (revert Hc; by_bits c).
    cbn [negb]. now rewrite andb_true_r.
  - revert Hc; by_bits c.
  - intros E. injection E as ->. discriminate.
  - discriminate.
Qed.

Lemma typed_digits_snoc (p : str) (c : ascii) :
  typed_digits (p ++ [c])
  = if str_eqb (typed_digits p) (py "0") then [c] else typed_digits p ++ [c].
Proof.
  unfold typed_digits. induction p as [|x p IH].
  - cbn. unfold ascii_eqb. destruct (Ascii.eqb_spec c "0"); [now subst|reflexivity].
  - cbn [List.app drop_zeros]. destruct (ascii_eqb x "0") eqn:Ex; [exact IH|].
    cbn [str_eqb py list_ascii_of_string]. rewrite Ex. reflexivity.
Qed.

Lemma showing_twice (st : LegendaryCalc) (a b : str) :
  showing (showing st a) b = showing st b.
Proof. reflexivity. Qed.

Lemma showing_same (st : LegendaryCalc) :
  lbl_text st = expression st -> showing st (expression st) = st.
Proof. intros H. destruct st; cbn in *. now subst. Qed.

(** The digit keys on a display that shows a lone [0]. *)
Lemma press_digits_cleared (H : Host) (st : LegendaryCalc) (ds : str) :
  expression st = py "0" -> lbl_text st = py "0" ->
  forallb is_digit ds = true ->
  session H st (press_digits ds) = Ok (showing st (typed_digits ds)).
Proof.
  intros He Hl. induction ds as [|c p IH] using rev_ind; intros Hd.
  - cbn [press_digits map session]. f_equal.
    change (typed_digits []) with (py "0"). rewrite <- He.
    symmetry. apply showing_same. congruence.
  - rewrite forallb_app in Hd. apply andb_true_iff in Hd as [Hp Hc].
    cbn [forallb] in Hc. rewrite andb_true_r in Hc.
    unfold press_digits. rewrite map_app, session_app.
    fold (press_digits p). rewrite (IH Hp). cbn [bind map session handle].
    rewrite (@on_key_digit H _ c Hc). cbn [bind].
    rewrite set_expression_showing by reflexivity.
    cbn [expression showing]. now rewrite typed_digits_snoc.
Qed.

(** The digit keys on any other display. *)
Lemma press_digits_appended (H : Host) (st : LegendaryCalc) (ds : str) :
  expression st <> py "0" -> expression st <> [] ->
  lbl_text st = expression st ->
  forallb is_digit ds = true ->
  session H st (press_digits ds) = Ok (showing st (expression st ++ ds)).
Proof.
  intros He Hn Hl. induction ds as [|c p IH] using rev_ind; intros Hd.
  - cbn [press_digits map session]. rewrite app_nil_r. f_equal.
    symmetry. now apply showing_same.
  - rewrite forallb_app in Hd. apply andb_true_iff in Hd as [Hp Hc].
    cbn [forallb] in Hc. rewrite andb_true_r in Hc.
    unfold press_digits. rewrite map_app, session_app.
    fold (press_digits p). rewrite (IH Hp). cbn [bind map session handle].
    rewrite (@on_key_digit H _ c Hc). cbn [bind].
    rewrite set_expression_showing by reflexivity.
    cbn [expression showing]. rewrite str_eqb_neq.
    + now rewrite <- app_assoc.
    + destruct (expression st) as [|x [|y e]]; [congruence| |discriminate].
      destruct p; [|discriminate]. cbn. intros E. apply He. exact E.
Qed.

Lemma digits_to_Z_typed (ds : str) :
  digits_to_Z (typed_digits ds) = digits_to_Z ds.
Proof.
  unfold typed_digits. induction ds as [|c r IH]; [reflexivity|].
  cbn [drop_zeros]. unfold ascii_eqb. destruct (Ascii.eqb_spec c "0").
  - subst c. rewrite IH. reflexivity.
  - reflexivity.
Qed.

Lemma drop_zeros_digits (ds : str) :
  forallb is_digit ds = true -> forallb is_digit (drop_zeros ds) = true.
Proof.
  induction ds as [|c r IH]; [reflexivity|].
  intros H. cbn [drop_zeros]. destruct (ascii_eqb c "0"); [|exact H].
  apply IH. cbn [forallb] in H. now apply andb_true_iff in H.
Qed.

Lemma drop_zeros_head (ds : str) :
  match drop_zeros ds with
  | c :: _ => ascii_eqb c "0" = false
  | [] => True
  end.
Proof.
  induction ds as [|c r IH]; [exact I|].
  cbn [drop_zeros]. destruct (ascii_eqb c "0") eqn:E; [exact IH | exact E].
Qed.

(** What the keypad leaves of a digit string is a decimal literal. *)
Lemma read_unsigned_typed (ds : str) :
  forallb is_digit ds = true ->
  read_unsigned (typed_digits ds) = Some (VInt (digits_to_Z ds)).
Proof.
  intros Hd. rewrite <- digits_to_Z_typed. unfold typed_digits.
  pose proof (@drop_zeros_digits ds Hd) as Hz.
  pose proof (drop_zeros_head ds) as Hh.
  destruct (drop_zeros ds) as [|z r]; [reflexivity|].
  unfold read_unsigned.
  rewrite <- (app_nil_r (z :: r)) at 1.
  rewrite (span_app is_digit (z :: r) [] Hz eq_refl).
  unfold int_numeral. rewrite Hz, Hh. reflexivity.
Qed.



(** ** The history *)

Lemma set_mem_log (st : LegendaryCalc) (f : float) : log (set_mem st f) = log st.
Proof. unfold set_mem. now destruct (mem_eqb (mem st) f). Qed.

Lemma set_expression_log (st : LegendaryCalc) (v : str) :
  log (set_expression st v) = log st.
Proof. apply set_expression_fields. Qed.

Lemma set_expression_flashes (st : LegendaryCalc) (v : str) :
  flashes (set_expression st v) = flashes st.
Proof. apply set_expression_fields. Qed.

(** What [=] does: a row and no flash, or a flash and no row. *)
Lemma run_math_outcome (H : Host) (st st' : LegendaryCalc) :
  run_math H st = Ok st' ->
  (flashes st' = flashes st
   /\ log st' = log st ++ [expression st ++ py " = " ++ expression st'])
  \/ (flashes st' = S (flashes st)
      /\ log st' = log st /\ expression st' = py "Error").
Proof.
  unfold run_math.
  assert (He : forall x, Ok (show_error st) = Ok x ->
            flashes x = S (flashes st) /\ log x = log st
            /\ expression x = py "Error").
  { intros x E. injection E as <-. unfold show_error.
    now rewrite set_expression_flashes, set_expression_log,
      set_expression_expression. }
  destruct (evaluate (libm H) (is_deg st) (expression st)) as [res|e|];
    [|intros E; right; now apply He|discriminate].
  destruct (format_8g res) as [out|e|];
    [|intros E; right; now apply He|discriminate].
  intros E. injection E as <-. left.
  now rewrite set_expression_flashes, set_expression_log,
    set_expression_expression.
Qed.

Lemma handle_log (H : Host) (st st' : LegendaryCalc) (ev : event) :
  handle H st ev = Ok st' ->
  log st' = log st
  \/ (is_equals ev = true /\ exists row, log st' = log st ++ [row]).
Proof.
  destruct ev as [val|]; cbn [handle is_equals];
    [|intros E; injection E as <-; now left].
  unfold on_key.
  destruct (str_eqb val (py "AC")).
  { intros E. injection E as <-. left. apply set_expression_log. }
  destruct (str_eqb val (py "DEL")).
  { intros E. injection E as <-. left. apply set_expression_log. }
  destruct (str_eqb val (py "MS")).
  { destruct (py_float H (expression st)); intros E; try discriminate;
      injection E as <-; left; [apply set_mem_log | reflexivity]. }
  destruct (str_eqb val (py "MR")).
  { destruct (mem_str H (mem st)); cbn [bind]; intros E; try discriminate.
    injection E as <-. left. apply set_expression_log. }
  destruct (str_eqb val (py "=")).
  { intros E. destruct (run_math_outcome H st E) as [[_ Hl] | [_ [Hl _]]].
    - right. split; [reflexivity|]. eexists. exact Hl.
    - now left. }
  intros E. injection E as <-. left. apply set_expression_log.
Qed.

Lemma session_log (H : Host) (evs : list event) :
  forall st st', session H st evs = Ok st' ->
  exists added,
    log st' = log st ++ added
    /\ (length added <= length (filter is_equals evs))%nat.
Proof.
  induction evs as [|ev evs IH]; intros st st'; cbn [session].
  - intros E. injection E as <-. exists []. now rewrite app_nil_r.
  - destruct (handle H st ev) as [st1| |] eqn:E1; cbn [bind]; try discriminate.
    intros E. destruct (IH _ _ E) as (added & Hl & Hn).
    destruct (handle_log H st ev E1) as [H1 | [Heq [row H1]]].
    + exists added. rewrite Hl, H1. split; [reflexivity|].
      cbn [filter]. destruct (is_equals ev); cbn [length]; lia.
    + exists (row :: added). rewrite Hl, H1, <- app_assoc. split; [reflexivity|].
      cbn [filter]. rewrite Heq. cbn [length]. lia.
Qed.


(** ** After an error *)

Lemma lex_error_name (ds : str) :
  forallb is_digit ds = true ->
  lex_step (py "Error" ++ ds) = STok (TName (py "Error" ++ ds)) [].
Proof.
  intros Hd.
  assert (Hn : forallb is_name_char (py "Error" ++ ds) = true).
  { rewrite forallb_app. rewrite (digits_name_chars ds Hd). reflexivity. }
  change (lex_step (py "Error" ++ ds)) with (lex_name (py "Error" ++ ds)).
  unfold lex_name. rewrite <- (app_nil_r (py "Error" ++ ds)) at 1.
  rewrite (span_app is_name_char _ [] Hn eq_refl). reflexivity.
Qed.

Lemma evaluate_error_name (L : Libm) (m : bool) (ds : str) :
  forallb is_digit ds = true ->
  evaluate L m (py "Error" ++ ds) = Raise (NameError (py "Error" ++ ds)).
Proof.
  intros Hd.
  pose proof (digits_mantissa ds Hd) as Hm.
  destruct (mantissa_counts _ Hm) as (H1 & H2 & H3 & H4 & H5).
  assert (Hs : solid (py "Error" ++ ds) = true)
    by (rewrite solid_app, (mantissa_solid _ Hm); reflexivity).
  assert (Hi : insert_after_digit (py "Error" ++ ds) = py "Error" ++ ds).
  { rewrite insert_after_digit_letters by reflexivity.
    now rewrite insert_after_digit_digits. }
  destruct (@evaluate_plain L m (py "Error" ++ ds) (py "Error" ++ ds)
              [TName (py "Error" ++ ds)]) as [_ ->];
    try assumption; try discriminate; try (cbn [py list_ascii_of_string List.app]; absent).
  - rewrite <- (app_nil_r (py "Error" ++ ds)) at 1 2.
    rewrite app_nil_r.
    apply (tokenize_cons _ (lex_error_name ds Hd)). reflexivity.
  - reflexivity.
Qed.

(** X10.  [Error] on the display stays: digits typed after it are added
    to it, which makes a name the evaluator does not know, so that [=]
    shows [Error] again, with one more error animation and no row added
    to the history. *)
Theorem error_stays_on_the_display (H : Host) (st : LegendaryCalc) (ds : str) :
  expression st = py "Error" -> lbl_text st = py "Error" ->
  forallb is_digit ds = true ->
  session H st (press_digits ds) = Ok (showing st (py "Error" ++ ds))
  /\ exists st',
       session H st (press_digits ds ++ [Press (py "=")]) = Ok st'
       /\ expression st' = py "Error" /\ lbl_text st' = py "Error"
       /\ log st' = log st /\ flashes st' = S (flashes st)
       /\ is_deg st' = is_deg st /\ mem st' = mem st.
Proof.
  intros He Hl Hd.
  assert (Hs : session H st (press_digits ds) = Ok (showing st (py "Error" ++ ds))).
  { rewrite <- He. apply press_digits_appended; try assumption.
    - rewrite He. discriminate.
    - rewrite He. discriminate.
    - congruence. }
  split; [exact Hs|].
  exists (show_error (showing st (py "Error" ++ ds))).
  split.
  - rewrite session_app, Hs. cbn [bind session handle].
    change (on_key H (showing st (py "Error" ++ ds)) (py "="))
      with (run_math H (showing st (py "Error" ++ ds))).
    unfold run_math. cbn [expression is_deg showing].
    now rewrite (evaluate_error_name (libm H) (is_deg st) ds Hd).
  - unfold show_error. rewrite set_expression_showing by reflexivity.
    repeat split.
Qed.

Lemma error_witness :
  session host_table (showing (build []) (py "Error")) (press_digits (py "12"))
  = Ok (showing (build []) (py "Error12"))
  /\ exists st',
       session host_table (showing (build []) (py "Error"))
         (press_digits (py "12") ++ [Press (py "=")]) = Ok st'
       /\ expression st' = py "Error" /\ lbl_text st' = py "Error"
       /\ log st' = [] /\ flashes st' = 1%nat
       /\ is_deg st' = true /\ mem st' = MZero.
Proof.
  exact (@error_stays_on_the_display host_table
           (showing (build []) (py "Error")) (py "12") eq_refl eq_refl eq_refl).
Defined.

(** ** A function key, a number and [=] *)

(** The four keys that open a call, and the function each one names. *)
Lemma on_key_function (H : Host) (st : LegendaryCalc) (k fname : str) :
  In (k, fname) [(py "sin", py "sin"); (py "cos", py "cos");
                 (py "tan", py "tan"); (sym_sqrt, py "sqrt")] ->
  expression st = py "0" ->
  on_key H st k = Ok (set_expression st (fname ++ py "(")).
Proof.
  intros Hk He. unfold on_key, key_token. rewrite He.
  repeat (destruct Hk as [E | Hk]; [injection E as <- <-; reflexivity|]).
  contradiction.
Qed.

(** X11.  On a cleared display, one of the keys sin, cos, tan or the
    radical sign, then the digits of a decimal literal, then [=]: the
    call the key opened is evaluated on that number (in degree mode on
    its conversion to radians, for the three trigonometric keys), the
    result is shown formatted and the calculation is added to the
    history; whatever the call or the formatting raises shows [Error]. *)
Theorem function_key_then_number (H : Host) (st : LegendaryCalc)
    (k fname ds : str) (v : value) :
  In (k, fname) [(py "sin", py "sin"); (py "cos", py "cos");
                 (py "tan", py "tan"); (sym_sqrt, py "sqrt")] ->
  expression st = py "0" -> lbl_text st = py "0" ->
  forallb is_digit ds = true -> read_unsigned ds = Some v ->
  let text := fname ++ py "(" ++ ds in
  let tree :=
    if is_deg st && existsb (str_eqb fname) [py "sin"; py "cos"; py "tan"]
    then Call (Name fname) [Call (Name (py "radians")) [Constant v] []] []
    else Call (Name fname) [Constant v] [] in
  session H st (Press k :: press_digits ds) = Ok (showing st text)
  /\ session H st (Press k :: press_digits ds ++ [Press (py "=")])
     = match _eval (libm H) tree with
       | Ok res =>
           match format_8g res with
           | Ok out => Ok (showing (insert_row st (text ++ py " = " ++ out)) out)
           | Raise _ => Ok (show_error (showing st text))
           | OutsideModel => OutsideModel
           end
       | Raise _ => Ok (show_error (showing st text))
       | OutsideModel => OutsideModel
       end.
Proof.
  intros Hk He Hl Hd Hu text tree.
  assert (Hf : In fname function_names).
  { repeat (destruct Hk as [E | Hk]; [injection E as <- <-; cbn; tauto|]).
    contradiction. }
  assert (Hn : fname ++ py "(" <> py "0" /\ fname ++ py "(" <> []).
  { repeat (destruct Hk as [E | Hk]; [injection E as <- <-; split; discriminate|]).
    contradiction. }
  assert (Hs : session H st (Press k :: press_digits ds) = Ok (showing st text)).
  { cbn [session handle]. rewrite (on_key_function H st Hk He). cbn [bind].
    rewrite set_expression_showing by congruence.
    rewrite press_digits_appended; try reflexivity; try exact Hd;
      try apply Hn.
    cbn [expression showing]. unfold text. now rewrite <- app_assoc. }
  split; [exact Hs|].
  assert (Hv : evaluate (libm H) (is_deg st) text = _eval (libm H) tree).
  { destruct (@open_call_evaluates (libm H) fname ds [] v Hf Hu (or_introl eq_refl))
      as [Hr Hg].
    rewrite app_nil_r in Hr, Hg. unfold text, tree.
    destruct (is_deg st); cbn [andb]; [exact Hg | exact Hr]. }
  rewrite app_comm_cons, session_app, Hs. cbn [bind session handle].
  change (on_key H (showing st text) (py "="))
    with (run_math H (showing st text)).
  unfold run_math. cbn [expression is_deg showing]. rewrite Hv.
  destruct (_eval (libm H) tree) as [res| |]; try reflexivity.
  destruct (format_8g res); try reflexivity.
  f_equal. now rewrite set_expression_showing by reflexivity.
Qed.

Lemma function_key_witness :
  session host_table (build []) (Press (py "sin") :: press_digits (py "90"))
  = Ok (showing (build []) (py "sin(90"))
  /\ session host_table (build [])
       (Press (py "sin") :: press_digits (py "90") ++ [Press (py "=")])
     = Ok (showing (insert_row (build []) (py "sin(90 = 1")) (py "1")).
Proof.
  exact (@function_key_then_number host_table (build []) (py "sin") (py "sin")
           (py "90") (VInt 90) (or_introl eq_refl) eq_refl eq_refl eq_refl
           eq_refl).
Defined.

(** ** What the keys leave alone *)

Lemma set_expression_mode (st : LegendaryCalc) (v : str) :
  is_deg (set_expression st v) = is_deg st
  /\ mem (set_expression st v) = mem st.
Proof. split; apply set_expression_fields. Qed.

Lemma show_error_frame (st : LegendaryCalc) :
  is_deg (show_error st) = is_deg st /\ mem (show_error st) = mem st.
Proof.
  unfold show_error.
  split; [rewrite (proj1 (set_expression_mode _ _))
         |rewrite (proj2 (set_expression_mode _ _))]; reflexivity.
Qed.

Lemma run_math_frame (H : Host) (st st' : LegendaryCalc) :
  run_math H st = Ok st' -> is_deg st' = is_deg st /\ mem st' = mem st.
Proof.
  unfold run_math.
  destruct (evaluate (libm H) (is_deg st) (expression st)) as [res|e|];
    [|intros E; injection E as <-; apply show_error_frame|discriminate].
  destruct (format_8g res) as [out|e|];
    intros E; try discriminate; injection E as <-;
    [|apply show_error_frame].
  split; [rewrite (proj1 (set_expression_mode _ _))
         |rewrite (proj2 (set_expression_mode _ _))]; reflexivity.
Qed.

Lemma handle_frame (H : Host) (st st' : LegendaryCalc) (ev : event) :
  handle H st ev = Ok st' ->
  (is_MS ev = false -> mem st' = mem st)
  /\ is_deg st' = (if is_unit ev then negb (is_deg st) else is_deg st).
Proof.
  destruct ev as [val|]; cbn [handle is_MS is_unit];
    [|intros E; injection E as <-; split; reflexivity].
  unfold on_key.
  destruct (str_eqb val (py "AC")).
  { intros E. injection E as <-. split; [intros _|]; apply set_expression_mode. }
  destruct (str_eqb val (py "DEL")).
  { intros E. injection E as <-. split; [intros _|]; apply set_expression_mode. }
  destruct (str_eqb val (py "MS")).
  { destruct (py_float H (expression st)); intros E; try discriminate;
      injection E as <-; (split; [discriminate|]); [|reflexivity].
    unfold set_mem. now destruct (mem_eqb (mem st) a). }
  destruct (str_eqb val (py "MR")).
  { destruct (mem_str H (mem st)); cbn [bind]; intros E; try discriminate.
    injection E as <-. split; [intros _|]; apply set_expression_mode. }
  destruct (str_eqb val (py "=")).
  { intros E. destruct (run_math_frame H st E) as [Hd Hm]. now split. }
  intros E. injection E as <-. split; [intros _|]; apply set_expression_mode.
Qed.


